(** * Graph memory planner (relay/backend/graph_plan_memory.cc, runtime/texture.h,
      runtime/opencl/opencl_device_api.cc)

    A shallow embedding of the storage planner of the graph runtime backend:
    the storage tokens, the two token allocators (linear buffers and 2d
    textures), their dispatcher, the two visitors (liveness and assignment) and
    the serialisation done by [Plan]; followed by the properties of the
    planner that are established, or refuted, on that embedding. *)

From Stdlib Require Import ZArith String List Lia DecimalString.
From stdpp Require Import base tactics option list gmap strings.

Local Open Scope string_scope.
Local Open Scope list_scope.
Local Open Scope Z_scope.

(** ** Failure and the state-and-failure monad

    [ICHECK] and [LOG(FATAL)] abort the pass.  What C++ leaves undefined (a
    null or past-the-end dereference, signed overflow) is a failure of the
    model as well, so that a successful run of the model never relies on it. *)

Inductive Fatal : Type :=
| ICHECK_failed (what : string)
| LOG_FATAL (msg : string)
| Undefined (what : string).

Inductive result (A : Type) : Type :=
| Ok (a : A)
| Err (e : Fatal).
Arguments Ok {A} a.
Arguments Err {A} e.

Definition rbind {A B} (r : result A) (k : A → result B) : result B :=
  match r with
  | Ok a => k a
  | Err e => Err e
  end.

Definition M (S A : Type) : Type := S → result (A * S).

Definition ret {S A} (a : A) : M S A := λ s, Ok (a, s).
Definition bind {S A B} (m : M S A) (k : A → M S B) : M S B :=
  λ s, match m s with
       | Ok (a, s') => k a s'
       | Err e => Err e
       end.
Definition fail {S A} (e : Fatal) : M S A := λ _, Err e.
Definition get {S} : M S S := λ s, Ok (s, s).
Definition put {S} (s : S) : M S unit := λ _, Ok (tt, s).
Definition modify {S} (f : S → S) : M S unit := λ s, Ok (tt, f s).
Definition lift {S A} (r : result A) : M S A :=
  λ s, match r with Ok a => Ok (a, s) | Err e => Err e end.
Definition ICHECK {S} (b : bool) (what : string) : M S unit :=
  if b then ret tt else fail (ICHECK_failed what).

Declare Scope monad_scope.
Delimit Scope monad_scope with monad.
Notation "'let*' x ':=' m 'in' k" := (bind m (λ x, k))
  (at level 10, x name, m at level 100, k at level 200) : monad_scope.
Notation "m ;; k" := (bind m (λ _, k))
  (at level 100, k at level 200, right associativity) : monad_scope.
Notation "'let+' x ':=' m 'in' k" := (rbind m (λ x, k))
  (at level 10, x name, m at level 100, k at level 200) : monad_scope.
Local Open Scope monad_scope.

(** [for (x : xs) body(x)] *)
Fixpoint for_each {S A} (xs : list A) (body : A → M S unit) : M S unit :=
  match xs with
  | [] => ret tt
  | x :: xs' => body x ;; for_each xs' body
  end.

(** ** Machine integers

    [size_t] is 64 bits wide and wraps around.  [int] and [int64_t] are
    signed: a result that leaves their range is undefined behaviour. *)

Definition wrap_size (z : Z) : Z := z mod 2 ^ 64.
Definition INT_MAX : Z := 2 ^ 31 - 1.
Definition INT_MIN : Z := - 2 ^ 31.
Definition INT64_MAX : Z := 2 ^ 63 - 1.
Definition INT64_MIN : Z := - 2 ^ 63.

Definition as_int (z : Z) : result Z :=
  if bool_decide (INT_MIN ≤ z ≤ INT_MAX) then Ok z
  else Err (Undefined "signed overflow (int)").
Definition as_int64 (z : Z) : result Z :=
  if bool_decide (INT64_MIN ≤ z ≤ INT64_MAX) then Ok z
  else Err (Undefined "signed overflow (int64_t)").

(** Conversion of an [int64_t] to [int] keeps the low 32 bits. *)
Definition trunc_int (z : Z) : Z := (z + 2 ^ 31) mod 2 ^ 32 - 2 ^ 31.
(** Conversion of a signed value to [size_t]. *)
Definition to_size (z : Z) : Z := wrap_size z.

(** ** Types of the expression language (external to the planner) *)

Inductive IndexExpr : Type :=
| IntImm (value : Z)     (* a constant dimension: [as_const_int] succeeds *)
| SymbolicDim.           (* anything else: [as_const_int] is null *)

Record DataType : Type := mkDataType {
  dt_code : Z;
  dt_bits : Z;
  dt_lanes : Z
}.

Record TensorTypeNode : Type := mkTensorType {
  shape : list IndexExpr;
  dtype : DataType
}.

#[warnings="-register-all"]
Inductive Ty : Type :=
| TensorType (t : TensorTypeNode)
| TupleType (fields : list Ty)
| OtherType.

Global Instance IndexExpr_eq_dec : EqDecision IndexExpr.
Proof. solve_decision. Defined.
Global Instance DataType_eq_dec : EqDecision DataType.
Proof. solve_decision. Defined.
Global Instance TensorTypeNode_eq_dec : EqDecision TensorTypeNode.
Proof. solve_decision. Defined.

(** ** runtime/texture.h *)

Module texture.

Record Texture2DShape : Type := mkTexture2DShape {
  width : Z;
  height : Z;
  channel : Z
}.

(** [std::string::find(needle) != npos] *)
Fixpoint contains (needle hay : string) : bool :=
  if String.prefix needle hay then true
  else match hay with
       | EmptyString => false
       | String _ hay' => contains needle hay'
       end.

Definition IsTextureStorage (scope : string) : bool :=
  contains "texture" scope.

(** The separator is a [size_t]: [shape_rank - 2] wraps around below rank 2. *)
Definition DefaultTextureLayoutSeparator (shape_rank : Z) (convention : string)
  : result Z :=
  if bool_decide (convention = "texture") then Ok (wrap_size (shape_rank - 2))
  else if bool_decide (convention = "texture:weight") then Ok 1
  else if bool_decide (convention = "texture:nhwc") then Ok 2
  else Err (LOG_FATAL "Encountered unknown texture lowering convention").

(** The loop [for (i = 0; i < rank - 1; i++)], with [n] iterations left.
    [shape] stands for the template argument's [operator[]]. *)
Fixpoint flatten_loop (shape : Z → result Z) (axis : Z) (n : nat) (i : Z)
    (t : Texture2DShape) : result Texture2DShape :=
  match n with
  | O => Ok t
  | S n' =>
      let+ d := shape i in
      let+ t' := (if bool_decide (i < axis)
                  then let+ h := as_int64 (height t * d) in
                       Ok (mkTexture2DShape (width t) h (channel t))
                  else let+ w := as_int64 (width t * d) in
                       Ok (mkTexture2DShape w (height t) (channel t))) in
      flatten_loop shape axis n' (i + 1) t'
  end.

Definition ApplyTexture2DFlattening (shape : Z → result Z) (rank axis : Z)
  : result Texture2DShape :=
  if negb (bool_decide (axis < rank)) then
    Err (ICHECK_failed "Number of axes to flatten into rows must be less than shape rank for 2d flattening")
  else
    let+ c := shape (rank - 1) in
    flatten_loop shape axis (Z.to_nat (rank - 1)) 0 (mkTexture2DShape 1 1 c).

End texture.

(** ** runtime/opencl/opencl_device_api.cc *)

Module opencl.

(** The enumerators of [OpenCLBuffer::MemoryLayout] that the file names; the
    enumeration itself is declared in opencl_common.h. *)
Inductive MemoryLayout : Type :=
| kUndefined
| kGlobalRowMajor
| kTexture2DActivation
| kTexture2DWeight
| kTexture2DNHWC.

(** [mem_scope] is an [Optional<String>]. *)
Definition MemoryLayoutFromScope (mem_scope : option string)
  : result MemoryLayout :=
  match mem_scope with
  | None => Ok kGlobalRowMajor
  | Some scope =>
      if bool_decide (scope = "texture") then Ok kTexture2DActivation
      else if bool_decide (scope = "texture:weight") then Ok kTexture2DWeight
      else if bool_decide (scope = "texture:nhwc") then Ok kTexture2DNHWC
      else Err (LOG_FATAL
                  ("No memory layout defined for memory of scope: " ++ scope))
  end.

(** [shape[i]] on the [const int64_t*] argument of [AllocDataSpace]: the
    array holds the dimensions, and reading past it is undefined. *)
Definition read_shape (shape : list Z) (i : Z) : result Z :=
  match shape !! Z.to_nat i with
  | Some d => Ok d
  | None => Err (Undefined "read past the end of the shape array")
  end.

Section Workspace.
(** [void*] as the base class returns it, [OpenCLBuffer*] and [cl_mem]. *)
Context {Ptr Buffer ClMem : Type}.

(** What [AllocDataSpace] calls outside of the three files: the allocation
    of the base class [DeviceAPI], the constructor of [OpenCLBuffer]
    (opencl_common.h), and [AllocTexture], which checks that a context
    exists and creates the image through the OpenCL runtime. *)
Variable DeviceAPI_AllocDataSpace :
  Z → list Z → DataType → option string → result Ptr.
Variable new_OpenCLBuffer : option string → result Buffer.
Variable AllocTexture : Z → Z → DataType → result ClMem.

(** What the function returns: the pointer of the base class, or the new
    [OpenCLBuffer] with its [buffer] member set. *)
Inductive DataSpace : Type :=
| FromDeviceAPI (p : Ptr)
| TextureBuffer (mptr : Buffer) (buffer : ClMem).

(** [AllocDataSpace(ctx, ndim, shape, dtype, mem_scope)]; [ndim] is an
    [int], converted to [size_t] where the texture functions take it, and
    the [int64_t] width and height are converted to [size_t] for
    [AllocTexture]. *)
Definition AllocDataSpace (ndim : Z) (shape : list Z) (dtype : DataType)
    (mem_scope : option string) : result DataSpace :=
  match mem_scope with
  | None =>
      let+ p := DeviceAPI_AllocDataSpace ndim shape dtype mem_scope in
      Ok (FromDeviceAPI p)
  | Some scope =>
      if bool_decide (scope = "global") then
        let+ p := DeviceAPI_AllocDataSpace ndim shape dtype mem_scope in
        Ok (FromDeviceAPI p)
      else if negb (texture.IsTextureStorage scope) then
        Err (ICHECK_failed "IsTextureStorage(std::string(mem_scope.value()))")
      else if negb (bool_decide (2 < ndim)) then
        Err (ICHECK_failed "ndim > 2")
      else
        let+ mptr := new_OpenCLBuffer mem_scope in
        let+ axis :=
          texture.DefaultTextureLayoutSeparator (to_size ndim) scope in
        let+ tex :=
          texture.ApplyTexture2DFlattening (read_shape shape) (to_size ndim)
            axis in
        let+ buffer :=
          AllocTexture (to_size (texture.width tex))
            (to_size (texture.height tex)) dtype in
        Ok (TextureBuffer mptr buffer)
  end.

End Workspace.

End opencl.

Definition Is2DStorage : string → bool := texture.IsTextureStorage.

(** ** Storage tokens and the arena

    A [StorageToken*] is an index into the arena; tokens are never freed. *)

Abbreviation node := nat (only parsing).     (* identity (address) of an ExprNode *)
Abbreviation tokptr := nat (only parsing).   (* StorageToken* *)

Record StorageToken : Type := mkStorageToken {
  ref_counter : Z;                       (* int *)
  max_bytes : Z;                         (* size_t *)
  ttype : option TensorTypeNode;         (* nullptr is None *)
  device_type : Z;                       (* int *)
  storage_id : Z;                        (* int64_t *)
  storage_scope : string
}.

(** A token as [arena_->make<StorageToken>()] leaves it. *)
Definition new_StorageToken : StorageToken :=
  mkStorageToken 0 0 None 0 (-1) "global".

Definition set_ref_counter (v : Z) (t : StorageToken) : StorageToken :=
  mkStorageToken v (max_bytes t) (ttype t) (device_type t) (storage_id t)
    (storage_scope t).
Definition set_max_bytes (v : Z) (t : StorageToken) : StorageToken :=
  mkStorageToken (ref_counter t) v (ttype t) (device_type t) (storage_id t)
    (storage_scope t).
Definition set_storage_id (v : Z) (t : StorageToken) : StorageToken :=
  mkStorageToken (ref_counter t) (max_bytes t) (ttype t) (device_type t) v
    (storage_scope t).
Definition set_device_type (v : Z) (t : StorageToken) : StorageToken :=
  mkStorageToken (ref_counter t) (max_bytes t) (ttype t) v (storage_id t)
    (storage_scope t).

Abbreviation Arena := (list StorageToken) (only parsing).

Definition deref (h : Arena) (p : tokptr) : result StorageToken :=
  match h !! p with
  | Some t => Ok t
  | None => Err (Undefined "dangling StorageToken pointer")
  end.

(** ** TokenAllocator1D: linear buffers *)

Module TokenAllocator1D.

(** [free_] is a [std::multimap<size_t, StorageToken*>]: the list of its
    entries in iteration order, that is by increasing key, entries of equal
    key in order of insertion.  An iterator is a position in that list. *)
Record t : Type := mk {
  free_ : list (Z * tokptr);
  data_ : list tokptr
}.

Definition match_range_ : Z := 16.

Definition DivRoundUp (size word_size : Z) : Z :=
  wrap_size (size + word_size - 1) / word_size.

Fixpoint size_loop (dims : list IndexExpr) (size : Z) : result Z :=
  match dims with
  | [] => Ok size
  | SymbolicDim :: _ =>
      Err (ICHECK_failed "Cannot allocate memory symbolic tensor shape")
  | IntImm v :: dims' =>
      if bool_decide (0 ≤ v) then size_loop dims' (wrap_size (size * to_size v))
      else Err (ICHECK_failed "Cannot allocate memory for tensor with negative shape")
  end.

Definition GetMemorySize (prototype : StorageToken) : result Z :=
  match ttype prototype with
  | None => Err (ICHECK_failed "ttype != nullptr")
  | Some tty =>
      let+ size := size_loop (shape tty) 1 in
      let+ bl := as_int (dt_bits (dtype tty) * dt_lanes (dtype tty)) in
      Ok (wrap_size (size * DivRoundUp (to_size bl) 8))
  end.

Fixpoint lower_bound (l : list (Z * tokptr)) (k : Z) : nat :=
  match l with
  | [] => O
  | e :: l' => if bool_decide (k ≤ e.1) then O else S (lower_bound l' k)
  end.

Fixpoint upper_bound (l : list (Z * tokptr)) (k : Z) : nat :=
  match l with
  | [] => O
  | e :: l' => if bool_decide (k < e.1) then O else S (upper_bound l' k)
  end.

Definition insert (e : Z * tokptr) (l : list (Z * tokptr))
  : list (Z * tokptr) :=
  let i := upper_bound l e.1 in take i l ++ e :: drop i l.

(** [for (auto it = mid; it != end; ++it)], up to the first token of the
    requested device; [l] is what follows position [it]. *)
Fixpoint scan_up (h : Arena) (dev : Z) (end_ : nat) (l : list (Z * tokptr))
    (it : nat) : result (option (nat * tokptr)) :=
  if bool_decide (it = end_) then Ok None
  else match l with
       | [] => Err (Undefined "past-the-end iterator dereferenced")
       | e :: l' =>
           let+ tok := deref h e.2 in
           if bool_decide (device_type tok ≠ dev)
           then scan_up h dev end_ l' (S it)
           else Ok (Some (it, e.2))
       end.

(** [for (auto it = mid; it != begin;) { --it; ... }] *)
Fixpoint scan_down (h : Arena) (dev : Z) (free : list (Z * tokptr))
    (begin : nat) (it : nat) : result (option (nat * tokptr)) :=
  if bool_decide (it = begin) then Ok None
  else match it with
       | O => Err (Undefined "begin() decremented")
       | S it' =>
           match free !! it' with
           | None => Err (Undefined "past-the-end iterator dereferenced")
           | Some e =>
               let+ tok := deref h e.2 in
               if bool_decide (device_type tok ≠ dev)
               then scan_down h dev free begin it'
               else Ok (Some (it', e.2))
           end
       end.

(** The body shared by the two loops once the device matches. *)
Definition take_entry (h : Arena) (a : t) (size : Z) (prototype : tokptr)
    (it : nat) (p : tokptr) : result (option tokptr * Arena * t) :=
  let+ tok := deref h p in
  if negb (bool_decide (ref_counter tok = 0)) then
    Err (ICHECK_failed "tok->ref_counter == 0")
  else
    let h1 := <[p := set_max_bytes (Z.max size (max_bytes tok)) tok]> h in
    let+ proto := deref h1 prototype in
    let+ tok1 := deref h1 p in
    let h2 := <[p := set_ref_counter (ref_counter proto) tok1]> h1 in
    Ok (Some p, h2, mk (delete it (free_ a)) (data_ a)).

Definition Request (h : Arena) (a : t) (prototype : tokptr)
  : result (option tokptr * Arena * t) :=
  let+ proto := deref h prototype in
  let+ size := GetMemorySize proto in
  if bool_decide (match_range_ = 0) then Ok (None, h, a)
  else
    let begin := lower_bound (free_ a) (size / match_range_) in
    let mid := lower_bound (free_ a) size in
    let end_ := upper_bound (free_ a) (wrap_size (size * match_range_)) in
    let+ up := scan_up h (device_type proto) end_ (drop mid (free_ a)) mid in
    match up with
    | Some (it, p) => take_entry h a size prototype it p
    | None =>
        let+ down := scan_down h (device_type proto) (free_ a) begin mid in
        match down with
        | Some (it, p) => take_entry h a size prototype it p
        | None => Ok (None, h, a)
        end
    end.

Definition Alloc (h : Arena) (a : t) (prototype : tokptr) (storage_id : Z)
  : result (tokptr * Arena * t) :=
  let+ proto := deref h prototype in
  let+ size := GetMemorySize proto in
  Ok (prototype,
      <[prototype := set_storage_id storage_id (set_max_bytes size proto)]> h,
      mk (free_ a) (data_ a ++ [prototype])).

Definition CheckForRelease (h : Arena) (a : t) (tok : tokptr) : result t :=
  let+ tk := deref h tok in
  if negb (bool_decide (0 ≤ storage_id tk)) then
    Err (ICHECK_failed "tok->storage_id >= 0")
  else if negb (bool_decide (0 ≤ ref_counter tk)) then
    Err (ICHECK_failed "tok->ref_counter >= 0")
  else if bool_decide (ref_counter tk = 0) then
    Ok (mk (insert (max_bytes tk, tok) (free_ a)) (data_ a))
  else Ok a.

(** [for (const auto* p : data_) total += p->max_bytes], from [total] on. *)
Fixpoint total_loop (h : Arena) (data : list tokptr) (total : Z) : result Z :=
  match data with
  | [] => Ok total
  | p :: data' =>
      let+ tok := deref h p in
      total_loop h data' (wrap_size (total + max_bytes tok))
  end.

Definition TotalAllocBytes (h : Arena) (a : t) : result Z :=
  total_loop h (data_ a) 0.

End TokenAllocator1D.

(** ** TokenAllocator2D: texture blocks *)

Module TokenAllocator2D.

Record MemBlock : Type := mkMemBlock {
  token_ : option tokptr;      (* nullptr is None *)
  x_ : Z;
  y_ : Z
}.

(** [free_list_] is a [std::unordered_set<int64_t>]: the list of its
    elements in iteration order, which C++ leaves unspecified; a new
    element is put in front here, and what is proved about [Request] holds
    for every order. *)
Record t : Type := mk {
  blocks_ : gmap Z MemBlock;
  free_list_ : list Z
}.

(** [blocks_[id]] reads a value-initialised block when [id] is absent. *)
Definition block_at (a : t) (id : Z) : MemBlock :=
  default (mkMemBlock None 0 0) (blocks_ a !! id).

(** [Shape::operator[]] of [GetSize2D], over [Array<PrimExpr>]. *)
Definition Shape (dims : list IndexExpr) (i : Z) : result Z :=
  if bool_decide (0 ≤ i) then
    match dims !! Z.to_nat i with
    | Some (IntImm v) => Ok v
    | Some SymbolicDim => Err (Undefined "null as_const_int dereferenced")
    | None => Err (ICHECK_failed "Array index out of bounds")
    end
  else Err (ICHECK_failed "Array index out of bounds").

Definition GetSize2D (prototype : StorageToken)
  : result texture.Texture2DShape :=
  match ttype prototype with
  | None => Err (ICHECK_failed "ttype != nullptr")
  | Some tty =>
      let rank := Z.of_nat (length (shape tty)) in
      let+ axis :=
        texture.DefaultTextureLayoutSeparator rank (storage_scope prototype) in
      texture.ApplyTexture2DFlattening (Shape (shape tty)) rank axis
  end.

(** The local variables of the search loop of [Request]; [best_mem] is
    uninitialised until a candidate is taken. *)
Record Search : Type := mkSearch {
  min_added_size : Z;
  min_wasted_size : Z;
  best_storage_id : Z;
  best_mem : option (Z * Z)
}.

Definition search_init : Search := mkSearch INT64_MAX INT64_MAX (-1) None.

(** The sizes the loop body computes for one cached block. *)
Record Candidate : Type := mkCandidate {
  new_x : Z;
  new_y : Z;
  added_size : Z;
  wasted_size : Z
}.

Definition candidate (cached : MemBlock) (shp : texture.Texture2DShape)
    (requested_size : Z) : result Candidate :=
  let+ cached_size := as_int64 (x_ cached * y_ cached) in
  let nx := Z.max (x_ cached) (texture.width shp) in
  let ny := Z.max (y_ cached) (texture.height shp) in
  let+ expanded_size := as_int64 (nx * ny) in
  let+ added := as_int64 (expanded_size - cached_size) in
  let+ wasted := as_int64 (expanded_size - requested_size) in
  Ok (mkCandidate nx ny added wasted).

Definition better (st : Search) (c : Candidate) : bool :=
  (bool_decide (0 < min_added_size st)
     && bool_decide (added_size c < min_added_size st))
  || (bool_decide (min_added_size st = 0)
        && bool_decide (wasted_size c < min_wasted_size st)).

(** One iteration of [for (int64_t free_id : free_list_)]. *)
Definition search_step (h : Arena) (a : t) (proto_dtype : DataType)
    (shp : texture.Texture2DShape) (requested_size : Z) (st : Search)
    (free_id : Z) : result Search :=
  let cached := block_at a free_id in
  match token_ cached with
  | None => Err (Undefined "null token_ dereferenced")
  | Some p =>
      let+ tok := deref h p in
      match ttype tok with
      | None => Err (Undefined "null ttype dereferenced")
      | Some tty =>
          if negb (bool_decide (dtype tty = proto_dtype)) then Ok st
          else
            let+ c := candidate cached shp requested_size in
            if better st c
            then Ok (mkSearch (added_size c) (wasted_size c) free_id
                       (Some (new_x c, new_y c)))
            else Ok st
      end
  end.

Fixpoint search (h : Arena) (a : t) (proto_dtype : DataType)
    (shp : texture.Texture2DShape) (requested_size : Z) (ids : list Z)
    (st : Search) : result Search :=
  match ids with
  | [] => Ok st
  | free_id :: ids' =>
      let+ st' := search_step h a proto_dtype shp requested_size st free_id in
      search h a proto_dtype shp requested_size ids' st'
  end.

Definition erase (id : Z) (l : list Z) : list Z :=
  filter (λ i, i ≠ id) l.

Definition Request (h : Arena) (a : t) (prototype : tokptr)
  : result (option tokptr * Arena * t) :=
  let+ proto := deref h prototype in
  let+ shp := GetSize2D proto in
  let+ requested_size := as_int64 (texture.height shp * texture.width shp) in
  match ttype proto with
  | None => Err (ICHECK_failed "ttype != nullptr")
  | Some pty =>
      let+ st := search h a (dtype pty) shp requested_size (free_list_ a)
                   search_init in
      if bool_decide (min_added_size st ≤ requested_size) then
        match token_ (block_at a (best_storage_id st)) with
        | None => Err (Undefined "null token_ dereferenced")
        | Some p =>
            let+ tok := deref h p in
            let h' := <[p := set_ref_counter (ref_counter proto) tok]> h in
            match best_mem st with
            | None => Err (Undefined "uninitialised best_mem read")
            | Some (bx, by_) =>
                Ok (Some p, h',
                    mk (<[best_storage_id st := mkMemBlock (Some p) bx by_]>
                          (blocks_ a))
                       (erase (best_storage_id st) (free_list_ a)))
            end
        end
      else Ok (None, h, a)
  end.

Definition Alloc (h : Arena) (a : t) (prototype : tokptr) (storage_id : Z)
  : result (tokptr * Arena * t) :=
  let+ proto := deref h prototype in
  let+ shp := GetSize2D proto in
  Ok (prototype,
      <[prototype := set_storage_id storage_id proto]> h,
      mk (<[storage_id :=
              mkMemBlock (Some prototype) (texture.width shp)
                (texture.height shp)]> (blocks_ a))
         (free_list_ a)).

Definition set_insert (id : Z) (l : list Z) : list Z :=
  if bool_decide (id ∈ l) then l else id :: l.

Definition CheckForRelease (h : Arena) (a : t) (tok : tokptr) : result t :=
  let+ tk := deref h tok in
  if negb (bool_decide (0 ≤ storage_id tk)) then
    Err (ICHECK_failed "tok->storage_id >= 0")
  else if negb (bool_decide (0 ≤ ref_counter tk)) then
    Err (ICHECK_failed "tok->ref_counter >= 0")
  else if bool_decide (ref_counter tk = 0) then
    Ok (mk (blocks_ a) (set_insert (storage_id tk) (free_list_ a)))
  else Ok a.

End TokenAllocator2D.

(** ** TokenAllocator: the dispatcher

    [history] is not a member of the C++ class: it records, newest first, the
    calls made to the allocator, so that a property of "every request" or
    "every release check" can be stated.  No function below reads it. *)

Inductive Event : Type :=
| EvRequest (prototype : tokptr) (is2d : bool) (reused : option tokptr)
| EvAlloc (prototype : tokptr) (id : Z) (is2d : bool)
| EvPin (tok : tokptr)
| EvCheckForRelease (tok : tokptr) (is2d : bool) (seen_ref_counter : Z).

Module TokenAllocator.

Record t : Type := mk {
  storage_ids_ : Z;                     (* int64_t *)
  token_1d_ : TokenAllocator1D.t;
  token_2d_ : TokenAllocator2D.t;
  history : list Event
}.

Definition init : t :=
  mk 0 (TokenAllocator1D.mk [] []) (TokenAllocator2D.mk ∅ []) [].

Definition log (e : Event) (a : t) : t :=
  mk (storage_ids_ a) (token_1d_ a) (token_2d_ a) (e :: history a).

Definition Is2DStorage (tok : StorageToken) : bool :=
  Is2DStorage (storage_scope tok).

Definition Alloc (h : Arena) (a : t) (proto : tokptr)
  : result (tokptr * Arena * t) :=
  let+ p := deref h proto in
  let id := storage_ids_ a in
  let+ next := as_int64 (id + 1) in
  if Is2DStorage p then
    let+ r := TokenAllocator2D.Alloc h (token_2d_ a) proto id in
    Ok (r.1.1, r.1.2,
        mk next (token_1d_ a) r.2 (EvAlloc proto id true :: history a))
  else
    let+ r := TokenAllocator1D.Alloc h (token_1d_ a) proto id in
    Ok (r.1.1, r.1.2,
        mk next r.2 (token_2d_ a) (EvAlloc proto id false :: history a)).

Definition Request (h : Arena) (a : t) (proto : tokptr)
  : result (tokptr * Arena * t) :=
  let+ p := deref h proto in
  let+ r :=
    (if Is2DStorage p then
       let+ r := TokenAllocator2D.Request h (token_2d_ a) proto in
       Ok (r.1.1, r.1.2,
           mk (storage_ids_ a) (token_1d_ a) r.2
              (EvRequest proto true r.1.1 :: history a))
     else
       let+ r := TokenAllocator1D.Request h (token_1d_ a) proto in
       Ok (r.1.1, r.1.2,
           mk (storage_ids_ a) r.2 (token_2d_ a)
              (EvRequest proto false r.1.1 :: history a))) in
  match r.1.1 with
  | Some token => Ok (token, r.1.2, r.2)
  | None => Alloc r.1.2 r.2 proto
  end.

Definition CheckForRelease (h : Arena) (a : t) (tok : tokptr) : result t :=
  let+ tk := deref h tok in
  if Is2DStorage tk then
    let+ a2 := TokenAllocator2D.CheckForRelease h (token_2d_ a) tok in
    Ok (mk (storage_ids_ a) (token_1d_ a) a2
           (EvCheckForRelease tok true (ref_counter tk) :: history a))
  else
    let+ a1 := TokenAllocator1D.CheckForRelease h (token_1d_ a) tok in
    Ok (mk (storage_ids_ a) a1 (token_2d_ a)
           (EvCheckForRelease tok false (ref_counter tk) :: history a)).

End TokenAllocator.

(** ** Expressions (external to the planner)

    A node carries its identity [n]: two occurrences with the same identity
    are the same [ExprNode], shared.  Only what the two visitors look at is
    kept: the operator of a call, the branches of a conditional and the body
    of a nested function are never visited. *)

#[warnings="-register-all"]
Inductive Expr : Type :=
| Constant (n : node) (ty : Ty)
| Var (n : node)
| GlobalVar (n : node)
| Op (n : node)
| FunctionE (n : node)
| Call (n : node) (ty : Ty) (args : list Expr)
| Tuple (n : node) (fields : list Expr)
| TupleGetItem (n : node) (tuple : Expr) (index : Z)
| Let (n : node) (var : node) (value body : Expr)
| If (n : node).

Definition node_of (e : Expr) : node :=
  match e with
  | Constant n _ | Var n | GlobalVar n | Op n | FunctionE n | Call n _ _
  | Tuple n _ | TupleGetItem n _ _ | Let n _ _ _ | If n => n
  end.

Record Function : Type := mkFunction {
  params : list (node * Ty);      (* each parameter with its checked type *)
  body : Expr
}.

(** ** StorageAllocaBaseVisitor

    The members of the base class, [derived] standing for those of the
    subclass.  [assigned] is not a member: it lists, newest first, the keys
    that were written into [token_map_], and no function reads it. *)

Record Visitor (D : Type) : Type := mkVisitor {
  arena_ : Arena;
  token_map_ : gmap node (list tokptr);
  visit_counter_ : gset node;
  assigned : list node;
  derived : D
}.
Arguments mkVisitor {D}.
Arguments arena_ {D}.
Arguments token_map_ {D}.
Arguments visit_counter_ {D}.
Arguments assigned {D}.
Arguments derived {D}.

Section BaseVisitor.
Context {D : Type}.

Definition set_arena (h : Arena) (v : Visitor D) : Visitor D :=
  mkVisitor h (token_map_ v) (visit_counter_ v) (assigned v) (derived v).
Definition set_derived (d : D) (v : Visitor D) : Visitor D :=
  mkVisitor (arena_ v) (token_map_ v) (visit_counter_ v) (assigned v) d.

(** [token_map_[op] = tokens] *)
Definition set_tokens (op : node) (tokens : list tokptr)
  : M (Visitor D) unit :=
  modify (λ v, mkVisitor (arena_ v) (<[op := tokens]> (token_map_ v))
                 (visit_counter_ v) (op :: assigned v) (derived v)).

(** [token_map_.find(op)] with [ICHECK(it != token_map_.end())] *)
Definition find_tokens (op : node) : M (Visitor D) (list tokptr) :=
  λ v, match token_map_ v !! op with
       | Some toks => Ok (toks, v)
       | None => Err (ICHECK_failed "it != token_map_.end()")
       end.

(** [tok->ref_counter += d] *)
Definition add_ref (d : Z) (tok : tokptr) : M (Visitor D) unit :=
  λ v, let+ t := deref (arena_ v) tok in
       let+ rc := as_int (ref_counter t + d) in
       Ok (tt, set_arena (<[tok := set_ref_counter rc t]> (arena_ v)) v).

(** Modelled from the spec: [ExprVisitor::VisitExpr], the entry point of the
    expression visitor this class derives from, is not part of these
    sources; each pass is "memoised in a per-pass map", a node being
    visited once and recorded once its visit is over. *)
Definition memoised (n : node) (visit : M (Visitor D) unit)
  : M (Visitor D) unit :=
  λ v, if bool_decide (n ∈ visit_counter_ v) then Ok (tt, v)
       else match visit v with
            | Ok (_, v') =>
                Ok (tt, mkVisitor (arena_ v') (token_map_ v')
                          ({[n]} ∪ visit_counter_ v') (assigned v')
                          (derived v'))
            | Err e => Err e
            end.

(** Concatenation of what a list of [GetToken] calls return, in order. *)
Fixpoint collect (gets : list (M (Visitor D) (list tokptr)))
  : M (Visitor D) (list tokptr) :=
  match gets with
  | [] => ret []
  | g :: gets' =>
      let* toks := g in
      let* rest := collect gets' in
      ret (toks ++ rest)
  end.

(** The two virtual members: [CreateToken], and [VisitExpr_] on a call
    node, which receives [GetToken(arg)] for each argument. *)
Variable CreateToken : node → Ty → bool → M (Visitor D) unit.
Variable VisitCall :
  node → Ty → list (M (Visitor D) (list tokptr)) → M (Visitor D) unit.

Fixpoint VisitExpr (e : Expr) : M (Visitor D) unit :=
  memoised (node_of e)
    match e with
    | Constant n ty => CreateToken n ty false
    | Var _ | GlobalVar _ | Op _ | FunctionE _ => ret tt
    | Call n ty args =>
        VisitCall n ty
          (map (λ arg, VisitExpr arg ;; find_tokens (node_of arg)) args)
    | Tuple n fields =>
        let* toks :=
          collect
            (map (λ field, VisitExpr field ;; find_tokens (node_of field))
               fields) in
        set_tokens n toks
    | TupleGetItem n tuple index =>
        let* tok := (VisitExpr tuple ;; find_tokens (node_of tuple)) in
        ICHECK (bool_decide (to_size index < Z.of_nat (length tok)))
          "static_cast<size_t>(op->index) < tok.size()" ;;
        match tok !! Z.to_nat index with
        | Some t => set_tokens n [t]
        | None => fail (Undefined "vector index out of range")
        end
    | Let n var value body =>
        let* token := (VisitExpr value ;; find_tokens (node_of value)) in
        set_tokens var token ;;
        let* btoks := (VisitExpr body ;; find_tokens (node_of body)) in
        set_tokens n btoks
    | If _ => fail (LOG_FATAL "if is not supported.")
    end.

Definition GetToken (e : Expr) : M (Visitor D) (list tokptr) :=
  VisitExpr e ;; find_tokens (node_of e).

Definition Run (func : Function) : M (Visitor D) unit :=
  for_each (params func) (λ param, CreateToken param.1 param.2 false) ;;
  (* must always keep output alive. *)
  let* toks := GetToken (body func) in
  for_each toks (add_ref 1).

End BaseVisitor.

(** ** StorageAllocaInit: the liveness pass *)

Module StorageAllocaInit.

Record Fields : Type := mkFields {
  node_device_map_ : gmap node Z;                 (* Map<Expr, Integer> *)
  node_storage_map_ : gmap node (list string)     (* Map<Expr, Array<String>> *)
}.

Definition St : Type := Visitor Fields.

(** [arena_->make<StorageToken>()], then the assignments to its fields. *)
Definition make (t : StorageToken) : M St tokptr :=
  λ v, Ok (length (arena_ v), set_arena (arena_ v ++ [t]) v).

Definition make_token (ty : Ty) (device_type : Z)
    (storage_info : option (list string)) (i : nat) : M St tokptr :=
  match ty with
  | TensorType ttype =>
      match storage_info with
      | Some info =>
          match info !! i with
          | Some scope =>
              make (mkStorageToken 0 0 (Some ttype) device_type (-1) scope)
          | None => fail (ICHECK_failed "Array index out of bounds")
          end
      | None =>
          make (mkStorageToken 0 0 (Some ttype) device_type (-1) "global")
      end
  | _ => fail (ICHECK_failed "ttype")
  end.

(** [for (size_t i = 0; i < tuple_type->fields.size(); i++)] from [i] on. *)
Fixpoint make_tokens (fields : list Ty) (device_type : Z)
    (storage_info : option (list string)) (i : nat) : M St (list tokptr) :=
  match fields with
  | [] => ret []
  | ty :: fields' =>
      let* token := make_token ty device_type storage_info i in
      let* tokens := make_tokens fields' device_type storage_info (S i) in
      ret (token :: tokens)
  end.

Definition CreateToken (op : node) (checked_type : Ty) (can_realloc : bool)
  : M St unit :=
  let* v := get in
  ICHECK (negb (bool_decide (is_Some (token_map_ v !! op))))
    "!token_map_.count(op)" ;;
  let device_type :=
    match node_device_map_ (derived v) !! op with
    | Some value => trunc_int value
    | None => 0
    end in
  let storage_info := node_storage_map_ (derived v) !! op in
  let* tokens :=
    match checked_type with
    | TupleType fields =>
        match storage_info with
        | Some info =>
            ICHECK (bool_decide (length fields = length info))
              "tuple_type->fields.size() == storage_info.value().size()"
        | None => ret tt
        end ;;
        make_tokens fields device_type storage_info O
    | _ =>
        let* token := make_token checked_type device_type storage_info O in
        ret [token]
    end in
  set_tokens op tokens.

Definition VisitCall (op : node) (checked_type : Ty)
    (args : list (M St (list tokptr))) : M St unit :=
  (* create token for the call node. *)
  CreateToken op checked_type true ;;
  (* for each input, visit argument token. *)
  for_each args (λ get_arg,
    let* toks := get_arg in
    for_each toks (add_ref 1)).

Definition init (dev_map : gmap node Z) (storage_map : gmap node (list string))
  : St :=
  mkVisitor [] ∅ ∅ [] (mkFields dev_map storage_map).

(** The two maps are what [CollectDeviceInfo] and [CollectStorageInfo], both
    external, return. *)
Definition GetInitTokenMap (func : Function) (dev_map : gmap node Z)
    (storage_map : gmap node (list string)) : result St :=
  let+ r := Run CreateToken VisitCall func (init dev_map storage_map) in
  Ok r.2.

End StorageAllocaInit.

(** ** StorageAllocator: the assignment pass *)

Module StorageAllocator.

Record Fields : Type := mkFields {
  prototype_ : gmap node (list tokptr);
  allocator_ : TokenAllocator.t
}.

Definition St : Type := Visitor Fields.

Definition set_allocator (a : TokenAllocator.t) (v : St) : St :=
  set_derived (mkFields (prototype_ (derived v)) a) v.

(** A call of a member of [allocator_] on the arena. *)
Definition allocator_Request (tok : tokptr) : M St tokptr :=
  λ v, let+ r := TokenAllocator.Request (arena_ v)
                   (allocator_ (derived v)) tok in
       Ok (r.1.1, set_allocator r.2 (set_arena r.1.2 v)).
Definition allocator_Alloc (tok : tokptr) : M St tokptr :=
  λ v, let+ r := TokenAllocator.Alloc (arena_ v)
                   (allocator_ (derived v)) tok in
       Ok (r.1.1, set_allocator r.2 (set_arena r.1.2 v)).
Definition allocator_CheckForRelease (tok : tokptr) : M St unit :=
  λ v, let+ a := TokenAllocator.CheckForRelease (arena_ v)
                   (allocator_ (derived v)) tok in
       Ok (tt, set_allocator a v).
Definition note (e : Event) : M St unit :=
  modify (λ v, set_allocator (TokenAllocator.log e (allocator_ (derived v))) v).

(** The body of [for (StorageToken* tok : it->second)]. *)
Definition create_one (can_realloc : bool) (tok : tokptr) : M St tokptr :=
  let* v := get in
  let* t := lift (deref (arena_ v) tok) in
  if can_realloc && bool_decide (storage_scope t = "global") then
    allocator_Request tok
  else
    (* Allocate a new token, *)
    let* allocated_tok := allocator_Alloc tok in
    let* v1 := get in
    let* t1 := lift (deref (arena_ v1) tok) in
    let* a1 := lift (deref (arena_ v1) allocated_tok) in
    modify (set_arena
              (<[allocated_tok := set_device_type (device_type t1) a1]>
                 (arena_ v1))) ;;
    (* ensure it never get de-allocated. *)
    add_ref 1 allocated_tok ;;
    note (EvPin allocated_tok) ;;
    ret allocated_tok.

Fixpoint create_all (can_realloc : bool) (protos : list tokptr)
  : M St (list tokptr) :=
  match protos with
  | [] => ret []
  | tok :: protos' =>
      let* t := create_one can_realloc tok in
      let* ts := create_all can_realloc protos' in
      ret (t :: ts)
  end.

Definition CreateToken (op : node) (checked_type : Ty) (can_realloc : bool)
  : M St unit :=
  let* v := get in
  ICHECK (negb (bool_decide (is_Some (token_map_ v !! op))))
    "!token_map_.count(op)" ;;
  match prototype_ (derived v) !! op with
  | None => fail (ICHECK_failed "it != prototype_.end()")
  | Some protos =>
      let* tokens := create_all can_realloc protos in
      set_tokens op tokens
  end.

Definition VisitCall (op : node) (checked_type : Ty)
    (get_args : list (M St (list tokptr))) : M St unit :=
  (* for each input, visit argument token. *)
  let* args := collect get_args in
  (* create token for the call node. *)
  CreateToken op checked_type true ;;
  (* check if there is orphaned output that can be released immediately. *)
  let* toks := find_tokens op in
  for_each toks allocator_CheckForRelease ;;
  for_each args (λ tok,
    add_ref (-1) tok ;;
    allocator_CheckForRelease tok).

(** The counters and the three arrays of one entry of [token_map_]. *)
Record Counts : Type := mkCounts {
  num_annotated_nodes : Z;      (* int *)
  num_nodes : Z                 (* int *)
}.

Definition ADT : Type := (list Z * list Z * list string)%type.

Fixpoint entry_loop (h : Arena) (toks : list tokptr) (c : Counts)
  : result (ADT * Counts) :=
  match toks with
  | [] => Ok (([], [], []), c)
  | tok :: toks' =>
      let+ t := deref h tok in
      let+ na := (if bool_decide (device_type t ≠ 0)
                  then as_int (num_annotated_nodes c + 1)
                  else Ok (num_annotated_nodes c)) in
      let+ nn := as_int (num_nodes c + 1) in
      let+ r := entry_loop h toks' (mkCounts na nn) in
      Ok ((storage_id t :: r.1.1.1, device_type t :: r.1.1.2,
           storage_scope t :: r.1.2), r.2)
  end.

(** [for (const auto& kv : token_map_)], over the entries in the order the
    iteration meets them. *)
Fixpoint smap_loop (h : Arena) (entries : list (node * list tokptr))
    (smap : gmap node ADT) (c : Counts)
  : result (gmap node ADT * Counts) :=
  match entries with
  | [] => Ok (smap, c)
  | kv :: entries' =>
      let+ r := entry_loop h kv.2 c in
      smap_loop h entries' (<[kv.1 := r.1]> smap) r.2
  end.

Definition show_int (z : Z) : string :=
  NilZero.string_of_int (Z.to_int z).

Definition mixed_annotation_message (c : Counts) : string :=
  (show_int (num_annotated_nodes c) ++ " out of " ++ show_int (num_nodes c)
   ++ "expressions are assigned with virtual device types. Either all "
   ++ "or none of the expressions are expected to be annotated.")%string.

Definition serialize (v : St) : result (gmap node ADT) :=
  let+ r := smap_loop (arena_ v) (map_to_list (token_map_ v)) ∅
              (mkCounts 0 0) in
  (* Either all or none of the nodes should be annotated. *)
  if bool_decide (num_annotated_nodes r.2 ≠ 0)
     && bool_decide (num_annotated_nodes r.2 ≠ num_nodes r.2)
  then Err (LOG_FATAL (mixed_annotation_message r.2))
  else Ok r.1.

Definition init (arena : Arena) (prototype : gmap node (list tokptr)) : St :=
  mkVisitor arena ∅ ∅ [] (mkFields prototype TokenAllocator.init).

(** The assignment pass alone: [this->Run(func)] on the prototypes. *)
Definition Assign (func : Function) (proto : StorageAllocaInit.St)
  : result St :=
  let+ r := Run CreateToken VisitCall func
              (init (arena_ proto) (token_map_ proto)) in
  Ok r.2.

Definition Plan (func : Function) (dev_map : gmap node Z)
    (storage_map : gmap node (list string)) : result (gmap node ADT) :=
  let+ proto := StorageAllocaInit.GetInitTokenMap func dev_map storage_map in
  let+ v := Assign func proto in
  serialize v.

End StorageAllocator.

Definition GraphPlanMemory := StorageAllocator.Plan.

(** * Properties *)

(** ** Reasoning about runs that succeed *)

Lemma rbind_Ok {A B} (r : result A) (k : A → result B) (b : B) :
  rbind r k = Ok b → ∃ a, r = Ok a ∧ k a = Ok b.
Proof. destruct r as [a|e]; simpl; [eauto | discriminate]. Qed.

Lemma bind_Ok {S A B} (m : M S A) (k : A → M S B) s b s' :
  bind m k s = Ok (b, s') → ∃ a s1, m s = Ok (a, s1) ∧ k a s1 = Ok (b, s').
Proof.
  unfold bind. destruct (m s) as [[a s1]|e]; [eauto | discriminate].
Qed.

Lemma as_int_Ok z z' : as_int z = Ok z' → z' = z ∧ INT_MIN ≤ z ≤ INT_MAX.
Proof.
  unfold as_int. case_bool_decide; [|discriminate]. by intros [= <-].
Qed.

Lemma as_int64_Ok z z' :
  as_int64 z = Ok z' → z' = z ∧ INT64_MIN ≤ z ≤ INT64_MAX.
Proof.
  unfold as_int64. case_bool_decide; [|discriminate]. by intros [= <-].
Qed.

Lemma deref_Ok h p t : deref h p = Ok t ↔ h !! p = Some t.
Proof.
  unfold deref. destruct (h !! p); split; intros; simplify_eq; done.
Qed.

Lemma lift_deref_Ok {S} h p (s : S) t s' :
  lift (deref h p) s = Ok (t, s') → h !! p = Some t ∧ s' = s.
Proof.
  unfold lift. destruct (deref h p) as [t0|] eqn:Hd; [|done].
  intros [= <- <-]. by apply deref_Ok in Hd.
Qed.

Lemma ICHECK_Ok {S} (b : bool) what (s : S) u s' :
  ICHECK b what s = Ok (u, s') → b = true ∧ s' = s.
Proof.
  unfold ICHECK. destruct b; [by intros [= _ <-] | discriminate].
Qed.

(** Splits a hypothesis saying that a sequence of steps succeeded into one
    hypothesis per step. *)
Ltac inv_ok_step :=
  match goal with
  | H : Err _ = Ok _ |- _ => discriminate H
  | H : fail _ _ = Ok _ |- _ => discriminate H
  | H : Ok _ = Ok _ |- _ => injection H as H; subst
  | H : (_, _) = (_, _) |- _ => injection H as H; subst
  | H : rbind _ _ = Ok _ |- _ =>
      let a := fresh "a" in let Ha := fresh "Ha" in
      apply rbind_Ok in H as (a & Ha & H); simpl in H
  | H : bind _ _ _ = Ok _ |- _ =>
      let a := fresh "a" in let s := fresh "s" in let Ha := fresh "Ha" in
      apply bind_Ok in H as (a & s & Ha & H); simpl in H
  | H : ret _ _ = Ok _ |- _ => unfold ret in H
  | H : get _ = Ok _ |- _ => unfold get in H
  | H : modify _ _ = Ok _ |- _ => unfold modify in H
  | H : as_int _ = Ok _ |- _ => apply as_int_Ok in H as [-> H]
  | H : as_int64 _ = Ok _ |- _ => apply as_int64_Ok in H as [-> H]
  | H : ICHECK _ _ _ = Ok _ |- _ => apply ICHECK_Ok in H as [H ->]
  | H : deref _ _ = Ok _ |- _ => apply deref_Ok in H
  end.
Ltac inv_ok := repeat inv_ok_step.

(** Linear arithmetic with the bound of [size_t] written out. *)
Ltac size_lia :=
  change (2 ^ 64) with 18446744073709551616 in *; lia.

(** ** Texture flattening (runtime/texture.h) *)

Section Texture.
Import texture.

Lemma contains_global : IsTextureStorage "global" = false.
Proof. reflexivity. Qed.

Lemma texture_not_global scope :
  IsTextureStorage scope = true → scope ≠ "global".
Proof. intros H ->. discriminate H. Qed.

(** The three conventions the separator knows are texture scopes. *)
Lemma known_conventions_are_textures :
  IsTextureStorage "texture" = true
  ∧ IsTextureStorage "texture:weight" = true
  ∧ IsTextureStorage "texture:nhwc" = true.
Proof. done. Qed.

Lemma separator_texture r :
  2 ≤ r < 2 ^ 64 → DefaultTextureLayoutSeparator r "texture" = Ok (r - 2).
Proof.
  intros Hr. unfold DefaultTextureLayoutSeparator. simpl.
  unfold wrap_size. rewrite Z.mod_small by lia. done.
Qed.

Lemma separator_unknown r scope :
  scope ≠ "texture" → scope ≠ "texture:weight" → scope ≠ "texture:nhwc" →
  DefaultTextureLayoutSeparator r scope
  = Err (LOG_FATAL "Encountered unknown texture lowering convention").
Proof.
  intros H1 H2 H3. unfold DefaultTextureLayoutSeparator.
  repeat case_bool_decide; done.
Qed.

End Texture.

(** ** The size a texture token asks for *)

Section GetSize2D.
Import texture TokenAllocator2D.

(** A token of the given constant shape, element type and scope. *)
Definition texture_token (dims : list Z) (dt : DataType) (scope : string)
  : StorageToken :=
  mkStorageToken 0 0 (Some (mkTensorType (map IntImm dims) dt)) 0 (-1) scope.

Definition float32 : DataType := mkDataType 2 32 1.
Definition float16 : DataType := mkDataType 2 16 1.

(** C6, as stated, fails: under scope "texture" the shape (1,64,64,4) is
    flattened with separator 2 to width 64, not 64*4 = 256, and the shape
    (1,32,128,4) to width 128, not 512: the last dimension is the channel
    and is not multiplied into the width. *)
Lemma flattening_width_is_not_times_channel :
  (∃ s, GetSize2D (texture_token [1; 64; 64; 4] float32 "texture") = Ok s
        ∧ width s ≠ 64 * 4)
  ∧ (∃ s, GetSize2D (texture_token [1; 32; 128; 4] float32 "texture") = Ok s
          ∧ width s ≠ 128 * 4).
Proof. split; eexists; (split; [reflexivity | done]). Qed.

(** C6, amended: for a tensor of shape (1,64,64,4) under scope "texture" the
    axis separator is 2 and the request is width = 64, height = 1*64 = 64,
    channel = 4; for shape (1,32,128,4) it is width = 128, height = 1*32 =
    32, channel = 4. *)
Theorem flattening_of_the_two_texture_shapes :
  ∀ dt,
    DefaultTextureLayoutSeparator 4 "texture" = Ok 2
    ∧ GetSize2D (texture_token [1; 64; 64; 4] dt "texture")
      = Ok (mkTexture2DShape 64 (1 * 64) 4)
    ∧ GetSize2D (texture_token [1; 32; 128; 4] dt "texture")
      = Ok (mkTexture2DShape 128 (1 * 32) 4).
Proof. intros dt. repeat split. Qed.

(** C7, as stated, fails: "texture:custom" contains "texture" and is neither
    "texture:weight" nor "texture:nhwc", yet for a rank 4 tensor the
    separator is not 4 - 2: the call is a fatal error. *)
Lemma custom_texture_scope_has_no_separator :
  IsTextureStorage "texture:custom" = true
  ∧ "texture:custom" ≠ "texture:weight"
  ∧ "texture:custom" ≠ "texture:nhwc"
  ∧ DefaultTextureLayoutSeparator 4 "texture" = Ok (4 - 2)
  ∧ DefaultTextureLayoutSeparator 4 "texture:custom" ≠ Ok (4 - 2).
Proof. repeat split; done. Qed.

(** C7, amended: a scope that contains "texture" and is none of "texture",
    "texture:weight", "texture:nhwc" has no separator: for every rank
    [DefaultTextureLayoutSeparator] stops with the fatal error "Encountered
    unknown texture lowering convention", and so does the 2d size of a token
    of that scope.  The separator r - 2 belongs to the exact scope "texture"
    alone (r at least 2), 1 to "texture:weight" and 2 to "texture:nhwc". *)
Theorem separator_of_texture_scopes (r : Z) (scope : string) :
  IsTextureStorage scope = true →
  scope ≠ "texture" → scope ≠ "texture:weight" → scope ≠ "texture:nhwc" →
  DefaultTextureLayoutSeparator r scope
  = Err (LOG_FATAL "Encountered unknown texture lowering convention")
  ∧ (∀ dims dt,
       GetSize2D (texture_token dims dt scope)
       = Err (LOG_FATAL "Encountered unknown texture lowering convention"))
  ∧ (2 ≤ r < 2 ^ 64 → DefaultTextureLayoutSeparator r "texture" = Ok (r - 2))
  ∧ DefaultTextureLayoutSeparator r "texture:weight" = Ok 1
  ∧ DefaultTextureLayoutSeparator r "texture:nhwc" = Ok 2.
Proof.
  intros _ H1 H2 H3. split_and!.
  - by apply separator_unknown.
  - intros dims dt. unfold GetSize2D. simpl.
    by rewrite separator_unknown.
  - apply separator_texture.
  - done.
  - done.
Qed.

Lemma separator_of_texture_scopes_witness :
  DefaultTextureLayoutSeparator 4 "texture:custom"
  = Err (LOG_FATAL "Encountered unknown texture lowering convention")
  ∧ DefaultTextureLayoutSeparator 4 "texture" = Ok 2.
Proof.
  pose proof (separator_of_texture_scopes 4 "texture:custom") as H.
  destruct H as (H1 & _ & H3 & _); [reflexivity | done | done | done |].
  split; [exact H1 | apply H3; lia].
Defined.

End GetSize2D.

(** ** The 2d reuse search *)

Section Request2D.
Import texture TokenAllocator2D.

Section Search.
Variables (h : Arena) (a : t) (pdt : DataType) (shp : Texture2DShape)
  (requested : Z).

(** What the loop variables hold at any point of the search over [l]:
    nothing yet, or the sizes of one block of [l] of the requested
    element type. *)
Definition chosen (l : list Z) (st : Search) : Prop :=
  best_mem st = None
  ∨ ∃ p tok tty c,
      best_storage_id st ∈ l
      ∧ token_ (block_at a (best_storage_id st)) = Some p
      ∧ h !! p = Some tok ∧ ttype tok = Some tty ∧ dtype tty = pdt
      ∧ candidate (block_at a (best_storage_id st)) shp requested = Ok c
      ∧ min_added_size st = added_size c
      ∧ min_wasted_size st = wasted_size c
      ∧ best_mem st = Some (new_x c, new_y c).

Lemma search_step_chosen l st id st' :
  id ∈ l → chosen l st →
  search_step h a pdt shp requested st id = Ok st' → chosen l st'.
Proof.
  intros Hid Hst Hstep. unfold search_step in Hstep.
  destruct (token_ (block_at a id)) as [p|] eqn:Hp; [|done].
  apply rbind_Ok in Hstep as (tok & Htok%deref_Ok & Hstep).
  destruct (ttype tok) as [tty|] eqn:Htty; [|done].
  case_bool_decide as Hdt; simpl in Hstep; [|by simplify_eq].
  apply rbind_Ok in Hstep as (c & Hc & Hstep).
  destruct (better st c); simplify_eq; [|done].
  right. exists p, tok, tty, c. done.
Qed.

Lemma search_chosen l ids st st' :
  (∀ id, id ∈ ids → id ∈ l) → chosen l st →
  search h a pdt shp requested ids st = Ok st' → chosen l st'.
Proof.
  revert st. induction ids as [|id ids IH]; intros st Hsub Hst Hs.
  - simpl in Hs. by simplify_eq.
  - simpl in Hs. apply rbind_Ok in Hs as (st1 & Hstep & Hs).
    eapply IH; [| |exact Hs].
    + intros i Hi. apply Hsub. by right.
    + eapply search_step_chosen; [|done..]. apply Hsub. by left.
Qed.

End Search.

Lemma candidate_Ok blk shp requested c :
  candidate blk shp requested = Ok c →
  new_x c = Z.max (x_ blk) (width shp)
  ∧ new_y c = Z.max (y_ blk) (height shp)
  ∧ added_size c = new_x c * new_y c - x_ blk * y_ blk
  ∧ wasted_size c = new_x c * new_y c - requested.
Proof. unfold candidate. intros H. inv_ok. done. Qed.

(** C3: whenever the 2d [Request] returns a token rather than null, the
    token is that of a free block whose tensor has the element type of the
    requester, and the area added to the block, max(x,w) * max(y,h) - x * y,
    is at most the requested area w * h; the block is grown to
    (max(x,w), max(y,h)). *)
Theorem Request2D_reuse_bound h a prototype p h' a' :
  Request h a prototype = Ok (Some p, h', a') →
  ∃ proto pty shp id blk tok tty,
    h !! prototype = Some proto ∧ ttype proto = Some pty
    ∧ GetSize2D proto = Ok shp
    ∧ id ∈ free_list_ a ∧ blocks_ a !! id = Some blk ∧ token_ blk = Some p
    ∧ h !! p = Some tok ∧ ttype tok = Some tty
    ∧ dtype tty = dtype pty
    ∧ Z.max (x_ blk) (width shp) * Z.max (y_ blk) (height shp)
        - x_ blk * y_ blk ≤ width shp * height shp
    ∧ blocks_ a' !! id
      = Some (mkMemBlock (Some p) (Z.max (x_ blk) (width shp))
                (Z.max (y_ blk) (height shp))).
Proof.
  unfold Request. intros H.
  apply rbind_Ok in H as (proto & Hproto%deref_Ok & H).
  apply rbind_Ok in H as (shp & Hshp & H).
  apply rbind_Ok in H as (req & Hreq & H).
  apply as_int64_Ok in Hreq as [-> _].
  destruct (ttype proto) as [pty|] eqn:Hpty; [|done].
  apply rbind_Ok in H as (st & Hsearch & H).
  case_bool_decide as Hle; [|done].
  destruct (token_ (block_at a (best_storage_id st))) as [q|] eqn:Hq; [|done].
  apply rbind_Ok in H as (tok & Htok%deref_Ok & H).
  destruct (best_mem st) as [[bx by_]|] eqn:Hbest; [|done].
  simplify_eq.
  eapply search_chosen in Hsearch as [Hnone|Hsome];
    [congruence | | done | by left].
  destruct Hsome as (p' & tok' & tty & c & Hin & Hp' & Htok' & Htty & Hdt
                     & Hc & Hadd & Hwaste & Hmem).
  unfold block_at in Hq, Hp', Hc.
  destruct (blocks_ a !! best_storage_id st) as [blk|] eqn:Hblk;
    simpl in *; [|done].
  apply candidate_Ok in Hc as (Hx & Hy & Hadded & _).
  exists proto, pty, shp, (best_storage_id st), blk, tok, tty.
  simplify_eq. split_and!; try done.
  - rewrite <- Hx, <- Hy, <- Hadded, <- Hadd. lia.
  - rewrite lookup_insert_eq. congruence.
Qed.

(** The texture scenario of the planner: a free 64 x 64 block and a
    request for 128 x 32 of the same element type. *)
Definition texture_arena : Arena :=
  [ set_storage_id 0 (texture_token [1; 64; 64; 4] float32 "texture");
    set_ref_counter 1 (texture_token [1; 32; 128; 4] float32 "texture") ].
Definition texture_pool : t :=
  mk {[ 0 := mkMemBlock (Some 0%nat) 64 64 ]} [0].

Lemma Request2D_reuse_bound_witness :
  ∃ h' a',
    Request texture_arena texture_pool 1%nat = Ok (Some 0%nat, h', a')
    ∧ blocks_ a' !! 0 = Some (mkMemBlock (Some 0%nat) 128 64)
    ∧ 128 * 64 - 64 * 64 ≤ 128 * 32.
Proof.
  eexists _, _. split; [vm_compute; reflexivity|].
  destruct (Request2D_reuse_bound texture_arena texture_pool 1%nat 0%nat
              _ _ eq_refl)
    as (proto & pty & shp & id & blk & tok & tty & Hproto & Hpty & Hshp
        & Hid & Hblk & Hp & Htok & Htty & Hdt & Hle & Hnew).
  apply list_elem_of_singleton in Hid as ->.
  vm_compute in Hproto. vm_compute in Hblk. simplify_eq.
  vm_compute in Hshp. simplify_eq.
  split; [exact Hnew | exact Hle].
Defined.

End Request2D.

(** ** The 2d search can leave a block that needs no expansion *)

Section Request2DExpands.
Import texture TokenAllocator2D.

(** Two free blocks of the requested element type, met in the order 0, 1:
    block 0 is 10 x 10 and block 1 is 1 x 1; the request is 2 x 2. *)
Definition two_free_blocks_arena : Arena :=
  [ set_storage_id 0 (texture_token [10; 10; 4] float32 "texture:weight");
    set_storage_id 1 (texture_token [1; 1; 4] float32 "texture:weight");
    texture_token [2; 2; 4] float32 "texture:weight" ].
Definition two_free_blocks : t :=
  mk {[ 0 := mkMemBlock (Some 0%nat) 10 10;
        1 := mkMemBlock (Some 1%nat) 1 1 ]} [0; 1].

(** C4 on that input: block 0 holds the request without expansion (added
    size 0, wasted 96) and block 1 needs 3 more (wasted 0); the search
    leaves block 0 for block 1, because the second test of the loop compares
    the wasted sizes without asking that the candidate needs no expansion,
    and [Request] returns the token of block 1, grown to 2 x 2. *)
Theorem Request2D_prefers_expansion :
  let shp := mkTexture2DShape 2 2 4 in
  GetSize2D (texture_token [2; 2; 4] float32 "texture:weight") = Ok shp
  ∧ (∃ c, candidate (block_at two_free_blocks 0) shp 4 = Ok c
          ∧ added_size c = 0 ∧ wasted_size c = 96)
  ∧ (∃ c, candidate (block_at two_free_blocks 1) shp 4 = Ok c
          ∧ added_size c = 3 ∧ wasted_size c = 0)
  ∧ (∃ h' a',
       Request two_free_blocks_arena two_free_blocks 2%nat
       = Ok (Some 1%nat, h', a')
       ∧ blocks_ a' !! 1 = Some (mkMemBlock (Some 1%nat) 2 2)
       ∧ free_list_ a' = [0]).
Proof.
  split_and!.
  - reflexivity.
  - eexists. split; [reflexivity|done].
  - eexists. split; [reflexivity|done].
  - eexists _, _. split; [vm_compute; reflexivity|]. done.
Qed.

(** Met in the other order, the same two blocks give block 0. *)
Lemma Request2D_other_order :
  ∃ h' a',
    Request two_free_blocks_arena
      (mk (blocks_ two_free_blocks) [1; 0]) 2%nat
    = Ok (Some 0%nat, h', a').
Proof. eexists _, _. vm_compute. reflexivity. Qed.

End Request2DExpands.

(** ** The 1d free list and its reuse search *)

Section Request1D.
Import TokenAllocator1D.

(** The entries of a multimap are met by increasing key, and a key is a
    [size_t]. *)
Definition sorted (l : list (Z * tokptr)) : Prop :=
  ∀ i j e1 e2, (i ≤ j)%nat → l !! i = Some e1 → l !! j = Some e2 → e1.1 ≤ e2.1.
Definition size_keys (l : list (Z * tokptr)) : Prop :=
  ∀ i e, l !! i = Some e → 0 ≤ e.1 < 2 ^ 64.

Lemma sorted_tail e l : sorted (e :: l) → sorted l.
Proof.
  intros Hs i j e1 e2 Hij H1 H2. apply (Hs (S i) (S j)); [lia|done..].
Qed.

Lemma lower_bound_le l k : (lower_bound l k ≤ length l)%nat.
Proof. induction l; simpl; [lia|]. case_bool_decide; lia. Qed.

Lemma upper_bound_le l k : (upper_bound l k ≤ length l)%nat.
Proof. induction l; simpl; [lia|]. case_bool_decide; lia. Qed.

Lemma lower_bound_before l k i e :
  l !! i = Some e → (i < lower_bound l k)%nat → e.1 < k.
Proof.
  revert i. induction l as [|e0 l IH]; intros i Hi Hlt; [done|].
  simpl in Hlt. case_bool_decide; [lia|].
  destruct i as [|i]; simpl in Hi.
  - simplify_eq. lia.
  - eapply IH; [done|lia].
Qed.

Lemma lower_bound_after l k i e :
  sorted l → l !! i = Some e → (lower_bound l k ≤ i)%nat → k ≤ e.1.
Proof.
  revert i. induction l as [|e0 l IH]; intros i Hs Hi Hle; [done|].
  simpl in Hle. case_bool_decide as Hk.
  - pose proof (Hs O i e0 e ltac:(lia) eq_refl Hi). lia.
  - destruct i as [|i]; [lia|]. simpl in Hi.
    eapply IH; [by eapply sorted_tail|done|lia].
Qed.

Lemma upper_bound_before l k i e :
  l !! i = Some e → (i < upper_bound l k)%nat → e.1 ≤ k.
Proof.
  revert i. induction l as [|e0 l IH]; intros i Hi Hlt; [done|].
  simpl in Hlt. case_bool_decide; [lia|].
  destruct i as [|i]; simpl in Hi.
  - simplify_eq. lia.
  - eapply IH; [done|lia].
Qed.

Lemma upper_bound_after l k i e :
  sorted l → l !! i = Some e → (upper_bound l k ≤ i)%nat → k < e.1.
Proof.
  revert i. induction l as [|e0 l IH]; intros i Hs Hi Hle; [done|].
  simpl in Hle. case_bool_decide as Hk.
  - pose proof (Hs O i e0 e ltac:(lia) eq_refl Hi). lia.
  - destruct i as [|i]; [lia|]. simpl in Hi.
    eapply IH; [by eapply sorted_tail|done|lia].
Qed.

Lemma lower_bound_mono l k1 k2 :
  k1 ≤ k2 → (lower_bound l k1 ≤ lower_bound l k2)%nat.
Proof.
  intros Hk. induction l as [|e l IH]; simpl; [lia|].
  repeat case_bool_decide; lia.
Qed.

Lemma lower_upper_bound l k1 k2 :
  k1 ≤ k2 → (lower_bound l k1 ≤ upper_bound l k2)%nat.
Proof.
  intros Hk. induction l as [|e l IH]; simpl; [lia|].
  repeat case_bool_decide; lia.
Qed.

(** The multimap operations keep the entries sorted. *)
Lemma sorted_delete l i : sorted l → sorted (delete i l).
Proof.
  intros Hs j1 j2 e1 e2 Hj H1 H2.
  rewrite list_lookup_delete in H1, H2.
  repeat case_decide; refine (Hs _ _ e1 e2 _ H1 H2); lia.
Qed.

Lemma sorted_insert l e : sorted l → sorted (insert e l).
Proof.
  intros Hs. unfold insert. set (u := upper_bound l e.1).
  pose proof (upper_bound_le l e.1) as Hu. fold u in Hu.
  assert (Hlen : length (take u l) = u) by (rewrite length_take; lia).
  intros i j e1 e2 Hij H1 H2.
  assert (Hcase : ∀ n x, (take u l ++ e :: drop u l) !! n = Some x →
            ((n < u)%nat ∧ l !! n = Some x) ∨ (n = u ∧ x = e)
            ∨ ((u < n)%nat ∧ l !! (n - 1)%nat = Some x)).
  { intros n x Hn. destruct (decide (n < u)%nat) as [Hlt|Hge].
    - left. split; [done|]. rewrite lookup_app_l in Hn by lia.
      by rewrite lookup_take_lt in Hn by lia.
    - rewrite lookup_app_r in Hn by lia. rewrite Hlen in Hn.
      destruct (n - u)%nat as [|m] eqn:Hm; simpl in Hn.
      + right; left. split; [lia|by simplify_eq].
      + right; right. split; [lia|]. rewrite lookup_drop in Hn.
        by replace (n - 1)%nat with (u + m)%nat by lia. }
  apply Hcase in H1 as [[Hi H1]|[[-> ->]|[Hi H1]]];
    apply Hcase in H2 as [[Hj H2]|[[-> ->]|[Hj H2]]]; try lia.
  - eapply Hs; [|done..]. lia.
  - eapply upper_bound_before; [done|]. by fold u.
  - eapply Hs; [|done..]. lia.
  - pose proof (upper_bound_after l e.1 _ _ Hs H2). fold u in H. lia.
  - eapply Hs; [|done..]. lia.
Qed.

Lemma scan_up_Some h dev end_ free it0 it p :
  scan_up h dev end_ (drop it0 free) it0 = Ok (Some (it, p)) →
  (it0 ≤ it)%nat ∧ ((it0 ≤ end_)%nat → (it < end_)%nat)
  ∧ ∃ k t, free !! it = Some (k, p) ∧ h !! p = Some t ∧ device_type t = dev.
Proof.
  remember (drop it0 free) as l eqn:Hl. revert it0 Hl.
  induction l as [|e l IH]; intros it0 Hl H; simpl in H.
  - case_bool_decide; done.
  - case_bool_decide as Hend; [done|].
    apply rbind_Ok in H as (t & Ht%deref_Ok & H).
    assert (Hit0 : free !! it0 = Some e).
    { rewrite <- (Nat.add_0_r it0), <- lookup_drop, <- Hl. done. }
    case_bool_decide as Hdev.
    + apply IH in H as (Hle & Hlt & Hex).
      * split; [lia|]. split; [intros; apply Hlt; lia|done].
      * rewrite (drop_S free e it0 Hit0) in Hl. by simplify_eq.
    + simplify_eq. split; [lia|]. split; [lia|].
      exists e.1, t. by destruct e.
Qed.

Lemma scan_down_Some h dev free begin it0 it p :
  scan_down h dev free begin it0 = Ok (Some (it, p)) →
  (it < it0)%nat ∧ ((begin ≤ it0)%nat → (begin ≤ it)%nat)
  ∧ ∃ k t, free !! it = Some (k, p) ∧ h !! p = Some t ∧ device_type t = dev.
Proof.
  induction it0 as [|it0 IH]; intros H; simpl in H.
  - case_bool_decide; done.
  - case_bool_decide as Hb; [done|].
    destruct (free !! it0) as [e|] eqn:He; [|done].
    apply rbind_Ok in H as (t & Ht%deref_Ok & H).
    case_bool_decide as Hdev.
    + apply IH in H as (Hlt & Hge & Hex).
      split; [lia|]. split; [intros; apply Hge; lia|done].
    + simplify_eq. split; [lia|]. split; [lia|].
      exists e.1, t. by destruct e.
Qed.

Lemma size_loop_range dims s size :
  0 ≤ s < 2 ^ 64 → size_loop dims s = Ok size → 0 ≤ size < 2 ^ 64.
Proof.
  revert s. induction dims as [|[v|] dims IH]; intros s Hs H; simpl in H.
  - by simplify_eq.
  - case_bool_decide; [|done]. eapply IH; [|done].
    unfold wrap_size. apply Z.mod_pos_bound. lia.
  - done.
Qed.

Lemma GetMemorySize_range t size :
  GetMemorySize t = Ok size → 0 ≤ size < 2 ^ 64.
Proof.
  unfold GetMemorySize. destruct (ttype t); [|done]. intros H.
  inv_ok. unfold wrap_size. apply Z.mod_pos_bound. lia.
Qed.

(** What a successful reuse does: the entry at [it] leaves the free list,
    its token had no reference, and receives the size and the reference
    count of the request. *)
Lemma take_entry_Some h a size prototype it p r h' a' :
  take_entry h a size prototype it p = Ok (r, h', a') →
  ∃ tok proto,
    r = Some p ∧ h !! p = Some tok ∧ ref_counter tok = 0
    ∧ <[p := set_max_bytes (Z.max size (max_bytes tok)) tok]> h !! prototype
      = Some proto
    ∧ h' = <[p := set_ref_counter (ref_counter proto)
                     (set_max_bytes (Z.max size (max_bytes tok)) tok)]> h
    ∧ a' = mk (delete it (free_ a)) (data_ a).
Proof.
  unfold take_entry. intros H.
  apply rbind_Ok in H as (tok & Htok%deref_Ok & H).
  case_bool_decide as Hrc; simpl in H; [|done].
  apply rbind_Ok in H as (proto & Hproto%deref_Ok & H).
  apply rbind_Ok in H as (tok1 & Htok1%deref_Ok & H).
  assert (Hlt : (p < length h)%nat) by (by eapply lookup_lt_Some).
  rewrite list_lookup_insert_eq in Htok1 by done.
  simplify_eq. exists tok, proto. split_and!; try done.
  by rewrite list_insert_insert_eq.
Qed.

(** Where a reused entry lies in the free list. *)
Lemma Request_Some h a prototype p h' a' :
  Request h a prototype = Ok (Some p, h', a') →
  ∃ proto size it cached tok,
    h !! prototype = Some proto ∧ GetMemorySize proto = Ok size
    ∧ free_ a !! it = Some (cached, p)
    ∧ h !! p = Some tok ∧ ref_counter tok = 0
    ∧ device_type tok = device_type proto
    ∧ take_entry h a size prototype it p = Ok (Some p, h', a')
    ∧ ((lower_bound (free_ a) size ≤ it)%nat
         ∧ ((lower_bound (free_ a) size
               ≤ upper_bound (free_ a) (wrap_size (size * 16)))%nat →
            (it < upper_bound (free_ a) (wrap_size (size * 16)))%nat)
       ∨ (lower_bound (free_ a) (size / 16) ≤ it
            < lower_bound (free_ a) size)%nat).
Proof.
  unfold Request. intros H.
  apply rbind_Ok in H as (proto & Hproto%deref_Ok & H).
  apply rbind_Ok in H as (size & Hsize & H).
  case_bool_decide as Hmr; [done|].
  pose proof (GetMemorySize_range _ _ Hsize) as Hrange.
  apply rbind_Ok in H as (up & Hup & H).
  destruct up as [[it q]|].
  - pose proof H as Htake.
    apply take_entry_Some in H as (tok & proto' & ? & Htok & Hrc & _).
    simplify_eq.
    apply scan_up_Some in Hup as (Hle & Hlt & k & t & Hk & Ht & Hdev).
    rewrite Htok in Ht. injection Ht as <-.
    exists proto, size, it, k, tok.
    split_and!; try done. left. done.
  - apply rbind_Ok in H as (down & Hdown & H).
    destruct down as [[it q]|]; [|done].
    pose proof H as Htake.
    apply take_entry_Some in H as (tok & proto' & ? & Htok & Hrc & _).
    simplify_eq.
    apply scan_down_Some in Hdown as (Hlt & Hge & k & t & Hk & Ht & Hdev).
    rewrite Htok in Ht. injection Ht as <-.
    exists proto, size, it, k, tok.
    split_and!; try done. right. split; [|done]. apply Hge.
    apply lower_bound_mono. unfold match_range_.
    apply Z.div_le_upper_bound; lia.
Qed.

End Request1D.

Section Request1DWindow.
Import TokenAllocator1D.

(** A token of a one-dimensional shape of [n] elements. *)
Definition linear_token (n : Z) (dt : DataType) (rc sid max : Z)
  : StorageToken :=
  mkStorageToken rc max (Some (mkTensorType [IntImm n] dt)) 0 sid "global".
Definition int8 : DataType := mkDataType 0 8 1.

(** A released buffer of 62 bytes and a request for 250 [float32], that is
    1000 bytes. *)
Definition window_arena : Arena :=
  [ linear_token 62 int8 0 0 62; linear_token 250 float32 1 (-1) 0 ].
Definition window_pool : t := mk [(62, 0%nat)] [0%nat].

(** C5, as stated, fails: the 1000-byte request reuses the 62-byte token,
    and 1000 / 62 is more than 16: the lower end of the window is the
    integer quotient 1000 / 16 = 62, not 62.5. *)
Lemma Request1D_reuses_below_a_sixteenth :
  ∃ h' a',
    GetMemorySize (linear_token 250 float32 1 (-1) 0) = Ok 1000
    ∧ free_ window_pool = [(62, 0%nat)]
    ∧ Request window_arena window_pool 1%nat = Ok (Some 0%nat, h', a')
    ∧ ¬ (1000 ≤ 16 * 62 ∧ 62 ≤ 16 * 1000).
Proof.
  eexists _, _. split_and!; [reflexivity|reflexivity|reflexivity|lia].
Qed.

(** C5, amended: whenever the 1d [Request] returns a reused token for a
    requested size, the size the free list holds for that token lies between
    the integer quotient size / 16 and size * 16; that is, cached <= 16 *
    size and size <= 16 * cached + 15 (not size <= 16 * cached). *)
Theorem Request1D_reuse_window h a prototype p h' a' :
  sorted (free_ a) → size_keys (free_ a) →
  Request h a prototype = Ok (Some p, h', a') →
  ∃ proto size it cached,
    h !! prototype = Some proto ∧ GetMemorySize proto = Ok size
    ∧ free_ a !! it = Some (cached, p)
    ∧ free_ a' = delete it (free_ a)
    ∧ size / 16 ≤ cached ≤ size * 16
    ∧ size ≤ 16 * cached + 15.
Proof.
  intros Hsorted Hkeys H.
  apply Request_Some in H
    as (proto & size & it & cached & tok & Hproto & Hsize & Hit & Htok
        & Hrc & Hdev & Htake & Hwhere).
  apply take_entry_Some in Htake as (? & ? & _ & _ & _ & _ & _ & ->).
  pose proof (GetMemorySize_range _ _ Hsize) as Hrange.
  pose proof (Hkeys _ _ Hit) as Hkey. simpl in Hkey.
  exists proto, size, it, cached. split_and!; try done.
  - destruct Hwhere as [[Hmid Hend]|[Hbegin Hmid]].
    + pose proof (lower_bound_after _ size _ _ Hsorted Hit Hmid) as Hge.
      simpl in Hge. pose proof (Z.div_mod size 16 ltac:(lia)).
      pose proof (Z.mod_pos_bound size 16 ltac:(lia)). size_lia.
    + pose proof (lower_bound_after _ _ _ _ Hsorted Hit Hbegin). done.
  - destruct Hwhere as [[Hmid Hend]|[Hbegin Hmid]].
    + destruct (decide (size * 16 < 2 ^ 64)) as [Hsmall|Hbig]; [|lia].
      assert (Hw : wrap_size (size * 16) = size * 16).
      { unfold wrap_size. apply Z.mod_small. lia. }
      rewrite Hw in Hend.
      pose proof (upper_bound_before _ _ _ _ Hit
                    (Hend (lower_upper_bound (free_ a) size (size * 16)
                             ltac:(lia)))) as Hle.
      done.
    + pose proof (lower_bound_before _ _ _ _ Hit Hmid) as Hlt.
      simpl in Hlt. lia.
  - destruct Hwhere as [[Hmid Hend]|[Hbegin Hmid]].
    + pose proof (lower_bound_after _ size _ _ Hsorted Hit Hmid) as Hge.
      simpl in Hge. lia.
    + pose proof (lower_bound_after _ _ _ _ Hsorted Hit Hbegin) as Hge.
      simpl in Hge. unfold match_range_ in Hge.
      pose proof (Z.div_mod size 16 ltac:(lia)).
      pose proof (Z.mod_pos_bound size 16 ltac:(lia)). size_lia.
Qed.

Lemma window_pool_sorted : sorted (free_ window_pool).
Proof.
  intros i j e1 e2 Hij H1 H2. simpl in *.
  destruct i as [|i]; [|done]. destruct j as [|j]; [|done]. by simplify_eq.
Qed.

Lemma window_pool_size_keys : size_keys (free_ window_pool).
Proof. intros [|i] e H; simpl in H; [|done]. simplify_eq. simpl. lia. Qed.

Lemma Request1D_reuse_window_witness :
  ∃ h' a',
    Request window_arena window_pool 1%nat = Ok (Some 0%nat, h', a')
    ∧ ∃ it cached,
        free_ window_pool !! it = Some (cached, 0%nat)
        ∧ 1000 / 16 ≤ cached ≤ 1000 * 16.
Proof.
  eexists _, _. split; [reflexivity|].
  destruct (Request1D_reuse_window window_arena window_pool 1%nat 0%nat _ _
              window_pool_sorted window_pool_size_keys eq_refl)
    as (proto & size & it & cached & Hproto & Hsize & Hit & _ & Hwin & _).
  vm_compute in Hproto. simplify_eq. vm_compute in Hsize. simplify_eq.
  exists it, cached. done.
Defined.

(** [CheckForRelease] files a token under its [max_bytes]. *)
Lemma CheckForRelease_key h a tok a' :
  CheckForRelease h a tok = Ok a' →
  a' = a
  ∨ ∃ t, h !! tok = Some t ∧ ref_counter t = 0
         ∧ free_ a' = insert (max_bytes t, tok) (free_ a).
Proof.
  unfold CheckForRelease. intros H.
  apply rbind_Ok in H as (t & Ht%deref_Ok & H).
  repeat (case_bool_decide; simpl in H; try done); simplify_eq; eauto.
Qed.

End Request1DWindow.

(** ** Serialisation: all tokens annotated with a device, or none *)

Section Serialize.
Import StorageAllocator.

Definition annotated (h : Arena) (p : tokptr) : bool :=
  match h !! p with
  | Some t => bool_decide (device_type t ≠ 0)
  | None => false
  end.

(** The number of annotated tokens in a list of tokens. *)
Definition count_annotated (h : Arena) (toks : list tokptr) : Z :=
  Z.of_nat (length (filter (λ p, annotated h p = true) toks)).

(** The triple of arrays of a list of tokens. *)
Definition triple_of (h : Arena) (toks : list tokptr) : ADT :=
  (map (λ p, from_option storage_id (-1) (h !! p)) toks,
   map (λ p, from_option device_type 0 (h !! p)) toks,
   map (λ p, from_option storage_scope "" (h !! p)) toks).

(** Every token listed is a token of the arena. *)
Definition all_valid (h : Arena) (toks : list tokptr) : Prop :=
  Forall (λ p, is_Some (h !! p)) toks.

Lemma count_annotated_cons h p toks :
  count_annotated h (p :: toks)
  = (if annotated h p then 1 else 0) + count_annotated h toks.
Proof.
  unfold count_annotated. rewrite filter_cons.
  destruct (annotated h p); case_decide; simpl length; try done; lia.
Qed.

Lemma count_annotated_app h l1 l2 :
  count_annotated h (l1 ++ l2) = count_annotated h l1 + count_annotated h l2.
Proof.
  unfold count_annotated. rewrite filter_app, length_app. lia.
Qed.

Lemma count_annotated_bounds h toks :
  0 ≤ count_annotated h toks ≤ Z.of_nat (length toks).
Proof.
  unfold count_annotated. pose proof (length_filter (λ p, annotated h p = true) toks).
  lia.
Qed.

Lemma entry_loop_Ok h toks c :
  all_valid h toks →
  0 ≤ num_annotated_nodes c ≤ num_nodes c →
  num_nodes c + Z.of_nat (length toks) ≤ INT_MAX →
  entry_loop h toks c
  = Ok (triple_of h toks,
        mkCounts (num_annotated_nodes c + count_annotated h toks)
          (num_nodes c + Z.of_nat (length toks))).
Proof.
  revert c. induction toks as [|p toks IH]; intros [na nn] Hv Hc Hmax;
    simpl in *.
  - unfold count_annotated. simpl. do 3 f_equal; lia.
  - apply Forall_cons in Hv as [[t Ht] Hv].
    unfold deref. rewrite Ht. simpl.
    rewrite count_annotated_cons. unfold annotated at 1. rewrite Ht.
    pose proof (count_annotated_bounds h toks) as Hb.
    assert (Hnn : as_int (nn + 1) = Ok (nn + 1)).
    { unfold as_int, INT_MIN, INT_MAX in *. rewrite bool_decide_true; [done|lia]. }
    case_bool_decide as Hdev.
    + assert (Hna : as_int (na + 1) = Ok (na + 1)).
      { unfold as_int, INT_MIN, INT_MAX in *.
        rewrite bool_decide_true; [done|lia]. }
      rewrite Hna. simpl. rewrite Hnn. simpl.
      rewrite IH; simpl; [|done|lia|lia].
      unfold triple_of. simpl. rewrite Ht. simpl. do 3 f_equal; lia.
    + simpl. rewrite Hnn. simpl.
      rewrite IH; simpl; [|done|lia|lia].
      unfold triple_of. simpl. rewrite Ht. simpl. do 3 f_equal; lia.
Qed.

(** All the tokens the entries list, in order. *)
Definition listed (entries : list (node * list tokptr)) : list tokptr :=
  concat (entries.*2).

Lemma listed_cons k toks entries :
  listed ((k, toks) :: entries) = toks ++ listed entries.
Proof. done. Qed.

Lemma smap_loop_Ok h entries smap c :
  all_valid h (listed entries) →
  0 ≤ num_annotated_nodes c ≤ num_nodes c →
  num_nodes c + Z.of_nat (length (listed entries)) ≤ INT_MAX →
  smap_loop h entries smap c
  = Ok (foldl (λ m kv, <[kv.1 := triple_of h kv.2]> m) smap entries,
        mkCounts (num_annotated_nodes c + count_annotated h (listed entries))
          (num_nodes c + Z.of_nat (length (listed entries)))).
Proof.
  revert smap c. induction entries as [|[k toks] entries IH];
    intros smap [na nn] Hv Hc Hmax.
  - cbn. unfold count_annotated. cbn. do 3 f_equal; lia.
  - rewrite listed_cons in *. cbn [num_annotated_nodes num_nodes] in *.
    apply Forall_app in Hv as [Hv1 Hv2].
    rewrite length_app in Hmax.
    pose proof (count_annotated_bounds h toks) as Hb.
    cbn [smap_loop fst snd].
    rewrite entry_loop_Ok; cbn [num_annotated_nodes num_nodes];
      [|done|lia|lia].
    cbn [rbind fst snd].
    rewrite IH; cbn [num_annotated_nodes num_nodes]; [|done|lia|lia].
    rewrite count_annotated_app, length_app. cbn [foldl fst snd].
    do 3 f_equal; lia.
Qed.

Lemma foldl_insert_lookup {A B} (f : A → B) (entries : list (node * A))
    (m : gmap node B) k :
  NoDup (entries.*1) →
  foldl (λ m kv, <[kv.1 := f kv.2]> m) m entries !! k
  = match list_to_map (M := gmap node A) entries !! k with
    | Some x => Some (f x)
    | None => m !! k
    end.
Proof.
  revert m. induction entries as [|[k' x] entries IH]; intros m Hnd.
  - simpl. by rewrite lookup_empty.
  - simpl in *. apply NoDup_cons in Hnd as [Hk' Hnd].
    rewrite IH by done.
    destruct (decide (k' = k)) as [->|Hne].
    + rewrite (not_elem_of_list_to_map_1 entries k) by done.
      by rewrite !lookup_insert_eq.
    + rewrite (lookup_insert_ne (list_to_map entries) k' k) by done.
      destruct (list_to_map entries !! k); [done|].
      by rewrite lookup_insert_ne.
Qed.

(** C9: at serialisation, with [annot] of the [total] serialised tokens
    annotated by a device type other than 0: if some but not all are
    annotated, [Plan] aborts with a fatal error whose message starts with
    the two counts, "annot out of total"; if all or none are, it returns the
    map that gives every node of [token_map_] its triple (storage_ids,
    device_types, storage_scopes). *)
Theorem serialize_all_or_none (v : St) :
  let toks := listed (map_to_list (token_map_ v)) in
  let annot := count_annotated (arena_ v) toks in
  let total := Z.of_nat (length toks) in
  all_valid (arena_ v) toks →
  total ≤ INT_MAX →
  serialize v
  = if bool_decide (0 < annot < total)
    then Err (LOG_FATAL
                (show_int annot ++ " out of " ++ show_int total
                 ++ "expressions are assigned with virtual device types. "
                 ++ "Either all or none of the expressions are expected to be annotated."))
    else Ok (triple_of (arena_ v) <$> token_map_ v).
Proof.
  intros toks annot total Hv Hmax. unfold serialize.
  rewrite smap_loop_Ok; simpl; [|done|lia|by fold toks; fold total; lia].
  fold toks. fold annot. fold total.
  pose proof (count_annotated_bounds (arena_ v) toks) as Hb.
  fold annot in Hb. fold total in Hb.
  replace (0 + annot) with annot by lia. replace (0 + total) with total by lia.
  destruct (decide (0 < annot < total)) as [Hmixed|Hnot].
  - rewrite (bool_decide_true (0 < annot < total)) by done.
    rewrite !bool_decide_true by lia. simpl.
    unfold mixed_annotation_message. simpl. done.
  - rewrite (bool_decide_false (0 < annot < total)) by done.
    assert (Hor : annot = 0 ∨ annot = total) by lia.
    assert (Hcond : bool_decide (annot ≠ 0) && bool_decide (annot ≠ total)
                    = false).
    { destruct Hor as [H0|Ht].
      - rewrite (bool_decide_false (annot ≠ 0)); [done|lia].
      - rewrite (bool_decide_false (annot ≠ total)); [|lia].
        apply andb_false_r. }
    rewrite Hcond. f_equal. apply map_eq. intros k.
    rewrite foldl_insert_lookup by apply NoDup_fst_map_to_list.
    rewrite list_to_map_to_list, lookup_fmap, lookup_empty.
    by destruct (token_map_ v !! k).
Qed.

End Serialize.

(** ** Induction over expressions and over the visit *)

Section ExprInd.
Variable P : Expr → Prop.
Hypothesis HConstant : ∀ n ty, P (Constant n ty).
Hypothesis HVar : ∀ n, P (Var n).
Hypothesis HGlobalVar : ∀ n, P (GlobalVar n).
Hypothesis HOp : ∀ n, P (Op n).
Hypothesis HFunctionE : ∀ n, P (FunctionE n).
Hypothesis HCall : ∀ n ty args, Forall P args → P (Call n ty args).
Hypothesis HTuple : ∀ n fields, Forall P fields → P (Tuple n fields).
Hypothesis HTupleGetItem : ∀ n tuple index, P tuple → P (TupleGetItem n tuple index).
Hypothesis HLet : ∀ n var value body, P value → P body → P (Let n var value body).
Hypothesis HIf : ∀ n, P (If n).

Fixpoint Expr_nested_ind (e : Expr) : P e :=
  match e with
  | Constant n ty => HConstant n ty
  | Var n => HVar n
  | GlobalVar n => HGlobalVar n
  | Op n => HOp n
  | FunctionE n => HFunctionE n
  | Call n ty args =>
      HCall n ty args
        ((fix go (l : list Expr) : Forall P l :=
            match l with
            | [] => Forall_nil_2 P
            | x :: l' => Forall_cons_2 P x l' (Expr_nested_ind x) (go l')
            end) args)
  | Tuple n fields =>
      HTuple n fields
        ((fix go (l : list Expr) : Forall P l :=
            match l with
            | [] => Forall_nil_2 P
            | x :: l' => Forall_cons_2 P x l' (Expr_nested_ind x) (go l')
            end) fields)
  | TupleGetItem n tuple index =>
      HTupleGetItem n tuple index (Expr_nested_ind tuple)
  | Let n var value body =>
      HLet n var value body (Expr_nested_ind value) (Expr_nested_ind body)
  | If n => HIf n
  end.
End ExprInd.

(** A relation between the state before and after a step that holds across
    every primitive step of a visitor holds across the whole visit. *)
Section VisitRel.
Context {D : Type}.
Variable CreateToken : node → Ty → bool → M (Visitor D) unit.
Variable VisitCall :
  node → Ty → list (M (Visitor D) (list tokptr)) → M (Visitor D) unit.
Variable R : Visitor D → Visitor D → Prop.

Hypothesis R_refl : ∀ v, R v v.
Hypothesis R_trans : ∀ v1 v2 v3, R v1 v2 → R v2 v3 → R v1 v3.
Hypothesis R_set_tokens : ∀ op toks v u v',
  set_tokens op toks v = Ok (u, v') → R v v'.
Hypothesis R_visited : ∀ n v,
  R v (mkVisitor (arena_ v) (token_map_ v) ({[n]} ∪ visit_counter_ v)
         (assigned v) (derived v)).
Hypothesis R_CreateToken : ∀ op ty b v u v',
  CreateToken op ty b v = Ok (u, v') → R v v'.
Hypothesis R_VisitCall : ∀ op ty gets v u v',
  Forall (λ g, ∀ v1 r v2, g v1 = Ok (r, v2) → R v1 v2) gets →
  VisitCall op ty gets v = Ok (u, v') → R v v'.

Lemma find_tokens_Ok (op : node) (v : Visitor D) toks v' :
  find_tokens op v = Ok (toks, v') → v' = v ∧ token_map_ v !! op = Some toks.
Proof.
  unfold find_tokens. destruct (token_map_ v !! op); [|done].
  by intros [= <- <-].
Qed.

Lemma collect_rel gets v toks v' :
  Forall (λ g, ∀ v1 r v2, g v1 = Ok (r, v2) → R v1 v2) gets →
  collect gets v = Ok (toks, v') → R v v'.
Proof.
  revert v toks. induction gets as [|g gets IH]; intros v toks Hg H.
  - simpl in H. inv_ok. apply R_refl.
  - apply Forall_cons in Hg as [Hg Hgs]. simpl in H. inv_ok.
    eapply R_trans; [(eapply Hg; eassumption)|]. (eapply IH; eassumption).
Qed.

Lemma for_each_rel {A} (xs : list A) (body : A → M (Visitor D) unit) v u v' :
  (∀ x v1 u1 v2, x ∈ xs → body x v1 = Ok (u1, v2) → R v1 v2) →
  for_each xs body v = Ok (u, v') → R v v'.
Proof.
  revert v. induction xs as [|x xs IH]; intros v Hbody H; simpl in H.
  - inv_ok. apply R_refl.
  - inv_ok. eapply R_trans.
    + eapply Hbody; [|done]. by left.
    + eapply IH; [|done]. intros. eapply Hbody; [|done]. by right.
Qed.

Lemma memoised_rel n (visit : M (Visitor D) unit) v u v' :
  (∀ v1 u1 v2, visit v1 = Ok (u1, v2) → R v1 v2) →
  memoised n visit v = Ok (u, v') → R v v'.
Proof.
  intros Hvisit. unfold memoised. case_bool_decide.
  - intros [= <- <-]. apply R_refl.
  - destruct (visit v) as [[u1 v1]|] eqn:Hv; [|done]. intros [= <- <-].
    eapply R_trans; [(eapply Hvisit; eassumption)|]. apply R_visited.
Qed.

Lemma get_rel (visit : M (Visitor D) unit) n v toks v' :
  (∀ v1 u1 v2, visit v1 = Ok (u1, v2) → R v1 v2) →
  (visit ;; find_tokens n) v = Ok (toks, v') → R v v'.
Proof.
  intros Hvisit H. inv_ok. apply find_tokens_Ok in H as [-> _].
  (eapply Hvisit; eassumption).
Qed.

Lemma VisitExpr_rel e :
  ∀ v u v', VisitExpr CreateToken VisitCall e v = Ok (u, v') → R v v'.
Proof.
  induction e as [n ty|n|n|n|n|n ty args IH|n fields IH|n tuple index IH
                 |n var value body IHv IHb|n] using Expr_nested_ind;
    intros v u v' H; simpl in H;
    (eapply memoised_rel; [|exact H]); clear H v u v'; intros v u v' H.
  - (eapply R_CreateToken; eassumption).
  - inv_ok. apply R_refl.
  - inv_ok. apply R_refl.
  - inv_ok. apply R_refl.
  - inv_ok. apply R_refl.
  - eapply R_VisitCall; [|exact H].
    apply Forall_fmap. eapply Forall_impl; [exact IH|].
    intros arg Harg v1 r v2 Hg. eapply get_rel; [exact Harg|exact Hg].
  - inv_ok. eapply R_trans; [|(eapply R_set_tokens; eassumption)].
    eapply collect_rel; [|done].
    apply Forall_fmap. eapply Forall_impl; [exact IH|].
    intros arg Harg v1 r v2 Hg. eapply get_rel; [exact Harg|exact Hg].
  - apply bind_Ok in H as (tok & v1 & Hget & H).
    apply bind_Ok in H as (? & v2 & Hchk & H).
    apply ICHECK_Ok in Hchk as [_ ->].
    eapply R_trans; [eapply get_rel; [exact IH|exact Hget]|].
    destruct (tok !! Z.to_nat index); [|done].
    eapply R_set_tokens; eassumption.
  - apply bind_Ok in H as (token & v1 & Hget & H).
    apply bind_Ok in H as (? & v2 & Hset & H).
    apply bind_Ok in H as (btoks & v3 & Hgetb & H).
    eapply R_trans; [eapply get_rel; [exact IHv|exact Hget]|].
    eapply R_trans; [eapply R_set_tokens; exact Hset|].
    eapply R_trans; [eapply get_rel; [exact IHb|exact Hgetb]|].
    eapply R_set_tokens; exact H.
  - done.
Qed.

Lemma GetToken_rel e v toks v' :
  GetToken CreateToken VisitCall e v = Ok (toks, v') → R v v'.
Proof. intros H. eapply get_rel; [|exact H]. apply VisitExpr_rel. Qed.

Hypothesis R_add_ref : ∀ tok v u v',
  add_ref 1 tok v = Ok (u, v') → R v v'.

Lemma Run_rel func v u v' :
  Run CreateToken VisitCall func v = Ok (u, v') → R v v'.
Proof.
  unfold Run. intros H. inv_ok.
  eapply R_trans; [|eapply R_trans].
  - eapply for_each_rel; [|exact Ha].
    intros x v1 u1 v2 _ Hx. eapply R_CreateToken; exact Hx.
  - eapply GetToken_rel; exact Ha0.
  - eapply for_each_rel; [|exact H].
    intros x v1 u1 v2 _ Hx. eapply R_add_ref; exact Hx.
Qed.

End VisitRel.

(** ** What one call of the allocator does *)

Section AllocatorSteps.

Lemma Alloc1D_Ok h a P id r h' a' :
  TokenAllocator1D.Alloc h a P id = Ok (r, h', a') →
  ∃ t size,
    h !! P = Some t ∧ TokenAllocator1D.GetMemorySize t = Ok size
    ∧ r = P
    ∧ h' = <[P := set_storage_id id (set_max_bytes size t)]> h
    ∧ TokenAllocator1D.free_ a' = TokenAllocator1D.free_ a.
Proof.
  unfold TokenAllocator1D.Alloc. intros H. inv_ok.
  eexists _, _. split_and!; done.
Qed.

Lemma Alloc2D_Ok h a P id r h' a' :
  TokenAllocator2D.Alloc h a P id = Ok (r, h', a') →
  ∃ t,
    h !! P = Some t ∧ r = P
    ∧ h' = <[P := set_storage_id id t]> h
    ∧ TokenAllocator2D.free_list_ a' = TokenAllocator2D.free_list_ a.
Proof.
  unfold TokenAllocator2D.Alloc. intros H. inv_ok.
  eexists. split_and!; done.
Qed.

(** [Alloc] hands the prototype itself back, with a new storage id. *)
Lemma Alloc_Ok h a P r h' a' :
  TokenAllocator.Alloc h a P = Ok (r, h', a') →
  ∃ t t',
    h !! P = Some t ∧ r = P ∧ h' = <[P := t']> h
    ∧ ref_counter t' = ref_counter t ∧ ttype t' = ttype t
    ∧ device_type t' = device_type t ∧ storage_scope t' = storage_scope t
    ∧ storage_id t' = TokenAllocator.storage_ids_ a
    ∧ TokenAllocator.history a'
      = EvAlloc P (TokenAllocator.storage_ids_ a)
          (Is2DStorage (storage_scope t)) :: TokenAllocator.history a
    ∧ TokenAllocator1D.free_ (TokenAllocator.token_1d_ a')
      = TokenAllocator1D.free_ (TokenAllocator.token_1d_ a)
    ∧ TokenAllocator2D.free_list_ (TokenAllocator.token_2d_ a')
      = TokenAllocator2D.free_list_ (TokenAllocator.token_2d_ a).
Proof.
  unfold TokenAllocator.Alloc. intros H.
  apply rbind_Ok in H as (t & Ht%deref_Ok & H).
  apply rbind_Ok in H as (next & Hnext & H).
  unfold TokenAllocator.Is2DStorage in H.
  destruct (Is2DStorage (storage_scope t)) eqn:H2d.
  - apply rbind_Ok in H as ([[r0 h0] a0] & Ha & H). simpl in H.
    apply Alloc2D_Ok in Ha as (t0 & Ht0 & -> & -> & Hfree).
    apply as_int64_Ok in Hnext as [-> _].
    simplify_eq. eexists t, _. split_and!; try done.
    simpl. by rewrite H2d.
  - apply rbind_Ok in H as ([[r0 h0] a0] & Ha & H). simpl in H.
    apply Alloc1D_Ok in Ha as (t0 & size & Ht0 & Hsize & -> & -> & Hfree).
    apply as_int64_Ok in Hnext as [-> _].
    simplify_eq. eexists t, _. split_and!; try done.
    simpl. by rewrite H2d.
Qed.

(** The outcome of the dispatcher's [CheckForRelease]: the token goes to
    the free list of its allocator exactly when its reference count is 0. *)
Lemma CheckForRelease_Ok h a T a' :
  TokenAllocator.CheckForRelease h a T = Ok a' →
  ∃ t,
    h !! T = Some t ∧ 0 ≤ storage_id t ∧ 0 ≤ ref_counter t
    ∧ TokenAllocator.history a'
      = EvCheckForRelease T (Is2DStorage (storage_scope t)) (ref_counter t)
          :: TokenAllocator.history a
    ∧ TokenAllocator.storage_ids_ a' = TokenAllocator.storage_ids_ a
    ∧ (if Is2DStorage (storage_scope t) then
         TokenAllocator.token_1d_ a' = TokenAllocator.token_1d_ a
         ∧ TokenAllocator2D.free_list_ (TokenAllocator.token_2d_ a')
           = (if bool_decide (ref_counter t = 0)
              then TokenAllocator2D.set_insert (storage_id t)
                     (TokenAllocator2D.free_list_ (TokenAllocator.token_2d_ a))
              else TokenAllocator2D.free_list_ (TokenAllocator.token_2d_ a))
       else
         TokenAllocator.token_2d_ a' = TokenAllocator.token_2d_ a
         ∧ TokenAllocator1D.free_ (TokenAllocator.token_1d_ a')
           = (if bool_decide (ref_counter t = 0)
              then TokenAllocator1D.insert (max_bytes t, T)
                     (TokenAllocator1D.free_ (TokenAllocator.token_1d_ a))
              else TokenAllocator1D.free_ (TokenAllocator.token_1d_ a))).
Proof.
  unfold TokenAllocator.CheckForRelease. intros H.
  apply rbind_Ok in H as (t & Ht%deref_Ok & H).
  unfold TokenAllocator.Is2DStorage in H.
  exists t. destruct (Is2DStorage (storage_scope t)) eqn:H2d.
  - apply rbind_Ok in H as (a2 & Ha & H). injection H as <-.
    unfold TokenAllocator2D.CheckForRelease in Ha.
    apply rbind_Ok in Ha as (t0 & Ht0%deref_Ok & Ha). simplify_eq.
    repeat (case_bool_decide; simpl in Ha; try done); simplify_eq;
      split_and!; try done.
  - apply rbind_Ok in H as (a1 & Ha & H). injection H as <-.
    unfold TokenAllocator1D.CheckForRelease in Ha.
    apply rbind_Ok in Ha as (t0 & Ht0%deref_Ok & Ha). simplify_eq.
    repeat (case_bool_decide; simpl in Ha; try done); simplify_eq;
      split_and!; try done.
Qed.

(** The outcome of the dispatcher's [Request] on a token that is not a
    texture: a token taken from the 1d free list, or a new allocation. *)
Lemma Request_Ok_1d h a P r h' a' t :
  h !! P = Some t → Is2DStorage (storage_scope t) = false →
  TokenAllocator.Request h a P = Ok (r, h', a') →
  (∃ size it cached tok proto,
      TokenAllocator1D.GetMemorySize t = Ok size
      ∧ TokenAllocator1D.free_ (TokenAllocator.token_1d_ a) !! it
        = Some (cached, r)
      ∧ h !! r = Some tok ∧ ref_counter tok = 0
      ∧ device_type tok = device_type t
      ∧ <[r := set_max_bytes (Z.max size (max_bytes tok)) tok]> h !! P
        = Some proto
      ∧ h' = <[r := set_ref_counter (ref_counter proto)
                      (set_max_bytes (Z.max size (max_bytes tok)) tok)]> h
      ∧ TokenAllocator1D.free_ (TokenAllocator.token_1d_ a')
        = delete it (TokenAllocator1D.free_ (TokenAllocator.token_1d_ a))
      ∧ TokenAllocator.token_2d_ a' = TokenAllocator.token_2d_ a
      ∧ TokenAllocator.storage_ids_ a' = TokenAllocator.storage_ids_ a
      ∧ TokenAllocator.history a'
        = EvRequest P false (Some r) :: TokenAllocator.history a)
  ∨ (∃ a1,
      TokenAllocator.Alloc h a1 P = Ok (r, h', a')
      ∧ TokenAllocator.token_1d_ a1 = TokenAllocator.token_1d_ a
      ∧ TokenAllocator.token_2d_ a1 = TokenAllocator.token_2d_ a
      ∧ TokenAllocator.storage_ids_ a1 = TokenAllocator.storage_ids_ a
      ∧ TokenAllocator.history a1
        = EvRequest P false None :: TokenAllocator.history a).
Proof.
  intros Ht H2d. unfold TokenAllocator.Request. intros H.
  apply rbind_Ok in H as (t0 & Ht0%deref_Ok & H). simplify_eq.
  unfold TokenAllocator.Is2DStorage in H. rewrite H2d in H.
  apply rbind_Ok in H as ([[r0 h0] a0] & Hr & H).
  apply rbind_Ok in Hr as ([[r1 h1] a1] & Hreq & Hr). simpl in Hr.
  injection Hr as <- <- <-. simpl in H.
  destruct r1 as [T|].
  - injection H as <- <- <-. left.
    apply Request_Some in Hreq
      as (proto & size & it & cached & tok & Hproto & Hsize & Hit & Htok
          & Hrc & Hdev & Htake & _).
    apply take_entry_Some in Htake
      as (tok' & proto' & _ & Htok' & _ & Hproto' & -> & ->).
    simplify_eq. exists size, it, cached, tok, proto'. split_and!; done.
  - right.
    assert (h1 = h ∧ a1 = TokenAllocator.token_1d_ a) as [-> ->].
    { clear H. unfold TokenAllocator1D.Request in Hreq.
      apply rbind_Ok in Hreq as (proto & Hproto & Hreq).
      apply rbind_Ok in Hreq as (size & Hsize & Hreq).
      case_bool_decide; [by simplify_eq|].
      apply rbind_Ok in Hreq as (up & Hup & Hreq).
      destruct up as [[it q]|].
      { apply take_entry_Some in Hreq as (? & ? & ? & _); done. }
      apply rbind_Ok in Hreq as (down & Hdown & Hreq).
      destruct down as [[it q]|]; [|by simplify_eq].
      apply take_entry_Some in Hreq as (? & ? & ? & _); done. }
    eexists. split; [exact H|]. done.
Qed.

End AllocatorSteps.

(** ** The assignment pass: what it changes and which calls it makes *)

Section AssignmentFrame.
Import StorageAllocator.

(** The fields of a token that say what it is, as opposed to those the
    allocator works with ([ref_counter], [max_bytes], [storage_id]). *)
Definition same_kind (t t' : StorageToken) : Prop :=
  ttype t' = ttype t ∧ device_type t' = device_type t
  ∧ storage_scope t' = storage_scope t.

Definition frame (h h' : Arena) : Prop :=
  length h' = length h
  ∧ ∀ p t, h !! p = Some t → ∃ t', h' !! p = Some t' ∧ same_kind t t'.

Lemma same_kind_refl t : same_kind t t.
Proof. done. Qed.

Lemma frame_refl h : frame h h.
Proof. split; [done|]. intros p t Ht. by exists t. Qed.

Lemma frame_trans h1 h2 h3 : frame h1 h2 → frame h2 h3 → frame h1 h3.
Proof.
  intros [Hl1 H1] [Hl2 H2]. split; [congruence|].
  intros p t Ht. apply H1 in Ht as (t' & Ht' & (? & ? & ?)).
  apply H2 in Ht' as (t'' & Ht'' & (? & ? & ?)).
  exists t''. split; [done|]. unfold same_kind. split_and!; congruence.
Qed.

Lemma frame_insert h p t t' :
  h !! p = Some t → same_kind t t' → frame h (<[p := t']> h).
Proof.
  intros Ht Hk. split; [by rewrite length_insert|].
  intros q tq Hq. destruct (decide (p = q)) as [->|Hne].
  - rewrite list_lookup_insert_eq by (by eapply lookup_lt_Some).
    simplify_eq. by exists t'.
  - rewrite list_lookup_insert_ne by done. by exists tq.
Qed.

Definition scope_of (h : Arena) (p : tokptr) : string :=
  from_option storage_scope "" (h !! p).

Lemma frame_scope_of h h' p :
  frame h h' → is_Some (h !! p) → scope_of h' p = scope_of h p.
Proof.
  intros [_ Hf] [t Ht]. unfold scope_of.
  destruct (Hf _ _ Ht) as (t' & Ht' & (_ & _ & Hs)). by rewrite Ht, Ht'.
Qed.

(** The calls the pass makes to the allocator come in four shapes (newest
    first): a request for a "global" token that finds a free token; one
    that finds none, followed by the allocation; an allocation followed by
    the increment that pins the token; a release check. *)
Inductive blocks (h : Arena) : list Event → Prop :=
| blocks_nil : blocks h []
| blocks_hit P T l :
    scope_of h P = "global" → is_Some (h !! P) →
    blocks h l → blocks h (EvRequest P false (Some T) :: l)
| blocks_miss P id l :
    scope_of h P = "global" → is_Some (h !! P) →
    blocks h l →
    blocks h (EvAlloc P id false :: EvRequest P false None :: l)
| blocks_fresh P id l :
    is_Some (h !! P) →
    blocks h l →
    blocks h (EvPin P :: EvAlloc P id (Is2DStorage (scope_of h P)) :: l)
| blocks_check T rc l :
    is_Some (h !! T) →
    blocks h l →
    blocks h (EvCheckForRelease T (Is2DStorage (scope_of h T)) rc :: l).

Lemma blocks_app h l1 l2 : blocks h l1 → blocks h l2 → blocks h (l1 ++ l2).
Proof. induction 1; intros; simpl; try constructor; auto. Qed.

Lemma blocks_frame h h' l : frame h h' → blocks h' l → blocks h l.
Proof.
  intros Hf. pose proof Hf as [Hlen _].
  assert (Hsome : ∀ p, is_Some (h' !! p) → is_Some (h !! p)).
  { intros p Hp. apply lookup_lt_is_Some. apply lookup_lt_is_Some in Hp. lia. }
  induction 1 as [|P T l Hs Hp _ IH|P id l Hs Hp _ IH|P id l Hp _ IH
                 |T rc l Hp _ IH].
  - constructor.
  - constructor; [|by auto|done].
    by rewrite <- (frame_scope_of h h') by auto.
  - constructor; [|by auto|done].
    by rewrite <- (frame_scope_of h h') by auto.
  - rewrite (frame_scope_of h h') by auto. constructor; auto.
  - rewrite (frame_scope_of h h') by auto. constructor; auto.
Qed.

(** The relation between the states before and after any part of the
    assignment pass. *)
Definition assigns (v v' : St) : Prop :=
  frame (arena_ v) (arena_ v')
  ∧ prototype_ (derived v') = prototype_ (derived v)
  ∧ ∃ new,
      TokenAllocator.history (allocator_ (derived v'))
      = new ++ TokenAllocator.history (allocator_ (derived v))
      ∧ blocks (arena_ v) new.

Lemma assigns_refl v : assigns v v.
Proof.
  split; [apply frame_refl|]. split; [done|]. exists []. split; [done|constructor].
Qed.

Lemma assigns_trans v1 v2 v3 : assigns v1 v2 → assigns v2 v3 → assigns v1 v3.
Proof.
  intros (Hf1 & Hp1 & new1 & Hh1 & Hb1) (Hf2 & Hp2 & new2 & Hh2 & Hb2).
  split; [by eapply frame_trans|]. split; [congruence|].
  exists (new2 ++ new1). split.
  - rewrite Hh2, Hh1. by rewrite app_assoc.
  - apply blocks_app; [|done]. by eapply blocks_frame.
Qed.

Lemma add_ref_Ok {D} d tok (v : Visitor D) u v' :
  add_ref d tok v = Ok (u, v') →
  ∃ t, arena_ v !! tok = Some t
       ∧ INT_MIN ≤ ref_counter t + d ≤ INT_MAX
       ∧ v' = set_arena (<[tok := set_ref_counter (ref_counter t + d) t]>
                           (arena_ v)) v.
Proof.
  unfold add_ref. intros H.
  apply rbind_Ok in H as (t & Ht%deref_Ok & H).
  apply rbind_Ok in H as (rc & Hrc & H).
  apply as_int_Ok in Hrc as [-> Hrange]. injection H as <-.
  by exists t.
Qed.

Lemma assigns_add_ref d tok v u v' :
  add_ref d tok v = Ok (u, v') → assigns v v'.
Proof.
  intros H. apply add_ref_Ok in H as (t & Ht & _ & ->).
  split; [by eapply frame_insert|]. split; [done|].
  exists []. split; [done|constructor].
Qed.

Lemma assigns_CheckForRelease T v u v' :
  allocator_CheckForRelease T v = Ok (u, v') → assigns v v'.
Proof.
  unfold allocator_CheckForRelease. intros H.
  apply rbind_Ok in H as (a' & Ha & H). injection H as <- <-.
  apply CheckForRelease_Ok in Ha as (t & Ht & _ & _ & Hh & _).
  split; [apply frame_refl|]. split; [done|].
  exists [EvCheckForRelease T (Is2DStorage (storage_scope t)) (ref_counter t)].
  split; [done|].
  replace (storage_scope t) with (scope_of (arena_ v) T)
    by (unfold scope_of; by rewrite Ht).
  constructor; [by rewrite Ht|constructor].
Qed.

Lemma global_not_2d scope : scope = "global" → Is2DStorage scope = false.
Proof. by intros ->. Qed.

Lemma assigns_create_one b P v r v' :
  create_one b P v = Ok (r, v') → assigns v v'.
Proof.
  unfold create_one. intros H.
  apply bind_Ok in H as (v0 & ? & [= <- <-] & H).
  apply bind_Ok in H as (t & ? & [Hd ->]%lift_deref_Ok & H).
  destruct (b && bool_decide (storage_scope t = "global")) eqn:Hcase.
  - apply andb_true_iff in Hcase as [-> Hg%bool_decide_eq_true].
    unfold allocator_Request in H.
    apply rbind_Ok in H as ([[r0 h0] a0] & Hreq & H). injection H as <- <-.
    simpl.
    eapply Request_Ok_1d in Hreq as [Hhit|Hmiss];
      [| |exact Hd|by apply global_not_2d].
    + destruct Hhit as (size & it & cached & tok & proto & Hsize & Hit
                        & Htok & Hrc & Hdev & Hproto & -> & _ & _ & _ & Hh).
      split; [|split; [done|]].
      * simpl. eapply frame_insert; [done|done].
      * exists [EvRequest P false (Some r0)]. split; [exact Hh|].
        constructor; [by unfold scope_of; rewrite Hd|by rewrite Hd|constructor].
    + destruct Hmiss as (a1 & Halloc & _ & _ & _ & Hh1).
      apply Alloc_Ok in Halloc
        as (t1 & t' & Ht1 & -> & -> & Hrc & Hty & Hdev & Hsc & _ & Hh & _).
      simplify_eq. split; [|split; [done|]].
      * simpl. eapply frame_insert; [done|done].
      * exists [EvAlloc P (TokenAllocator.storage_ids_ a1)
                  (Is2DStorage (storage_scope t));
                EvRequest P false None].
        split; [simpl; by rewrite Hh, Hh1|].
        rewrite (global_not_2d _ Hg).
        constructor; [by unfold scope_of; rewrite Hd|by rewrite Hd|constructor].
  - clear Hcase.
    apply bind_Ok in H as (r0 & v1 & Halloc & H).
    unfold allocator_Alloc in Halloc.
    apply rbind_Ok in Halloc as ([[r1 h1] a1] & Halloc & Hv1).
    injection Hv1 as <- <-.
    apply Alloc_Ok in Halloc
      as (t1 & t' & Ht1 & -> & -> & Hrc & Hty & Hdev & Hsc & _ & Hh & _).
    simplify_eq.
    apply bind_Ok in H as (v2 & ? & [= <- <-] & H). simpl in H.
    assert (Hlt : (P < length (arena_ v))%nat) by (by eapply lookup_lt_Some).
    apply bind_Ok in H as (t2 & ? & [Ht2 ->]%lift_deref_Ok & H).
    apply bind_Ok in H as (t3 & ? & [Ht3 ->]%lift_deref_Ok & H).
    simpl in Ht2, Ht3.
    rewrite list_lookup_insert_eq in Ht2, Ht3 by done.
    injection Ht2 as <-. injection Ht3 as <-.
    apply bind_Ok in H as (? & v3 & [= <- <-] & H). simpl in H.
    apply bind_Ok in H as (? & v4 & Hadd & H).
    apply add_ref_Ok in Hadd as (t4 & Ht4 & _ & ->). simpl in Ht4.
    apply bind_Ok in H as (? & v5 & [= <- <-] & H). injection H as <- <-.
    rewrite list_insert_insert_eq in Ht4.
    rewrite list_lookup_insert_eq in Ht4 by done.
    injection Ht4 as <-.
    split; [|split; [done|]].
    + simpl. rewrite !list_insert_insert_eq.
      eapply frame_insert; [done|]. unfold same_kind. simpl. done.
    + exists [EvPin P; EvAlloc P (TokenAllocator.storage_ids_
                                    (allocator_ (derived v)))
                         (Is2DStorage (storage_scope t))].
      split; [simpl; by rewrite Hh|].
      replace (storage_scope t) with (scope_of (arena_ v) P)
        by (unfold scope_of; by rewrite Hd).
      constructor; [by rewrite Hd|constructor].
Qed.

End AssignmentFrame.

Section AssignmentPass.
Import StorageAllocator.

Lemma assigns_same (v v' : St) :
  arena_ v' = arena_ v → derived v' = derived v → assigns v v'.
Proof.
  intros Ha Hd. unfold assigns. rewrite Ha, Hd.
  split; [apply frame_refl|]. split; [done|].
  exists []. split; [done|constructor].
Qed.

Lemma assigns_set_tokens op toks (v : St) u v' :
  set_tokens op toks v = Ok (u, v') → assigns v v'.
Proof. intros [= <- <-]. by apply assigns_same. Qed.

Lemma assigns_visited n (v : St) :
  assigns v (mkVisitor (arena_ v) (token_map_ v) ({[n]} ∪ visit_counter_ v)
               (assigned v) (derived v)).
Proof. by apply assigns_same. Qed.

Lemma assigns_create_all b protos v toks v' :
  create_all b protos v = Ok (toks, v') → assigns v v'.
Proof.
  revert v toks. induction protos as [|P protos IH]; intros v toks H;
    simpl in H.
  - injection H as <- <-. apply assigns_refl.
  - apply bind_Ok in H as (t & v1 & Hone & H).
    apply bind_Ok in H as (ts & v2 & Hall & H). injection H as <- <-.
    eapply assigns_trans; [by eapply assigns_create_one|by eapply IH].
Qed.

Lemma assigns_CreateToken op ty b v u v' :
  CreateToken op ty b v = Ok (u, v') → assigns v v'.
Proof.
  unfold CreateToken. intros H.
  apply bind_Ok in H as (v0 & ? & [= <- <-] & H).
  apply bind_Ok in H as (? & ? & [_ ->]%ICHECK_Ok & H).
  destruct (prototype_ (derived v) !! op) as [protos|]; [|done].
  apply bind_Ok in H as (tokens & v1 & Hall & H).
  eapply assigns_trans; [by eapply assigns_create_all|].
  by eapply assigns_set_tokens.
Qed.

Lemma assigns_VisitCall op ty gets v u v' :
  Forall (λ g, ∀ v1 r v2, g v1 = Ok (r, v2) → assigns v1 v2) gets →
  VisitCall op ty gets v = Ok (u, v') → assigns v v'.
Proof.
  intros Hgets. unfold VisitCall. intros H.
  apply bind_Ok in H as (args & v1 & Hargs & H).
  apply bind_Ok in H as (? & v2 & Hcreate & H).
  apply bind_Ok in H as (toks & v3 & [-> _]%find_tokens_Ok & H).
  apply bind_Ok in H as (? & v4 & Hchecks & H).
  eapply assigns_trans;
    [eapply (collect_rel assigns assigns_refl assigns_trans); eassumption|].
  eapply assigns_trans; [by eapply assigns_CreateToken|].
  eapply assigns_trans.
  - eapply (for_each_rel assigns assigns_refl assigns_trans); [|exact Hchecks].
    intros T w1 u1 w2 _ Hc. by eapply assigns_CheckForRelease.
  - eapply (for_each_rel assigns assigns_refl assigns_trans); [|exact H].
    intros T w1 u1 w2 _ Hc.
    apply bind_Ok in Hc as (? & w3 & Hadd & Hc).
    eapply assigns_trans; [by eapply assigns_add_ref|].
    by eapply assigns_CheckForRelease.
Qed.

Lemma assigns_Run func v u v' :
  Run CreateToken VisitCall func v = Ok (u, v') → assigns v v'.
Proof.
  apply (Run_rel CreateToken VisitCall assigns assigns_refl assigns_trans).
  - apply assigns_set_tokens.
  - apply assigns_visited.
  - apply assigns_CreateToken.
  - apply assigns_VisitCall.
  - apply @assigns_add_ref.
Qed.

Lemma Assign_assigns func proto v :
  Assign func proto = Ok v →
  assigns (init (arena_ proto) (token_map_ proto)) v.
Proof.
  unfold Assign. intros H.
  apply rbind_Ok in H as ([u v0] & Hrun & H). injection H as <-.
  by eapply assigns_Run.
Qed.

End AssignmentPass.

(** ** Two small graphs *)

Section Graphs.

Definition tensor (dims : list Z) (dt : DataType) : Ty :=
  TensorType (mkTensorType (map IntImm dims) dt).

(** [fn (x) { op(op(op(x))) }] on ten [float32]: three calls in a chain,
    nodes 1 (innermost) to 3, the parameter being node 0. *)
Definition chain : Function :=
  mkFunction [(0%nat, tensor [10] float32)]
    (Call 3 (tensor [10] float32)
       [Call 2 (tensor [10] float32)
          [Call 1 (tensor [10] float32) [Var 0]]]).

(** [fn (x) { op2(op1(x), op4(x)) }] whose three calls produce textures. *)
Definition texture_graph : Function :=
  mkFunction [(0%nat, tensor [1; 64; 64; 4] float32)]
    (Call 2 (tensor [1; 32; 128; 4] float32)
       [Call 1 (tensor [1; 64; 64; 4] float32) [Var 0];
        Call 4 (tensor [1; 64; 64; 4] float32) [Var 0]]).
Definition texture_scopes : gmap node (list string) :=
  {[ 1%nat := ["texture"]; 2%nat := ["texture"]; 4%nat := ["texture"] ]}.

(** The state a successful pass leaves, for a graph known to be planned. *)
Definition proto_of (func : Function) (dev_map : gmap node Z)
    (storage_map : gmap node (list string)) : StorageAllocaInit.St :=
  match StorageAllocaInit.GetInitTokenMap func dev_map storage_map with
  | Ok proto => proto
  | Err _ => StorageAllocaInit.init dev_map storage_map
  end.
Definition assigned_of (func : Function) (proto : StorageAllocaInit.St)
  : StorageAllocator.St :=
  match StorageAllocator.Assign func proto with
  | Ok v => v
  | Err _ => StorageAllocator.init [] ∅
  end.

Definition chain_proto : StorageAllocaInit.St := proto_of chain ∅ ∅.
Definition chain_assigned : StorageAllocator.St :=
  assigned_of chain chain_proto.
Definition texture_proto : StorageAllocaInit.St :=
  proto_of texture_graph ∅ texture_scopes.
Definition texture_assigned : StorageAllocator.St :=
  assigned_of texture_graph texture_proto.

Lemma chain_planned :
  StorageAllocaInit.GetInitTokenMap chain ∅ ∅ = Ok chain_proto
  ∧ StorageAllocator.Assign chain chain_proto = Ok chain_assigned.
Proof. split; vm_compute; reflexivity. Qed.

Lemma texture_graph_planned :
  StorageAllocaInit.GetInitTokenMap texture_graph ∅ texture_scopes
  = Ok texture_proto
  ∧ StorageAllocator.Assign texture_graph texture_proto
    = Ok texture_assigned.
Proof. split; vm_compute; reflexivity. Qed.

End Graphs.

(** ** Prototypes are consumed; requests are for "global" tokens only *)

Section AssignmentHistory.
Import StorageAllocator.

(** C10, as stated, fails: on the chain of three calls the prototype token
    of the parameter (token 0, listed by the prototype map under node 0)
    leaves the liveness pass with storage id -1 and no size, and the
    assignment pass with storage id 0 and 40 bytes; the prototype token of
    the innermost call (token 3, under node 1) goes from storage id -1 and
    reference count 1 to storage id 1 and reference count 2. *)
Lemma prototype_tokens_are_written :
  ∃ t0 t0' t3 t3',
    StorageAllocaInit.GetInitTokenMap chain ∅ ∅ = Ok chain_proto
    ∧ Assign chain chain_proto = Ok chain_assigned
    ∧ token_map_ chain_proto !! 0%nat = Some [0%nat]
    ∧ token_map_ chain_proto !! 1%nat = Some [3%nat]
    ∧ arena_ chain_proto !! 0%nat = Some t0
    ∧ arena_ chain_assigned !! 0%nat = Some t0'
    ∧ arena_ chain_proto !! 3%nat = Some t3
    ∧ arena_ chain_assigned !! 3%nat = Some t3'
    ∧ (storage_id t0, max_bytes t0) = (-1, 0)
    ∧ (storage_id t0', max_bytes t0') = (0, 40)
    ∧ (storage_id t3, ref_counter t3) = (-1, 1)
    ∧ (storage_id t3', ref_counter t3') = (1, 2).
Proof.
  eexists _, _, _, _. split_and!; vm_compute; reflexivity.
Qed.

(** C10, amended: the assignment pass consumes the prototype tokens: it
    writes [storage_id], [max_bytes] and [ref_counter] of the tokens the
    liveness pass built; the fields it leaves as the liveness pass set
    them, for every token, are [ttype], [device_type] and [storage_scope],
    and it creates no token. *)
Theorem Assign_keeps_token_kinds func proto v :
  Assign func proto = Ok v →
  length (arena_ v) = length (arena_ proto)
  ∧ ∀ p t, arena_ proto !! p = Some t →
      ∃ t', arena_ v !! p = Some t'
            ∧ ttype t' = ttype t ∧ device_type t' = device_type t
            ∧ storage_scope t' = storage_scope t.
Proof.
  intros H. apply Assign_assigns in H as (Hframe & _). exact Hframe.
Qed.

Lemma Assign_keeps_token_kinds_witness :
  Assign chain chain_proto = Ok chain_assigned
  ∧ length (arena_ chain_assigned) = length (arena_ chain_proto).
Proof.
  split; [apply chain_planned|].
  apply (Assign_keeps_token_kinds chain chain_proto chain_assigned).
  apply chain_planned.
Defined.

Definition is_request (e : Event) : bool :=
  match e with EvRequest _ _ _ => true | _ => false end.


Lemma blocks_requests h l P b r :
  blocks h l → EvRequest P b r ∈ l →
  b = false ∧ scope_of h P = "global".
Proof.
  induction 1 as [|P' T l Hs Hp _ IH|P' id l Hs Hp _ IH|P' id l Hp _ IH
                 |T rc l Hp _ IH]; intros Hin.
  - by apply elem_of_nil in Hin.
  - apply elem_of_cons in Hin as [Heq|Hin]; [by simplify_eq|auto].
  - apply elem_of_cons in Hin as [Heq|Hin]; [done|].
    apply elem_of_cons in Hin as [Heq|Hin]; [by simplify_eq|auto].
  - apply elem_of_cons in Hin as [Heq|Hin]; [done|].
    apply elem_of_cons in Hin as [Heq|Hin]; [done|auto].
  - apply elem_of_cons in Hin as [Heq|Hin]; [done|auto].
Qed.



End AssignmentHistory.

(** ** Invariants of a visit that speak of the token lists handed around

    [I] is a property of the state, [R] relates the states before and after
    a step, [V] is a property of a list of tokens that holds of every list
    read from [token_map_] and survives the steps. *)

Section VisitInv.
Context {D : Type}.
Variable CreateToken : node → Ty → bool → M (Visitor D) unit.
Variable VisitCall :
  node → Ty → list (M (Visitor D) (list tokptr)) → M (Visitor D) unit.
Variable I : Visitor D → Prop.
Variable R : Visitor D → Visitor D → Prop.
Variable V : Visitor D → list tokptr → Prop.

Definition step_ok (v v' : Visitor D) : Prop := I v' ∧ R v v'.

Hypothesis R_refl : ∀ v, R v v.
Hypothesis R_trans : ∀ v1 v2 v3, R v1 v2 → R v2 v3 → R v1 v3.
Hypothesis V_mono : ∀ v v' l, R v v' → V v l → V v' l.
Hypothesis V_nil : ∀ v, V v [].
Hypothesis V_app : ∀ v l1 l2, V v l1 → V v l2 → V v (l1 ++ l2).
Hypothesis V_lookup : ∀ v l (i : nat) t, V v l → l !! i = Some t → V v [t].
Hypothesis I_find : ∀ v n toks,
  I v → token_map_ v !! n = Some toks → V v toks.
Hypothesis step_set_tokens : ∀ op toks v u v',
  I v → V v toks → set_tokens op toks v = Ok (u, v') → step_ok v v'.
Hypothesis step_visited : ∀ n v,
  I v →
  step_ok v (mkVisitor (arena_ v) (token_map_ v) ({[n]} ∪ visit_counter_ v)
               (assigned v) (derived v)).
Hypothesis step_CreateToken : ∀ op ty b v u v',
  I v → CreateToken op ty b v = Ok (u, v') → step_ok v v'.
Hypothesis step_VisitCall : ∀ op ty gets v u v',
  I v →
  Forall (λ g, ∀ v1 r v2, I v1 → g v1 = Ok (r, v2) → step_ok v1 v2 ∧ V v2 r)
    gets →
  VisitCall op ty gets v = Ok (u, v') → step_ok v v'.

Lemma step_ok_trans v1 v2 v3 : step_ok v1 v2 → step_ok v2 v3 → step_ok v1 v3.
Proof. intros [_ H1] [H2 H3]. split; [done|]. by eapply R_trans. Qed.

Lemma collect_inv gets v toks v' :
  I v →
  Forall (λ g, ∀ v1 r v2, I v1 → g v1 = Ok (r, v2) → step_ok v1 v2 ∧ V v2 r)
    gets →
  collect gets v = Ok (toks, v') → step_ok v v' ∧ V v' toks.
Proof.
  revert v toks. induction gets as [|g gets IH]; intros v toks Hv Hg H.
  - simpl in H. injection H as <- <-. split; [by split|apply V_nil].
  - apply Forall_cons in Hg as [Hg Hgs]. simpl in H.
    apply bind_Ok in H as (r & v1 & Hr & H).
    apply bind_Ok in H as (rest & v2 & Hrest & H). injection H as <- <-.
    destruct (Hg _ _ _ Hv Hr) as [Hs1 Hr1].
    destruct (IH _ _ (proj1 Hs1) Hgs Hrest) as [Hs2 Hr2].
    split; [by eapply step_ok_trans|].
    apply V_app; [|done]. eapply V_mono; [exact (proj2 Hs2)|done].
Qed.

Lemma memoised_inv n (visit : M (Visitor D) unit) v u v' :
  I v →
  (∀ v1 u1 v2, I v1 → visit v1 = Ok (u1, v2) → step_ok v1 v2) →
  memoised n visit v = Ok (u, v') → step_ok v v'.
Proof.
  intros Hv Hvisit. unfold memoised. case_bool_decide.
  - intros [= <- <-]. by split.
  - destruct (visit v) as [[u1 v1]|] eqn:Hrun; [|done]. intros [= <- <-].
    pose proof (Hvisit _ _ _ Hv Hrun) as Hs.
    eapply step_ok_trans; [exact Hs|]. apply step_visited. apply Hs.
Qed.

Lemma get_inv (visit : M (Visitor D) unit) n v toks v' :
  I v →
  (∀ v1 u1 v2, I v1 → visit v1 = Ok (u1, v2) → step_ok v1 v2) →
  (visit ;; find_tokens n) v = Ok (toks, v') → step_ok v v' ∧ V v' toks.
Proof.
  intros Hv Hvisit H. apply bind_Ok in H as (u & v1 & Hrun & H).
  apply find_tokens_Ok in H as [-> Hfind].
  pose proof (Hvisit _ _ _ Hv Hrun) as Hs.
  split; [done|]. eapply I_find; [apply Hs|done].
Qed.

Lemma VisitExpr_inv e :
  ∀ v u v', I v → VisitExpr CreateToken VisitCall e v = Ok (u, v') →
            step_ok v v'.
Proof.
  induction e as [n ty|n|n|n|n|n ty args IH|n fields IH|n tuple index IH
                 |n var value body IHv IHb|n] using Expr_nested_ind;
    intros v u v' Hv H; simpl in H;
    (eapply memoised_inv; [exact Hv| |exact H]); clear H Hv v u v';
    intros v u v' Hv H.
  - eapply step_CreateToken; eassumption.
  - injection H as <- <-. by split.
  - injection H as <- <-. by split.
  - injection H as <- <-. by split.
  - injection H as <- <-. by split.
  - eapply step_VisitCall; [exact Hv| |exact H].
    apply Forall_fmap. eapply Forall_impl; [exact IH|].
    intros arg Harg v1 r v2 Hv1 Hg. eapply get_inv; [exact Hv1|exact Harg|exact Hg].
  - apply bind_Ok in H as (toks & v1 & Hcollect & H).
    eapply collect_inv in Hcollect as [Hs Htoks]; [|exact Hv|].
    + eapply step_ok_trans; [exact Hs|].
      eapply step_set_tokens; [apply Hs|exact Htoks|exact H].
    + apply Forall_fmap. eapply Forall_impl; [exact IH|].
      intros arg Harg w1 r w2 Hw1 Hg.
      eapply get_inv; [exact Hw1|exact Harg|exact Hg].
  - apply bind_Ok in H as (tok & v1 & Hget & H).
    apply bind_Ok in H as (? & v2 & Hchk & H).
    apply ICHECK_Ok in Hchk as [_ ->].
    eapply get_inv in Hget as [Hs Htok]; [|exact Hv|exact IH].
    destruct (tok !! Z.to_nat index) as [t|] eqn:Ht; [|done].
    eapply step_ok_trans; [exact Hs|].
    eapply step_set_tokens; [apply Hs| |exact H].
    eapply V_lookup; eassumption.
  - apply bind_Ok in H as (token & v1 & Hget & H).
    apply bind_Ok in H as (? & v2 & Hset & H).
    apply bind_Ok in H as (btoks & v3 & Hgetb & H).
    eapply get_inv in Hget as [Hs1 Htoken]; [|exact Hv|exact IHv].
    pose proof (step_set_tokens _ _ _ _ _ (proj1 Hs1) Htoken Hset) as Hs2.
    eapply get_inv in Hgetb as [Hs3 Hbtoks]; [|apply Hs2|exact IHb].
    eapply step_ok_trans; [exact Hs1|].
    eapply step_ok_trans; [exact Hs2|].
    eapply step_ok_trans; [exact Hs3|].
    eapply step_set_tokens; [apply Hs3|exact Hbtoks|exact H].
  - done.
Qed.

Lemma GetToken_inv e v toks v' :
  I v → GetToken CreateToken VisitCall e v = Ok (toks, v') →
  step_ok v v' ∧ V v' toks.
Proof.
  intros Hv H. eapply get_inv; [exact Hv| |exact H].
  intros. eapply VisitExpr_inv; eassumption.
Qed.

Hypothesis step_add_ref : ∀ tok v u v',
  I v → add_ref 1 tok v = Ok (u, v') → step_ok v v'.

Lemma for_each_inv {A} (xs : list A) (body : A → M (Visitor D) unit) v u v' :
  I v →
  (∀ x v1 u1 v2, x ∈ xs → I v1 → body x v1 = Ok (u1, v2) → step_ok v1 v2) →
  for_each xs body v = Ok (u, v') → step_ok v v'.
Proof.
  revert v. induction xs as [|x xs IH]; intros v Hv Hbody H; simpl in H.
  - injection H as <- <-. by split.
  - apply bind_Ok in H as (? & v1 & Hx & H).
    assert (Hs : step_ok v v1) by (eapply Hbody; [by left|done|exact Hx]).
    eapply step_ok_trans; [exact Hs|].
    eapply IH; [apply Hs| |exact H].
    intros y w1 u1 w2 Hy. apply Hbody. by right.
Qed.

Lemma Run_inv func v u v' :
  I v → Run CreateToken VisitCall func v = Ok (u, v') → step_ok v v'.
Proof.
  unfold Run. intros Hv H.
  apply bind_Ok in H as (? & v1 & Hparams & H).
  apply bind_Ok in H as (toks & v2 & Hget & H).
  assert (Hs1 : step_ok v v1).
  { eapply for_each_inv; [exact Hv| |exact Hparams].
    intros prm w1 u1 w2 _ Hw1 Hx.
    eapply step_CreateToken; [exact Hw1|exact Hx]. }
  eapply GetToken_inv in Hget as [Hs2 _]; [|apply Hs1].
  eapply step_ok_trans; [exact Hs1|].
  eapply step_ok_trans; [exact Hs2|].
  eapply for_each_inv; [apply Hs2| |exact H].
  intros tok w1 u1 w2 _ Hw1 Hx. eapply step_add_ref; [exact Hw1|exact Hx].
Qed.

End VisitInv.

(** ** The three ways a token is created by the assignment pass *)

Section CreateOne.
Import StorageAllocator.

(** The state of the pass with another arena and allocator. *)
Definition with_alloc (h : Arena) (a : TokenAllocator.t) (v : St) : St :=
  mkVisitor h (token_map_ v) (visit_counter_ v) (assigned v)
    (mkFields (prototype_ (derived v)) a).

Definition free1 (a : TokenAllocator.t) : list (Z * tokptr) :=
  TokenAllocator1D.free_ (TokenAllocator.token_1d_ a).
Definition free2 (a : TokenAllocator.t) : list Z :=
  TokenAllocator2D.free_list_ (TokenAllocator.token_2d_ a).

(** A free token of the 1d list is taken for the prototype [P]. *)
Definition reused (P : tokptr) (v : St) (r : tokptr) (v' : St) : Prop :=
  ∃ t tok it cached mb a',
    arena_ v !! P = Some t ∧ storage_scope t = "global"
    ∧ free1 (allocator_ (derived v)) !! it = Some (cached, r)
    ∧ arena_ v !! r = Some tok ∧ ref_counter tok = 0
    ∧ v' = with_alloc
             (<[r := set_ref_counter (ref_counter t) (set_max_bytes mb tok)]>
                (arena_ v)) a' v
    ∧ free1 a' = delete it (free1 (allocator_ (derived v)))
    ∧ free2 a' = free2 (allocator_ (derived v))
    ∧ TokenAllocator.history a'
      = EvRequest P false (Some r)
          :: TokenAllocator.history (allocator_ (derived v)).

(** The prototype [P] itself is allocated; [pin] tells whether this is the
    branch that increments its reference count. *)
Definition allocated (pin : bool) (P : tokptr) (v : St) (r : tokptr) (v' : St)
  : Prop :=
  ∃ t t' a',
    arena_ v !! P = Some t ∧ r = P
    ∧ same_kind t t'
    ∧ ref_counter t' = ref_counter t + (if pin then 1 else 0)
    ∧ v' = with_alloc (<[P := t']> (arena_ v)) a' v
    ∧ free1 a' = free1 (allocator_ (derived v))
    ∧ free2 a' = free2 (allocator_ (derived v))
    ∧ (if pin then
         ∃ id, TokenAllocator.history a'
               = EvPin P :: EvAlloc P id (Is2DStorage (storage_scope t))
                   :: TokenAllocator.history (allocator_ (derived v))
       else
         storage_scope t = "global"
         ∧ ∃ id, TokenAllocator.history a'
                 = EvAlloc P id false :: EvRequest P false None
                     :: TokenAllocator.history (allocator_ (derived v))).

Lemma create_one_Ok b P v r v' :
  create_one b P v = Ok (r, v') →
  (b = true ∧ (reused P v r v' ∨ allocated false P v r v'))
  ∨ allocated true P v r v'.
Proof.
  unfold create_one. intros H.
  apply bind_Ok in H as (v0 & ? & [= <- <-] & H).
  apply bind_Ok in H as (t & ? & [Hd ->]%lift_deref_Ok & H).
  destruct (b && bool_decide (storage_scope t = "global")) eqn:Hcase.
  - apply andb_true_iff in Hcase as [-> Hg%bool_decide_eq_true].
    left. split; [done|].
    unfold allocator_Request in H.
    apply rbind_Ok in H as ([[r0 h0] a0] & Hreq & H). injection H as <- <-.
    simpl.
    eapply Request_Ok_1d in Hreq as [Hhit|Hmiss];
      [| |exact Hd|by apply global_not_2d].
    + left.
      destruct Hhit as (size & it & cached & tok & proto & Hsize & Hit
                        & Htok & Hrc & Hdev & Hproto & -> & Hf1 & Hf2 & _ & Hh).
      exists t, tok, it, cached, (Z.max size (max_bytes tok)), a0.
      split_and!; try done; [|unfold free2; by rewrite Hf2].
      unfold with_alloc, set_allocator, set_derived, set_arena. simpl.
      do 3 f_equal.
      destruct (decide (r0 = P)) as [->|Hne].
      * rewrite list_lookup_insert_eq in Hproto by (by eapply lookup_lt_Some).
        simplify_eq. simpl. done.
      * rewrite list_lookup_insert_ne in Hproto by done. by simplify_eq.
    + right.
      destruct Hmiss as (a1 & Halloc & H1d & H2d & _ & Hh1).
      apply Alloc_Ok in Halloc
        as (t1 & t' & Ht1 & -> & -> & Hrc & Hty & Hdev & Hsc & _ & Hh & Hf1 & Hf2).
      simplify_eq. exists t, t', a0. split_and!; try done.
      * lia.
      * unfold free1 in *. by rewrite Hf1, H1d.
      * unfold free2 in *. by rewrite Hf2, H2d.
      * eexists. rewrite Hh, Hh1. by rewrite (global_not_2d _ Hg).
  - clear Hcase. right.
    apply bind_Ok in H as (r0 & v1 & Halloc & H).
    unfold allocator_Alloc in Halloc.
    apply rbind_Ok in Halloc as ([[r1 h1] a1] & Halloc & Hv1).
    injection Hv1 as <- <-.
    apply Alloc_Ok in Halloc
      as (t1 & t' & Ht1 & -> & -> & Hrc & Hty & Hdev & Hsc & _ & Hh & Hf1 & Hf2).
    simplify_eq.
    apply bind_Ok in H as (v2 & ? & [= <- <-] & H). simpl in H.
    assert (Hlt : (P < length (arena_ v))%nat) by (by eapply lookup_lt_Some).
    apply bind_Ok in H as (t2 & ? & [Ht2 ->]%lift_deref_Ok & H).
    apply bind_Ok in H as (t3 & ? & [Ht3 ->]%lift_deref_Ok & H).
    simpl in Ht2, Ht3.
    rewrite list_lookup_insert_eq in Ht2, Ht3 by done.
    injection Ht2 as <-. injection Ht3 as <-.
    apply bind_Ok in H as (? & v3 & [= <- <-] & H). simpl in H.
    apply bind_Ok in H as (? & v4 & Hadd & H).
    apply add_ref_Ok in Hadd as (t4 & Ht4 & _ & ->). simpl in Ht4.
    apply bind_Ok in H as (? & v5 & [= <- <-] & H). injection H as <- <-.
    rewrite list_insert_insert_eq in Ht4.
    rewrite list_lookup_insert_eq in Ht4 by done.
    injection Ht4 as <-.
    exists t, (set_ref_counter (ref_counter t' + 1)
                 (set_device_type (device_type t') t')),
      (TokenAllocator.log (EvPin P) a1).
    split_and!; try done.
    + simpl. lia.
    + unfold with_alloc, set_allocator, set_derived, set_arena. simpl.
      by rewrite !list_insert_insert_eq.
    + eexists. simpl. by rewrite Hh.
Qed.

End CreateOne.

(** ** Every token the assignment pass lists is a token of the arena *)

Section AssignmentValid.
Import StorageAllocator.

Definition valid_in {D} (v : Visitor D) (toks : list tokptr) : Prop :=
  Forall (λ p, is_Some (arena_ v !! p)) toks.
Definition lists_valid {D} (v : Visitor D) : Prop :=
  ∀ n toks, token_map_ v !! n = Some toks → valid_in v toks.

Lemma valid_in_length {D} (v v' : Visitor D) toks :
  length (arena_ v') = length (arena_ v) → valid_in v toks → valid_in v' toks.
Proof.
  intros Hlen Hv. eapply Forall_impl; [exact Hv|]. intros p Hp.
  apply lookup_lt_is_Some. apply lookup_lt_is_Some in Hp. lia.
Qed.

Lemma lists_valid_same {D} (v v' : Visitor D) :
  token_map_ v' = token_map_ v → length (arena_ v') = length (arena_ v) →
  lists_valid v → lists_valid v'.
Proof.
  intros Htm Hlen Hv n toks Hn. rewrite Htm in Hn.
  eapply valid_in_length; [done|]. by eapply Hv.
Qed.

Lemma lists_valid_set_tokens {D} op toks (v : Visitor D) u v' :
  lists_valid v → valid_in v toks → set_tokens op toks v = Ok (u, v') →
  lists_valid v'.
Proof.
  intros Hv Htoks [= <- <-] n l Hn. simpl in Hn.
  destruct (decide (op = n)) as [->|Hne].
  - rewrite lookup_insert_eq in Hn. by simplify_eq.
  - rewrite lookup_insert_ne in Hn by done. by eapply Hv.
Qed.

Lemma assigns_length v v' :
  assigns v v' → length (arena_ v') = length (arena_ v).
Proof. by intros [[Hlen _] _]. Qed.

Lemma create_one_valid b P v r v' :
  create_one b P v = Ok (r, v') →
  token_map_ v' = token_map_ v ∧ is_Some (arena_ v' !! r).
Proof.
  intros H. pose proof (assigns_length _ _ (assigns_create_one _ _ _ _ _ H)) as Hl.
  apply create_one_Ok in H as [[_ [Hr|Ha]]|Ha].
  - destruct Hr as (t & tok & it & cached & mb & a' & _ & _ & _ & Htok & _ & -> & _).
    split; [done|]. apply lookup_lt_is_Some. rewrite Hl.
    by eapply lookup_lt_Some.
  - destruct Ha as (t & t' & a' & Ht & -> & _ & _ & -> & _).
    split; [done|]. apply lookup_lt_is_Some. rewrite Hl.
    by eapply lookup_lt_Some.
  - destruct Ha as (t & t' & a' & Ht & -> & _ & _ & -> & _).
    split; [done|]. apply lookup_lt_is_Some. rewrite Hl.
    by eapply lookup_lt_Some.
Qed.

Lemma create_all_valid b protos v toks v' :
  create_all b protos v = Ok (toks, v') →
  token_map_ v' = token_map_ v ∧ valid_in v' toks.
Proof.
  revert v toks. induction protos as [|P protos IH]; intros v toks H;
    simpl in H.
  - injection H as <- <-. split; [done|constructor].
  - apply bind_Ok in H as (t & v1 & Hone & H).
    apply bind_Ok in H as (ts & v2 & Hall & H). injection H as <- <-.
    pose proof (assigns_length _ _ (assigns_create_all _ _ _ _ _ Hall)) as Hl.
    apply create_one_valid in Hone as [Htm1 Ht].
    apply IH in Hall as [Htm2 Hts].
    split; [congruence|]. constructor; [|done].
    apply lookup_lt_is_Some. rewrite Hl. by apply lookup_lt_is_Some.
Qed.

Definition valid_step (v v' : St) : Prop := lists_valid v' ∧ assigns v v'.

Lemma valid_step_same v v' :
  lists_valid v → token_map_ v' = token_map_ v → assigns v v' →
  valid_step v v'.
Proof.
  intros Hv Htm Ha. split; [|done].
  eapply lists_valid_same; [done|by apply assigns_length|done].
Qed.

Lemma add_ref_token_map {D} d tok (v : Visitor D) u v' :
  add_ref d tok v = Ok (u, v') → token_map_ v' = token_map_ v.
Proof. intros H. by apply add_ref_Ok in H as (t & _ & _ & ->). Qed.

Lemma CheckForRelease_token_map T v u v' :
  allocator_CheckForRelease T v = Ok (u, v') → token_map_ v' = token_map_ v.
Proof.
  unfold allocator_CheckForRelease. intros H.
  apply rbind_Ok in H as (a' & _ & H). by injection H as <- <-.
Qed.

Lemma valid_CreateToken op ty b v u v' :
  lists_valid v → CreateToken op ty b v = Ok (u, v') → valid_step v v'.
Proof.
  intros Hv H. split; [|by eapply assigns_CreateToken].
  unfold CreateToken in H.
  apply bind_Ok in H as (v0 & ? & [= <- <-] & H).
  apply bind_Ok in H as (? & ? & [_ ->]%ICHECK_Ok & H).
  destruct (prototype_ (derived v) !! op) as [protos|]; [|done].
  apply bind_Ok in H as (tokens & v1 & Hall & H).
  pose proof (assigns_length _ _ (assigns_create_all _ _ _ _ _ Hall)) as Hl.
  apply create_all_valid in Hall as [Htm Htoks].
  eapply lists_valid_set_tokens; [|exact Htoks|exact H].
  by eapply lists_valid_same.
Qed.

Lemma valid_step_trans v1 v2 v3 :
  valid_step v1 v2 → valid_step v2 v3 → valid_step v1 v3.
Proof. intros [_ H1] [H2 H3]. split; [done|]. by eapply assigns_trans. Qed.

Lemma valid_in_assigns (v v' : St) l :
  assigns v v' → valid_in v l → valid_in v' l.
Proof. intros Ha. apply valid_in_length. by apply assigns_length. Qed.

Lemma valid_VisitCall op ty gets v u v' :
  lists_valid v →
  Forall (λ g, ∀ v1 r v2, lists_valid v1 → g v1 = Ok (r, v2) →
               valid_step v1 v2 ∧ valid_in v2 r) gets →
  VisitCall op ty gets v = Ok (u, v') → valid_step v v'.
Proof.
  intros Hv Hgets H. unfold VisitCall in H.
  apply bind_Ok in H as (args & v1 & Hargs & H).
  apply bind_Ok in H as (? & v2 & Hcreate & H).
  apply bind_Ok in H as (toks & v3 & [-> _]%find_tokens_Ok & H).
  apply bind_Ok in H as (? & v4 & Hchecks & H).
  eapply (collect_inv lists_valid assigns (λ v l, valid_in v l)
            assigns_refl assigns_trans valid_in_assigns) in Hargs
    as [Hs1 _]; [|by constructor|by intros; apply Forall_app_2|done|done].
  eapply valid_step_trans; [exact Hs1|].
  pose proof (valid_CreateToken _ _ _ _ _ _ (proj1 Hs1) Hcreate) as Hs2.
  eapply valid_step_trans; [exact Hs2|].
  assert (Hs3 : valid_step v2 v4).
  { eapply (for_each_inv lists_valid assigns assigns_refl assigns_trans);
      [apply Hs2| |exact Hchecks].
    intros T w1 u1 w2 _ Hw1 Hc. apply valid_step_same; [done| |].
    - by eapply CheckForRelease_token_map.
    - by eapply assigns_CheckForRelease. }
  eapply valid_step_trans; [exact Hs3|].
  eapply (for_each_inv lists_valid assigns assigns_refl assigns_trans);
    [apply Hs3| |exact H].
  intros T w1 u1 w2 _ Hw1 Hc.
  apply bind_Ok in Hc as (? & w3 & Hadd & Hc).
  apply valid_step_same; [done| |].
  - rewrite (CheckForRelease_token_map _ _ _ _ Hc).
    by eapply add_ref_token_map.
  - eapply assigns_trans; [by eapply assigns_add_ref|].
    by eapply assigns_CheckForRelease.
Qed.

Lemma valid_Run func v u v' :
  lists_valid v → Run CreateToken VisitCall func v = Ok (u, v') →
  valid_step v v'.
Proof.
  apply (Run_inv CreateToken VisitCall lists_valid assigns
           (λ v l, valid_in v l) assigns_refl assigns_trans valid_in_assigns).
  - by constructor.
  - intros; by apply Forall_app_2.
  - intros w l i t Hl Hi. constructor; [|constructor].
    exact (Forall_lookup_1 _ _ _ _ Hl Hi).
  - intros w n toks Hw Hn. by eapply Hw.
  - intros op toks w u1 w' Hw Htoks Hset. split.
    + by eapply lists_valid_set_tokens.
    + by eapply assigns_set_tokens.
  - intros n w Hw. by apply valid_step_same; [| |apply assigns_visited].
  - apply valid_CreateToken.
  - apply valid_VisitCall.
  - intros tok w u1 w' Hw Hadd. apply valid_step_same; [done| |].
    + by eapply add_ref_token_map.
    + by eapply assigns_add_ref.
Qed.

(** The lists of the final [token_map_] name tokens of the arena. *)
Lemma Assign_lists_valid func proto v :
  Assign func proto = Ok v → lists_valid v.
Proof.
  unfold Assign. intros H.
  apply rbind_Ok in H as ([u v0] & Hrun & H). injection H as <-.
  eapply valid_Run in Hrun as [Hv _]; [done|].
  intros n toks Hn. simpl in Hn. by rewrite lookup_empty in Hn.
Qed.

End AssignmentValid.

(** ** Plan: all tokens annotated, or none *)

Section PlanSerialisation.
Import StorageAllocator.

Lemma lists_valid_all_valid (v : St) :
  lists_valid v → all_valid (arena_ v) (listed (map_to_list (token_map_ v))).
Proof.
  intros Hv. unfold all_valid, listed. apply Forall_concat.
  apply Forall_fmap. apply Forall_forall. intros [n toks] Hin.
  apply elem_of_map_to_list in Hin. simpl. by eapply Hv.
Qed.

(** C9: when the two passes have succeeded, with [annot] of the [total]
    serialised tokens (those listed by [token_map_], at most INT_MAX of them)
    carrying a device type other than 0: if some but not all are annotated,
    [Plan] aborts with a fatal error whose message gives the two counts,
    "annot out of total ..."; if all or none are, it returns the map that
    gives every node of [token_map_] its triple (storage_ids, device_types,
    storage_scopes). *)
Theorem Plan_all_or_none func dev_map storage_map proto v :
  StorageAllocaInit.GetInitTokenMap func dev_map storage_map = Ok proto →
  Assign func proto = Ok v →
  let toks := listed (map_to_list (token_map_ v)) in
  let annot := count_annotated (arena_ v) toks in
  let total := Z.of_nat (length toks) in
  total ≤ INT_MAX →
  Plan func dev_map storage_map
  = if bool_decide (0 < annot < total)
    then Err (LOG_FATAL
                (show_int annot ++ " out of " ++ show_int total
                 ++ "expressions are assigned with virtual device types. "
                 ++ "Either all or none of the expressions are expected to be annotated."))
    else Ok (triple_of (arena_ v) <$> token_map_ v).
Proof.
  intros HL HA toks annot total Hmax. unfold Plan. rewrite HL. simpl.
  rewrite HA. simpl. apply serialize_all_or_none; [|done].
  apply lists_valid_all_valid. by eapply Assign_lists_valid.
Qed.

(** The texture graph with only node 1 placed on device 4. *)
Definition mixed_devices : gmap node Z := {[ 1%nat := 4 ]}.
Definition mixed_proto : StorageAllocaInit.St :=
  proto_of texture_graph mixed_devices texture_scopes.
Definition mixed_assigned : St := assigned_of texture_graph mixed_proto.

Lemma Plan_all_or_none_witness :
  Plan chain ∅ ∅
  = Ok (triple_of (arena_ chain_assigned) <$> token_map_ chain_assigned)
  ∧ Plan texture_graph mixed_devices texture_scopes
    = Err (LOG_FATAL
             "1 out of 4expressions are assigned with virtual device types. Either all or none of the expressions are expected to be annotated.").
Proof.
  split.
  - rewrite (Plan_all_or_none chain ∅ ∅ chain_proto chain_assigned).
    + reflexivity.
    + apply chain_planned.
    + apply chain_planned.
    + vm_compute. discriminate.
  - rewrite (Plan_all_or_none texture_graph mixed_devices texture_scopes
               mixed_proto mixed_assigned).
    + reflexivity.
    + vm_compute. reflexivity.
    + vm_compute. reflexivity.
    + vm_compute. discriminate.
Defined.

End PlanSerialisation.

(** ** The liveness pass only adds: tokens, references, map entries *)

Section Liveness.
Import StorageAllocaInit.

(** The reference count of a token of the arena. *)
Definition rc (h : Arena) (p : tokptr) : Z :=
  from_option ref_counter 0 (h !! p).

Lemma rc_insert_eq h p t :
  (p < length h)%nat → rc (<[p := t]> h) p = ref_counter t.
Proof. intros Hp. unfold rc. by rewrite list_lookup_insert_eq. Qed.

Lemma rc_insert_ne h p q t : p ≠ q → rc (<[p := t]> h) q = rc h q.
Proof. intros Hne. unfold rc. by rewrite list_lookup_insert_ne. Qed.

Lemma rc_lookup h p t : h !! p = Some t → rc h p = ref_counter t.
Proof. intros Ht. unfold rc. by rewrite Ht. Qed.

(** Every key of [token_map_] was written once at least. *)
Definition keys_assigned {D} (v : Visitor D) : Prop :=
  ∀ n, is_Some (token_map_ v !! n) → n ∈ assigned v.

Record grows {D} (v v' : Visitor D) : Prop := mkGrows {
  grows_assigned :
    ∃ new, assigned v' = new ++ assigned v
           ∧ ∀ n, n ∉ new → token_map_ v' !! n = token_map_ v !! n;
  grows_length : (length (arena_ v) ≤ length (arena_ v'))%nat;
  grows_rc : ∀ p, (p < length (arena_ v))%nat →
                  rc (arena_ v) p ≤ rc (arena_ v') p;
  grows_keys : keys_assigned v → keys_assigned v'
}.

Lemma grows_refl {D} (v : Visitor D) : grows v v.
Proof.
  split; [|done| |done].
  - exists []. by split.
  - intros. lia.
Qed.

Lemma grows_trans {D} (v1 v2 v3 : Visitor D) :
  grows v1 v2 → grows v2 v3 → grows v1 v3.
Proof.
  intros [(new1 & Ha1 & Hm1) Hl1 Hr1 Hk1] [(new2 & Ha2 & Hm2) Hl2 Hr2 Hk2].
  split.
  - exists (new2 ++ new1). split; [by rewrite Ha2, Ha1, app_assoc|].
    intros n Hn. apply not_elem_of_app in Hn as [Hn2 Hn1].
    by rewrite Hm2, Hm1.
  - lia.
  - intros p Hp. etrans; [by apply Hr1|]. apply Hr2. lia.
  - auto.
Qed.

Lemma grows_set_tokens {D} op toks (v : Visitor D) u v' :
  set_tokens op toks v = Ok (u, v') → grows v v'.
Proof.
  intros [= <- <-]. split; simpl; [|done|intros; lia|].
  - exists [op]. split; [done|]. intros n Hn.
    apply not_elem_of_cons in Hn as [Hn _]. by rewrite lookup_insert_ne.
  - intros Hk n Hn. simpl in *.
    destruct (decide (op = n)) as [->|Hne]; [by left|].
    rewrite lookup_insert_ne in Hn by done. right. by apply Hk.
Qed.

Lemma grows_same {D} (v v' : Visitor D) :
  arena_ v' = arena_ v → token_map_ v' = token_map_ v →
  assigned v' = assigned v → grows v v'.
Proof.
  intros Ha Ht Hs. split.
  - exists []. rewrite Hs, Ht. by split.
  - by rewrite Ha.
  - intros p _. by rewrite Ha.
  - unfold keys_assigned. by rewrite Ht, Hs.
Qed.

Lemma grows_add_ref {D} tok (v : Visitor D) u v' :
  add_ref 1 tok v = Ok (u, v') → grows v v'.
Proof.
  intros H. apply add_ref_Ok in H as (t & Ht & _ & ->). split; simpl.
  - exists []. by split.
  - by rewrite length_insert.
  - intros p Hp. destruct (decide (tok = p)) as [->|Hne].
    + rewrite rc_insert_eq by done. rewrite (rc_lookup _ _ _ Ht). simpl. lia.
    + by rewrite rc_insert_ne.
  - done.
Qed.

(** What [CreateToken] of the liveness pass does: new tokens with no
    reference, at the end of the arena, listed under the node. *)
Definition created (op : node) (v v' : St) (ps : list tokptr) : Prop :=
  ∃ news,
    token_map_ v !! op = None
    ∧ arena_ v' = arena_ v ++ news
    ∧ ps = seq (length (arena_ v)) (length news)
    ∧ Forall (λ t, ref_counter t = 0) news
    ∧ token_map_ v' = <[op := ps]> (token_map_ v)
    ∧ assigned v' = op :: assigned v
    ∧ visit_counter_ v' = visit_counter_ v
    ∧ derived v' = derived v.

Lemma make_Ok t (v : St) p v' :
  make t v = Ok (p, v') →
  p = length (arena_ v) ∧ v' = set_arena (arena_ v ++ [t]) v.
Proof. by intros [= <- <-]. Qed.

Lemma make_token_Ok ty dev info i (v : St) p v' :
  make_token ty dev info i v = Ok (p, v') →
  ∃ t, ref_counter t = 0 ∧ p = length (arena_ v)
       ∧ v' = set_arena (arena_ v ++ [t]) v.
Proof.
  unfold make_token. intros H. destruct ty as [tty| |]; [|done..].
  destruct info as [info|].
  - destruct (info !! i); [|done]. apply make_Ok in H as [-> ->].
    eexists. split; [|done]. done.
  - apply make_Ok in H as [-> ->]. eexists. split; [|done]. done.
Qed.

Lemma make_tokens_Ok fields dev info i (v : St) ps v' :
  make_tokens fields dev info i v = Ok (ps, v') →
  ∃ news,
    Forall (λ t, ref_counter t = 0) news
    ∧ ps = seq (length (arena_ v)) (length news)
    ∧ v' = set_arena (arena_ v ++ news) v.
Proof.
  revert i v ps. induction fields as [|ty fields IH]; intros i v ps H;
    simpl in H.
  - injection H as <- <-. exists []. split_and!; [done|done|].
    destruct v. unfold set_arena. simpl. by rewrite app_nil_r.
  - apply bind_Ok in H as (p & v1 & Hp & H).
    apply bind_Ok in H as (ps' & v2 & Hps & H). injection H as <- <-.
    apply make_token_Ok in Hp as (t & Ht & -> & ->).
    apply IH in Hps as (news & Hnews & -> & ->). simpl.
    exists (t :: news). split_and!.
    + by constructor.
    + simpl. rewrite length_app. simpl. f_equal. f_equal. lia.
    + unfold set_arena. simpl. by rewrite <- app_assoc.
Qed.

Lemma CreateToken_Ok op ty b (v : St) u v' :
  CreateToken op ty b v = Ok (u, v') → ∃ ps, created op v v' ps.
Proof.
  unfold CreateToken. intros H.
  apply bind_Ok in H as (v0 & ? & [= <- <-] & H).
  apply bind_Ok in H as (? & ? & [Hnone ->]%ICHECK_Ok & H).
  apply negb_true_iff, bool_decide_eq_false in Hnone.
  assert (Hop : token_map_ v !! op = None).
  { destruct (token_map_ v !! op) eqn:E; [|done]. destruct Hnone. by eexists. }
  apply bind_Ok in H as (tokens & v1 & Htokens & H).
  injection H as <- <-.
  assert (∃ news, Forall (λ t, ref_counter t = 0) news
                  ∧ tokens = seq (length (arena_ v)) (length news)
                  ∧ v1 = set_arena (arena_ v ++ news) v)
    as (news & Hnews & -> & ->).
  { destruct ty as [tty|fields|].
    - apply bind_Ok in Htokens as (p & v2 & Hp & Htokens).
      injection Htokens as <- <-.
      apply make_token_Ok in Hp as (t & Ht & -> & ->).
      exists [t]. split_and!; [by constructor|done|done].
    - apply bind_Ok in Htokens as (? & v2 & Hchk & Htokens).
      assert (v2 = v) as ->.
      { destruct (node_storage_map_ (derived v) !! op).
        - by apply ICHECK_Ok in Hchk as [_ ->].
        - by injection Hchk as <- <-. }
      by apply make_tokens_Ok in Htokens.
    - apply bind_Ok in Htokens as (p & v2 & Hp & Htokens).
      injection Htokens as <- <-.
      apply make_token_Ok in Hp as (t & Ht & -> & ->).
      exists [t]. split_and!; [by constructor|done|done]. }
  eexists. exists news. split_and!; done.
Qed.

Lemma grows_created op (v v' : St) ps : created op v v' ps → grows v v'.
Proof.
  intros (news & Hnone & Ha & -> & Hnews & Htm & Has & _ & _). split.
  - exists [op]. split; [by rewrite Has|]. intros n Hn.
    apply not_elem_of_cons in Hn as [Hn _]. rewrite Htm.
    by rewrite lookup_insert_ne.
  - rewrite Ha, length_app. lia.
  - intros p Hp. unfold rc. rewrite Ha. by rewrite lookup_app_l.
  - intros Hk n Hn. rewrite Has. rewrite Htm in Hn.
    destruct (decide (op = n)) as [->|Hne]; [by left|].
    rewrite lookup_insert_ne in Hn by done. right. by apply Hk.
Qed.

Lemma grows_CreateToken op ty b (v : St) u v' :
  CreateToken op ty b v = Ok (u, v') → grows v v'.
Proof.
  intros H. apply CreateToken_Ok in H as [ps H]. by eapply grows_created.
Qed.

Lemma grows_VisitCall op ty gets (v : St) u v' :
  Forall (λ g, ∀ v1 r v2, g v1 = Ok (r, v2) → grows v1 v2) gets →
  VisitCall op ty gets v = Ok (u, v') → grows v v'.
Proof.
  intros Hgets. unfold VisitCall. intros H.
  apply bind_Ok in H as (? & v1 & Hcreate & H).
  eapply grows_trans; [by eapply grows_CreateToken|].
  clear Hcreate. revert v1 H.
  induction gets as [|g gets IH]; intros v1 H; simpl in H.
  - injection H as <- <-. apply grows_refl.
  - apply Forall_cons in Hgets as [Hg Hgets].
    apply bind_Ok in H as (? & v2 & Hbody & H).
    apply bind_Ok in Hbody as (toks & v3 & Hget & Hbody).
    eapply grows_trans; [by eapply Hg|].
    eapply grows_trans; [|by eapply IH].
    eapply (for_each_rel grows (@grows_refl _) (@grows_trans _));
      [|exact Hbody].
    intros tok w1 u1 w2 _ Hadd. by eapply grows_add_ref.
Qed.

Lemma grows_visited {D} n (v : Visitor D) :
  grows v (mkVisitor (arena_ v) (token_map_ v) ({[n]} ∪ visit_counter_ v)
             (assigned v) (derived v)).
Proof. by apply grows_same. Qed.

Lemma grows_VisitExpr e (v : St) u v' :
  VisitExpr CreateToken VisitCall e v = Ok (u, v') → grows v v'.
Proof.
  apply (VisitExpr_rel CreateToken VisitCall grows (@grows_refl _)
           (@grows_trans _)).
  - apply @grows_set_tokens.
  - apply @grows_visited.
  - apply grows_CreateToken.
  - apply grows_VisitCall.
Qed.

Lemma grows_GetToken e (v : St) toks v' :
  GetToken CreateToken VisitCall e v = Ok (toks, v') → grows v v'.
Proof.
  apply (GetToken_rel CreateToken VisitCall grows (@grows_refl _)
           (@grows_trans _)).
  - apply @grows_set_tokens.
  - apply @grows_visited.
  - apply grows_CreateToken.
  - apply grows_VisitCall.
Qed.

End Liveness.

(** ** The two passes side by side

    The assignment pass is followed together with a replay of the liveness
    pass on the same expression: every reference the liveness pass counts on
    a prototype is released once by the assignment pass, on the token that
    stands for this prototype. *)

Section Occurrences.

(** The number of occurrences of a token in a list. *)
Definition occ (P : tokptr) (l : list tokptr) : Z :=
  Z.of_nat (length (filter (λ x, x = P) l)).

Lemma occ_nil P : occ P [] = 0.
Proof. done. Qed.

Lemma occ_cons P x l :
  occ P (x :: l) = (if decide (x = P) then 1 else 0) + occ P l.
Proof.
  unfold occ. rewrite filter_cons. case_decide; simpl length; lia.
Qed.

Lemma occ_app P l1 l2 : occ P (l1 ++ l2) = occ P l1 + occ P l2.
Proof. unfold occ. rewrite filter_app, length_app. lia. Qed.

Lemma occ_nonneg P l : 0 ≤ occ P l.
Proof. unfold occ. lia. Qed.

Lemma occ_elem_of P l : P ∈ l → 1 ≤ occ P l.
Proof.
  induction l as [|x l IH]; intros Hin; [by apply elem_of_nil in Hin|].
  rewrite occ_cons. pose proof (occ_nonneg P l).
  apply elem_of_cons in Hin as [->|Hin].
  - rewrite decide_True by done. lia.
  - specialize (IH Hin). case_decide; lia.
Qed.

Lemma occ_not_elem_of P l : P ∉ l → occ P l = 0.
Proof.
  induction l as [|x l IH]; intros Hin; [done|].
  apply not_elem_of_cons in Hin as [Hne Hin]. rewrite occ_cons.
  rewrite decide_False by done. rewrite IH by done. lia.
Qed.

End Occurrences.

Section FreeList.
Import TokenAllocator1D.

Lemma insert_Permutation e l : insert e l ≡ₚ e :: l.
Proof.
  unfold insert. rewrite <- Permutation_middle.
  by rewrite take_drop.
Qed.

Lemma elem_of_insert e x l : x ∈ insert e l ↔ x = e ∨ x ∈ l.
Proof. rewrite insert_Permutation. apply elem_of_cons. Qed.

Lemma elem_of_delete_lookup {A} (l : list A) i x :
  x ∈ delete i l → x ∈ l.
Proof.
  intros Hin. apply list_elem_of_lookup in Hin as [j Hj].
  rewrite list_lookup_delete in Hj. apply list_elem_of_lookup. eauto.
Qed.

Lemma NoDup_delete_snd (l : list (Z * tokptr)) i k T :
  NoDup (l.*2) → l !! i = Some (k, T) →
  NoDup ((delete i l).*2) ∧ T ∉ (delete i l).*2.
Proof.
  intros Hnd Hi.
  assert (Hl : l = take i l ++ (k, T) :: drop (S i) l).
  { by rewrite <- (take_drop_middle l i (k, T)) at 1. }
  assert (Hd : delete i l = take i l ++ drop (S i) l).
  { apply delete_take_drop. }
  rewrite Hd. rewrite Hl in Hnd. rewrite fmap_app in *. simpl in Hnd.
  apply NoDup_app in Hnd as (H1 & H2 & H3).
  apply NoDup_cons in H3 as [H3 H4]. split.
  - apply NoDup_app. split_and!; [done| |done].
    intros x Hx Hx'. apply (H2 x Hx). by right.
  - intros Hin. apply elem_of_app in Hin as [Hin|Hin]; [|done].
    apply (H2 T Hin). by left.
Qed.

End FreeList.

(** What an event tells about the tokens: the token an event hands out, and
    the prototype it is handed out for. *)
Definition acquires (e : Event) : option (tokptr * tokptr) :=
  match e with
  | EvRequest P _ (Some T) => Some (P, T)
  | EvAlloc P _ _ => Some (P, P)
  | _ => None
  end.

(** In the history [l] (newest first), the token [T] is kept: it was pinned,
    or it was handed out for one of the prototypes [outs]. *)
Definition kept (outs : list tokptr) (l : list Event) (T : tokptr) : Prop :=
  EvPin T ∈ l ∨ ∃ e P, e ∈ l ∧ acquires e = Some (P, T) ∧ P ∈ outs.

(** Every release check of a token that is kept at that time sees at least
    one reference. *)
Definition checks_safe (outs : list tokptr) (l : list Event) : Prop :=
  ∀ l1 l2 T b c,
    l = l2 ++ EvCheckForRelease T b c :: l1 → kept outs l1 T → 1 ≤ c.

Lemma kept_cons outs e l T : kept outs l T → kept outs (e :: l) T.
Proof.
  intros [Hpin|(e' & P & He & Ha & Ho)].
  - left. by right.
  - right. exists e', P. split; [by right|done].
Qed.

Lemma checks_safe_nil outs : checks_safe outs [].
Proof. intros l1 l2 T b c H. by destruct l2. Qed.

Lemma checks_safe_cons outs e l :
  checks_safe outs l →
  (∀ T b c, e = EvCheckForRelease T b c → kept outs l T → 1 ≤ c) →
  checks_safe outs (e :: l).
Proof.
  intros Hl He l1 l2 T b c Heq Hk. destruct l2 as [|e2 l2]; simpl in Heq.
  - injection Heq as -> ->. by eapply He.
  - injection Heq as -> ->. by eapply Hl.
Qed.

Section Lockstep.
Import StorageAllocator.

(** [sEnd] is the state of the liveness pass once the body is visited, [outs]
    the tokens of the body, each of which then receives one more reference,
    and [F] the arena this leaves, from which the assignment pass starts. *)
Variable sEnd : StorageAllocaInit.St.
Variable outs : list tokptr.
Variable F : Arena.
Hypothesis F_length : length F = length (arena_ sEnd).
Hypothesis F_rc : ∀ P, rc F P = rc (arena_ sEnd) P + occ P outs.
Hypothesis sEnd_NoDup : NoDup (assigned sEnd).

Record Ghost : Type := mkGhost {
  token_of : gmap tokptr tokptr;    (* prototype ↦ the token standing for it *)
  holder : gmap tokptr tokptr;      (* token ↦ the prototype it stands for *)
  pinned : gset tokptr
}.

(** The references of the prototype [P] that are still to be released: those
    the liveness pass has yet to count, and those counted for calls whose
    arguments are being visited ([pend]). *)
Definition need (hL : Arena) (pend : list tokptr) (P : tokptr) : Z :=
  rc F P - rc hL P + occ P pend.

Definition pin (g : Ghost) (T : tokptr) : Z :=
  if decide (T ∈ pinned g) then 1 else 0.

Definition stands_for (g : Ghost) (ps ts : list tokptr) : Prop :=
  Forall2 (λ P T, token_of g !! P = Some T) ps ts.

Definition hist (sA : St) : list Event :=
  TokenAllocator.history (allocator_ (derived sA)).

Record Sim (pend inprog : list tokptr) (g : Ghost)
    (sL : StorageAllocaInit.St) (sA : St) : Prop := mkSim {
  sim_visited : visit_counter_ sL = visit_counter_ sA;
  sim_tm : ∀ n ts, token_map_ sA !! n = Some ts →
             ∃ ps, token_map_ sL !! n = Some ps ∧ stands_for g ps ts;
  sim_proto : prototype_ (derived sA) = token_map_ sEnd;
  sim_frame : frame F (arena_ sA);
  sim_unassigned : ∀ P, token_of g !! P = None → arena_ sA !! P = F !! P;
  sim_dom : ∀ P, (P < length (arena_ sL))%nat
                 ↔ (is_Some (token_of g !! P) ∨ P ∈ inprog);
  sim_inprog : ∀ P, P ∈ inprog →
                 token_of g !! P = None ∧ rc (arena_ sL) P = 0;
  sim_inprog_NoDup : NoDup inprog;
  sim_pend : ∀ P, P ∈ pend → is_Some (token_of g !! P);
  sim_holder : ∀ T P, holder g !! T = Some P →
                 token_of g !! P = Some T ∧ token_of g !! T = Some T
                 ∧ rc (arena_ sA) T = need (arena_ sL) pend P + pin g T;
  sim_owner : ∀ P T, token_of g !! P = Some T →
                holder g !! T = Some P
                ∨ (is_Some (holder g !! T) ∧ need (arena_ sL) pend P = 0);
  sim_pinned : ∀ T, T ∈ pinned g → is_Some (holder g !! T);
  sim_free1 : ∀ e, e ∈ free1 (allocator_ (derived sA)) →
                is_Some (holder g !! e.2) ∧ rc (arena_ sA) e.2 = 0;
  sim_free1_NoDup : NoDup (free1 (allocator_ (derived sA))).*2;
  sim_free2 : free2 (allocator_ (derived sA)) = [];
  sim_2d : ∀ T, is_Some (holder g !! T) →
             Is2DStorage (scope_of F T) = true → T ∈ pinned g;
  sim_hist_pin : ∀ T, EvPin T ∈ hist sA → T ∈ pinned g;
  sim_hist_acq : ∀ e P T, e ∈ hist sA → acquires e = Some (P, T) →
                   token_of g !! P = Some T;
  sim_safe : checks_safe outs (hist sA);
  sim_checks2d : ∀ T c, EvCheckForRelease T true c ∈ hist sA → 1 ≤ c;
  sim_acquired : ∀ P T, token_of g !! P = Some T →
                   ∃ e, e ∈ hist sA ∧ acquires e = Some (P, T);
  sim_checked : ∀ T b c, EvCheckForRelease T b c ∈ hist sA →
                  is_Some (token_of g !! T);
  sim_pinned_checks : ∀ T b c, T ∈ pinned g →
                        EvCheckForRelease T b c ∈ hist sA → 1 ≤ c
}.

(** The liveness pass still has to reach [sEnd]. *)
Definition ahead (sL : StorageAllocaInit.St) : Prop := grows sL sEnd.

Lemma ahead_NoDup sL : ahead sL → NoDup (assigned sL).
Proof.
  intros [(new & Ha & _) _ _ _]. rewrite Ha in sEnd_NoDup.
  by apply NoDup_app in sEnd_NoDup as (_ & _ & ?).
Qed.

Lemma ahead_grows sL sL' : grows sL sL' → ahead sL' → ahead sL.
Proof. apply grows_trans. Qed.

Lemma ahead_length sL : ahead sL → (length (arena_ sL) ≤ length F)%nat.
Proof. intros [_ Hl _ _]. rewrite F_length. done. Qed.

(** A prototype of the replayed arena still has as many references to be
    released as it occurs among the outputs and the pending arguments. *)
Lemma need_lower sL pend P :
  ahead sL → (P < length (arena_ sL))%nat →
  occ P outs + occ P pend ≤ need (arena_ sL) pend P.
Proof.
  intros [_ _ Hrc _] Hp. unfold need. rewrite F_rc.
  specialize (Hrc P Hp). lia.
Qed.

Lemma need_nonneg sL pend P :
  ahead sL → (P < length (arena_ sL))%nat → 0 ≤ need (arena_ sL) pend P.
Proof.
  intros Ha Hp. pose proof (need_lower sL pend P Ha Hp).
  pose proof (occ_nonneg P outs). pose proof (occ_nonneg P pend). lia.
Qed.

Lemma stands_for_mono g g' ps ts :
  token_of g ⊆ token_of g' → stands_for g ps ts → stands_for g' ps ts.
Proof.
  intros Hsub Hps. eapply Forall2_impl; [exact Hps|]. intros P T HP.
  exact (lookup_weaken _ _ _ _ HP Hsub).
Qed.

Lemma sim_token_lt pend inprog g sL sA P :
  Sim pend inprog g sL sA → is_Some (token_of g !! P) →
  (P < length (arena_ sL))%nat.
Proof. intros HS HP. apply (sim_dom _ _ _ _ _ HS). by left. Qed.

Lemma sim_holder_lt pend inprog g sL sA T P :
  Sim pend inprog g sL sA → holder g !! T = Some P →
  (P < length (arena_ sL))%nat ∧ (T < length (arena_ sL))%nat.
Proof.
  intros HS HT. destruct (sim_holder _ _ _ _ _ HS _ _ HT) as (H1 & H2 & _).
  split; eapply sim_token_lt; eauto.
Qed.

(** *** Steps that both passes make *)

Definition mark {D} (n : node) (v : Visitor D) : Visitor D :=
  mkVisitor (arena_ v) (token_map_ v) ({[n]} ∪ visit_counter_ v) (assigned v)
    (derived v).

Lemma sim_mark n pend inprog g sL sA :
  Sim pend inprog g sL sA → Sim pend inprog g (mark n sL) (mark n sA).
Proof.
  intros HS. destruct HS. split; simpl; try done. congruence.
Qed.

Lemma sim_set_tokens op ps ts pend inprog g sL sA uL sL' uA sA' :
  Sim pend inprog g sL sA → stands_for g ps ts →
  set_tokens op ps sL = Ok (uL, sL') → set_tokens op ts sA = Ok (uA, sA') →
  Sim pend inprog g sL' sA'.
Proof.
  intros HS Hps [= <- <-] [= <- <-]. destruct HS. split; simpl; try done.
  intros n l Hn. destruct (decide (op = n)) as [->|Hne].
  - rewrite lookup_insert_eq in Hn. injection Hn as <-.
    exists ps. by rewrite lookup_insert_eq.
  - rewrite lookup_insert_ne in Hn by done.
    rewrite lookup_insert_ne by done. auto.
Qed.

Lemma sim_find op pend inprog g sL sA ps sL' ts sA' :
  Sim pend inprog g sL sA →
  find_tokens op sL = Ok (ps, sL') → find_tokens op sA = Ok (ts, sA') →
  sL' = sL ∧ sA' = sA ∧ stands_for g ps ts.
Proof.
  intros HS [-> HL]%find_tokens_Ok [-> HA]%find_tokens_Ok.
  split; [done|]. split; [done|].
  destruct (sim_tm _ _ _ _ _ HS _ _ HA) as (ps' & Hps' & Hst). congruence.
Qed.

(** *** A reference counted by the liveness pass *)

Lemma need_counted hL pend P t Q :
  hL !! P = Some t →
  need (<[P := set_ref_counter (ref_counter t + 1) t]> hL) (P :: pend) Q
  = need hL pend Q.
Proof.
  intros Ht. unfold need. rewrite occ_cons.
  assert (Hlt : (P < length hL)%nat) by (by eapply lookup_lt_Some).
  destruct (decide (P = Q)) as [->|Hne].
  - rewrite rc_insert_eq by done. rewrite (rc_lookup _ _ _ Ht). simpl. lia.
  - rewrite rc_insert_ne by done. lia.
Qed.

Lemma sim_counted P pend inprog g sL sA u sL' :
  Sim pend inprog g sL sA → is_Some (token_of g !! P) →
  add_ref 1 P sL = Ok (u, sL') →
  Sim (P :: pend) inprog g sL' sA.
Proof.
  intros HS HP H. apply add_ref_Ok in H as (t & Ht & _ & ->).
  destruct HS. split; simpl; try done.
  - intros Q. rewrite length_insert. auto.
  - intros Q HQ. destruct (sim_inprog0 Q HQ) as [HQ1 HQ2]. split; [done|].
    rewrite rc_insert_ne; [done|]. intros ->. rewrite HQ1 in HP.
    by destruct HP.
  - intros Q HQ. apply elem_of_cons in HQ as [->|HQ]; auto.
  - intros T Q HT. rewrite need_counted by done. auto.
  - intros Q T HQ. rewrite need_counted by done. auto.
Qed.

Lemma occ_Permutation P l l' : l ≡ₚ l' → occ P l = occ P l'.
Proof. intros Hp. unfold occ. by rewrite Hp. Qed.

Lemma sim_Permutation pend pend' inprog g sL sA :
  pend ≡ₚ pend' → Sim pend inprog g sL sA → Sim pend' inprog g sL sA.
Proof.
  intros Hp HS.
  assert (Hneed : ∀ P, need (arena_ sL) pend' P = need (arena_ sL) pend P).
  { intros P. unfold need. by rewrite (occ_Permutation P _ _ Hp). }
  destruct HS. split; try done.
  - intros P HP. apply sim_pend0. by rewrite Hp.
  - intros T P HT. rewrite Hneed. auto.
  - intros P T HP. rewrite Hneed. auto.
Qed.

Lemma sim_counted_all ps ts pend inprog g sL sA u sL' :
  Sim pend inprog g sL sA → stands_for g ps ts →
  for_each ps (add_ref 1) sL = Ok (u, sL') →
  Sim (pend ++ ps) inprog g sL' sA.
Proof.
  revert ts pend sL. induction ps as [|P ps IH]; intros ts pend sL HS Hps H;
    simpl in H.
  - injection H as <- <-. by rewrite app_nil_r.
  - apply bind_Ok in H as (? & s1 & Hadd & H).
    apply Forall2_cons_inv_l in Hps as (T & ts' & HP & Hps & ->).
    assert (HS1 : Sim (P :: pend) inprog g s1 sA).
    { eapply sim_counted; [exact HS|by eexists|exact Hadd]. }
    pose proof (IH _ _ _ HS1 Hps H) as HS2.
    eapply sim_Permutation; [|exact HS2].
    simpl. apply Permutation_middle.
Qed.

(** *** Tokens created by the liveness pass *)

Lemma rc_app_l hL news P :
  (P < length hL)%nat → rc (hL ++ news) P = rc hL P.
Proof. intros HP. unfold rc. by rewrite lookup_app_l. Qed.

Lemma need_app hL news pend P :
  (P < length hL)%nat → need (hL ++ news) pend P = need hL pend P.
Proof. intros HP. unfold need. by rewrite rc_app_l. Qed.

Lemma sim_created op ps pend inprog g sL sA sL' :
  Sim pend inprog g sL sA → created op sL sL' ps →
  Sim pend (ps ++ inprog) g sL' sA.
Proof.
  intros HS (news & Hnone & Ha & -> & Hnews & Htm & Has & Hvc & Hd).
  assert (Hlt : ∀ P, is_Some (token_of g !! P) → (P < length (arena_ sL))%nat).
  { intros P HP. by eapply sim_token_lt. }
  assert (Hseq : ∀ P, P ∈ seq (length (arena_ sL)) (length news)
                      ↔ (length (arena_ sL) ≤ P < length (arena_ sL)
                                                   + length news)%nat).
  { intros P. apply elem_of_seq. }
  destruct HS. split; try done.
  - congruence.
  - intros n ts Hn. destruct (sim_tm0 n ts Hn) as (ps' & Hps' & Hst).
    exists ps'. split; [|done]. rewrite Htm.
    rewrite lookup_insert_ne; [done|]. intros ->. congruence.
  - intros P. rewrite Ha, length_app, elem_of_app, Hseq.
    specialize (sim_dom0 P). split.
    + intros HP. destruct (decide (P < length (arena_ sL))%nat) as [Hl|Hl].
      * apply sim_dom0 in Hl as [?|?]; auto.
      * right. left. lia.
    + intros [HP|[HP|HP]]; [|lia|].
      * pose proof (proj2 sim_dom0 (or_introl HP)). lia.
      * pose proof (proj2 sim_dom0 (or_intror HP)). lia.
  - intros P HP. apply elem_of_app in HP as [HP|HP].
    + apply Hseq in HP. split.
      * destruct (token_of g !! P) eqn:E; [|done].
        pose proof (Hlt P ltac:(by eexists)). lia.
      * rewrite Ha. unfold rc.
        rewrite lookup_app_r by lia.
        destruct (news !! (P - length (arena_ sL))%nat) as [t|] eqn:E; [|done].
        simpl. by eapply (Forall_lookup_1 _ _ _ _ Hnews).
    + destruct (sim_inprog0 P HP) as [H1 H2]. split; [done|].
      rewrite Ha, rc_app_l; [done|]. apply sim_dom0. by right.
  - apply NoDup_app. split_and!; [apply NoDup_seq| |done].
    intros P HP HP'. apply Hseq in HP.
    pose proof (proj2 (sim_dom0 P) (or_intror HP')). lia.
  - intros T P HT. destruct (sim_holder0 T P HT) as (H1 & H2 & H3).
    split_and!; [done|done|]. rewrite Ha, need_app; [done|].
    apply Hlt. by eexists.
  - intros P T HP. rewrite Ha, need_app; [auto|]. apply Hlt. by eexists.
Qed.

(** *** A release check *)

Lemma sim_scope pend inprog g sL sA T t :
  Sim pend inprog g sL sA → arena_ sA !! T = Some t →
  scope_of F T = storage_scope t.
Proof.
  intros HS Ht. destruct (sim_frame _ _ _ _ _ HS) as [Hlen Hf].
  assert (is_Some (F !! T)) as [tF HtF].
  { apply lookup_lt_is_Some. rewrite <- Hlen. by eapply lookup_lt_Some. }
  destruct (Hf _ _ HtF) as (t' & Ht' & _ & _ & Hs).
  unfold scope_of. rewrite HtF. simpl. congruence.
Qed.

(** A token that is kept holds a reference. *)
Lemma sim_kept pend inprog g sL sA T :
  ahead sL → Sim pend inprog g sL sA → kept outs (hist sA) T →
  1 ≤ rc (arena_ sA) T.
Proof.
  intros Ha HS [Hpin|(e & P & He & Hacq & Hout)].
  - apply (sim_hist_pin _ _ _ _ _ HS) in Hpin.
    destruct (sim_pinned _ _ _ _ _ HS _ Hpin) as [P HP].
    destruct (sim_holder _ _ _ _ _ HS _ _ HP) as (H1 & _ & ->).
    pose proof (need_nonneg sL pend P Ha
                  (sim_token_lt _ _ _ _ _ _ HS (mk_is_Some _ _ H1))).
    unfold pin. rewrite decide_True by done. lia.
  - pose proof (sim_hist_acq _ _ _ _ _ HS _ _ _ He Hacq) as HP.
    pose proof (need_lower sL pend P Ha
                  (sim_token_lt _ _ _ _ _ _ HS (mk_is_Some _ _ HP))) as Hn.
    pose proof (occ_elem_of _ _ Hout). pose proof (occ_nonneg P pend).
    destruct (sim_owner _ _ _ _ _ HS _ _ HP) as [Hh|[_ Hz]]; [|lia].
    destruct (sim_holder _ _ _ _ _ HS _ _ Hh) as (_ & _ & ->).
    unfold pin. case_decide; lia.
Qed.

Lemma sim_check T pend inprog g sL sA u sA' :
  ahead sL → Sim pend inprog g sL sA →
  is_Some (holder g !! T) →
  (rc (arena_ sA) T = 0 → T ∉ (free1 (allocator_ (derived sA))).*2) →
  allocator_CheckForRelease T sA = Ok (u, sA') →
  Sim pend inprog g sL sA'.
Proof.
  intros Ha HS [P HP] Hfresh H.
  unfold allocator_CheckForRelease in H.
  apply rbind_Ok in H as (a' & Hc & H). injection H as <- <-.
  apply CheckForRelease_Ok in Hc as (t & Ht & _ & _ & Hh & _ & Hfree).
  pose proof (sim_scope _ _ _ _ _ _ _ HS Ht) as Hscope.
  pose proof (rc_lookup _ _ _ Ht) as Hrc.
  destruct (sim_holder _ _ _ _ _ HS _ _ HP) as (HPT & HTT & HrcT).
  pose proof (need_nonneg sL pend P Ha
                (sim_token_lt _ _ _ _ _ _ HS (mk_is_Some _ _ HPT))) as Hn.
  assert (H2d : Is2DStorage (storage_scope t) = true → 1 ≤ ref_counter t).
  { intros H2. rewrite <- Hscope in H2.
    pose proof (sim_2d _ _ _ _ _ HS T ltac:(by eexists) H2) as Hpin.
    rewrite <- Hrc, HrcT. unfold pin. rewrite decide_True by done. lia. }
  assert (Hsafe : checks_safe outs (hist (set_allocator a' sA))).
  { unfold hist. simpl. rewrite Hh. apply checks_safe_cons.
    - apply (sim_safe _ _ _ _ _ HS).
    - intros T' b c [= <- <- <-] Hk. rewrite <- Hrc.
      by eapply sim_kept. }
  assert (Hfree1 :
    ∀ e, e ∈ free1 a' →
         e ∈ free1 (allocator_ (derived sA))
         ∨ (e.2 = T ∧ rc (arena_ sA) T = 0
            ∧ Is2DStorage (storage_scope t) = false)).
  { intros e He. unfold free1 in *.
    destruct (Is2DStorage (storage_scope t)) eqn:E.
    - destruct Hfree as [Hfree _]. rewrite Hfree in He. by left.
    - destruct Hfree as [_ Hfree]. rewrite Hfree in He.
      case_bool_decide as H0; [|by left].
      apply elem_of_insert in He as [->|He]; [|by left].
      right. simpl. split_and!; [done|congruence|done]. }
  destruct HS. split; simpl; try done.
  - intros e He. apply Hfree1 in He as [He|(HeT & H0 & _)]; [auto|].
    rewrite HeT. split; [by eexists|done].
  - unfold free1 in *. destruct (Is2DStorage (storage_scope t)) eqn:E.
    + destruct Hfree as [Hfree _]. by rewrite Hfree.
    + destruct Hfree as [_ Hfree]. rewrite Hfree.
      case_bool_decide as H0; [|done].
      rewrite insert_Permutation. simpl. apply NoDup_cons. split; [|done].
      apply Hfresh. congruence.
  - unfold free2 in *. destruct (Is2DStorage (storage_scope t)) eqn:E.
    + destruct Hfree as [_ Hfree]. rewrite Hfree.
      rewrite bool_decide_false; [done|]. specialize (H2d eq_refl). lia.
    + destruct Hfree as [Hfree _]. by rewrite Hfree.
  - intros T' HT'. apply sim_hist_pin0. unfold hist in *. simpl in HT'.
    rewrite Hh in HT'. by apply elem_of_cons in HT' as [?|?].
  - intros e P' T' He Hacq. unfold hist in *. simpl in He. rewrite Hh in He.
    apply elem_of_cons in He as [->|He]; [done|]. by eapply sim_hist_acq0.
  - intros T' c HT'. unfold hist in *. simpl in HT'. rewrite Hh in HT'.
    apply elem_of_cons in HT' as [Heq|HT']; [|by eapply sim_checks2d0].
    injection Heq as -> H2 ->. symmetry in H2. auto.
  - intros P' T' HP'. destruct (sim_acquired0 P' T' HP') as (e & He & Hacq).
    exists e. split; [|done]. unfold hist in *. simpl. rewrite Hh. by right.
  - intros T' b c HT'. unfold hist in *. simpl in HT'. rewrite Hh in HT'.
    apply elem_of_cons in HT' as [Heq|HT']; [|by eapply sim_checked0].
    injection Heq as -> _ _. by eexists.
  - intros T' b c Hpin HT'. unfold hist in *. simpl in HT'.
    rewrite Hh in HT'.
    apply elem_of_cons in HT' as [Heq|HT']; [|by eapply sim_pinned_checks0].
    injection Heq as -> _ ->. rewrite <- Hrc, HrcT. unfold pin.
    rewrite decide_True by done. lia.
Qed.

(** *** A reference released by the assignment pass *)

Lemma need_released hL pend P Q :
  need hL pend Q = need hL (P :: pend) Q - (if decide (P = Q) then 1 else 0).
Proof. unfold need. rewrite occ_cons. lia. Qed.

Lemma sim_in_free1_rc pend inprog g sL sA T :
  Sim pend inprog g sL sA →
  T ∈ (free1 (allocator_ (derived sA))).*2 → rc (arena_ sA) T = 0.
Proof.
  intros HS HT. apply list_elem_of_fmap in HT as (e & -> & He).
  by apply (sim_free1 _ _ _ _ _ HS).
Qed.

Lemma sim_released P T pend inprog g sL sA u sA' :
  ahead sL → Sim (P :: pend) inprog g sL sA →
  token_of g !! P = Some T →
  add_ref (-1) T sA = Ok (u, sA') →
  Sim pend inprog g sL sA'
  ∧ holder g !! T = Some P
  ∧ T ∉ (free1 (allocator_ (derived sA'))).*2.
Proof.
  intros Ha HS HP H. apply add_ref_Ok in H as (t & Ht & _ & ->).
  pose proof (need_lower sL (P :: pend) P Ha
                (sim_token_lt _ _ _ _ _ _ HS (mk_is_Some _ _ HP))) as Hlow.
  rewrite occ_cons, decide_True in Hlow by done.
  pose proof (occ_nonneg P outs). pose proof (occ_nonneg P pend).
  assert (Hh : holder g !! T = Some P).
  { destruct (sim_owner _ _ _ _ _ HS _ _ HP) as [Hh|[_ Hz]]; [done|lia]. }
  destruct (sim_holder _ _ _ _ _ HS _ _ Hh) as (_ & HTT & HrcT).
  pose proof (rc_lookup _ _ _ Ht) as Hrc.
  assert (Hpin : 0 ≤ pin g T) by (unfold pin; case_decide; lia).
  assert (Hlt : (T < length (arena_ sA))%nat) by (by eapply lookup_lt_Some).
  assert (HnotT : T ∉ (free1 (allocator_ (derived sA))).*2).
  { intros Hin. pose proof (sim_in_free1_rc _ _ _ _ _ _ HS Hin). lia. }
  split; [|split; [done|exact HnotT]].
  destruct HS. split; simpl; try done.
  - eapply frame_trans; [exact sim_frame0|]. by eapply frame_insert.
  - intros Q HQ. rewrite list_lookup_insert_ne; [auto|].
    intros ->. congruence.
  - intros Q HQ. apply sim_pend0. by right.
  - intros T' Q HT'. destruct (sim_holder0 T' Q HT') as (H1 & H2 & H3).
    split_and!; [done|done|]. rewrite (need_released _ _ P Q).
    destruct (decide (T = T')) as [<-|Hne].
    + assert (Q = P) as -> by congruence.
      rewrite rc_insert_eq by done. rewrite decide_True by done. simpl. lia.
    + rewrite rc_insert_ne by done. rewrite decide_False; [lia|].
      intros ->. congruence.
  - intros Q T' HQ. rewrite (need_released _ _ P Q).
    destruct (sim_owner0 Q T' HQ) as [H1|[H1 H2]]; [by left|].
    right. split; [done|]. rewrite decide_False; [lia|].
    intros ->. lia.
  - intros e He. destruct (sim_free3 e He) as [H1 H2]. split; [done|].
    rewrite rc_insert_ne; [done|]. intros ->. lia.
Qed.

(** *** A token handed out for a prototype *)

(** What is known of a prototype the liveness pass has created and the
    assignment pass has not yet met. *)
Lemma sim_inprog_head P pend inprog g sL sA :
  Sim pend (P :: inprog) g sL sA →
  token_of g !! P = None ∧ holder g !! P = None ∧ (P ∉ pinned g)
  ∧ (P ∉ inprog) ∧ need (arena_ sL) pend P = rc F P
  ∧ arena_ sA !! P = F !! P
  ∧ (∀ Q T, token_of g !! Q = Some T → Q ≠ P ∧ T ≠ P).
Proof.
  intros HS.
  destruct (sim_inprog _ _ _ _ _ HS P ltac:(by left)) as [Hnone Hrc0].
  assert (Hh : holder g !! P = None).
  { destruct (holder g !! P) as [Q|] eqn:E; [|done].
    destruct (sim_holder _ _ _ _ _ HS _ _ E) as (_ & H2 & _). congruence. }
  split_and!; try done.
  - intros Hpin. apply (sim_pinned _ _ _ _ _ HS) in Hpin as [Q HQ].
    congruence.
  - pose proof (sim_inprog_NoDup _ _ _ _ _ HS) as Hnd.
    by apply NoDup_cons in Hnd as [? _].
  - unfold need. rewrite Hrc0. rewrite occ_not_elem_of; [lia|].
    intros Hin. apply (sim_pend _ _ _ _ _ HS) in Hin as [? ?]. congruence.
  - by apply (sim_unassigned _ _ _ _ _ HS).
  - intros Q T HQ. split; [intros ->; congruence|]. intros ->.
    destruct (sim_owner _ _ _ _ _ HS _ _ HQ) as [H1|[[? H1] _]]; congruence.
Qed.

Lemma pin_nonneg g T : 0 ≤ pin g T.
Proof. unfold pin. case_decide; lia. Qed.

Lemma sim_reused P T pend inprog g sL sA sA' :
  ahead sL → Sim pend (P :: inprog) g sL sA → reused P sA T sA' →
  Sim pend inprog
    (mkGhost (<[P := T]> (token_of g)) (<[T := P]> (holder g)) (pinned g))
    sL sA'
  ∧ (T ∈ (free1 (allocator_ (derived sA))).*2)
  ∧ (T ∉ (free1 (allocator_ (derived sA'))).*2)
  ∧ (∀ e, e ∈ free1 (allocator_ (derived sA')) →
          e ∈ free1 (allocator_ (derived sA))).
Proof.
  intros Ha HS (t & tok & it & cached & mb & a' & Ht & Hglobal & Hit & Htok
                & Hrc0 & -> & Hf1 & Hf2 & Hh).
  destruct (sim_inprog_head _ _ _ _ _ _ HS)
    as (Hnone & Hhnone & Hnpin & Hnin & Hneed & HF & Hother).
  assert (Hin : (cached, T) ∈ free1 (allocator_ (derived sA))).
  { apply list_elem_of_lookup. eauto. }
  destruct (sim_free1 _ _ _ _ _ HS _ Hin) as [[P0 HP0] HrcT]. simpl in *.
  destruct (sim_holder _ _ _ _ _ HS _ _ HP0) as (HP0T & HTT & HrcT').
  pose proof (need_nonneg sL pend P0 Ha
                (sim_token_lt _ _ _ _ _ _ HS (mk_is_Some _ _ HP0T))) as Hn0.
  pose proof (pin_nonneg g T) as Hpin0.
  assert (Hneed0 : need (arena_ sL) pend P0 = 0) by lia.
  assert (HpinT : pin g T = 0) by lia.
  destruct (Hother _ _ HTT) as [HTP _].
  assert (HrcF : rc F P = ref_counter t).
  { apply rc_lookup. congruence. }
  assert (Hlt : (T < length (arena_ sA))%nat) by (by eapply lookup_lt_Some).
  destruct (NoDup_delete_snd _ _ _ _ (sim_free1_NoDup _ _ _ _ _ HS) Hit)
    as [Hnd HTnot].
  assert (Hsub : ∀ e, e ∈ free1 a' → e ∈ free1 (allocator_ (derived sA))).
  { intros e He. rewrite Hf1 in He. by eapply elem_of_delete_lookup. }
  split; [|split_and!].
  2:{ apply list_elem_of_fmap. by exists (cached, T). }
  2:{ simpl. by rewrite Hf1. }
  2:{ exact Hsub. }
  destruct HS. split; simpl; try done.
  - intros n ts Hn. destruct (sim_tm0 n ts Hn) as (ps & Hps & Hst).
    exists ps. split; [done|]. eapply stands_for_mono; [|exact Hst]. simpl.
    by apply insert_subseteq.
  - eapply frame_trans; [exact sim_frame0|].
    eapply frame_insert; [exact Htok|done].
  - intros Q HQ. apply lookup_insert_None in HQ as [HQ HPQ].
    rewrite list_lookup_insert_ne; [auto|]. intros ->. congruence.
  - intros Q. rewrite sim_dom0. rewrite elem_of_cons.
    rewrite lookup_insert_is_Some.
    destruct (decide (P = Q)) as [->|HPQ]; [tauto|].
    split; intros [?|?]; try tauto; intuition congruence.
  - intros Q HQ. destruct (sim_inprog0 Q ltac:(by right)) as [H1 H2].
    split; [|done]. rewrite lookup_insert_ne; [done|]. intros ->. done.
  - by apply NoDup_cons in sim_inprog_NoDup0 as [_ ?].
  - intros Q HQ. apply lookup_insert_is_Some. right. split; [|auto].
    intros ->. apply sim_pend0 in HQ as [? ?]. congruence.
  - intros T' Q HT'. destruct (decide (T = T')) as [<-|Hne].
    + rewrite lookup_insert_eq in HT'. injection HT' as <-.
      rewrite lookup_insert_eq. rewrite lookup_insert_ne by done.
      split_and!; [done|done|]. rewrite rc_insert_eq by done. simpl.
      unfold pin in *. simpl. lia.
    + rewrite lookup_insert_ne in HT' by done.
      destruct (sim_holder0 T' Q HT') as (H1 & H2 & H3).
      destruct (Hother _ _ H1) as [HQP _]. destruct (Hother _ _ H2) as [HT'P _].
      rewrite !lookup_insert_ne by done. split_and!; [done|done|].
      rewrite rc_insert_ne by done. done.
  - intros Q T' HQ. destruct (decide (P = Q)) as [<-|Hne].
    + rewrite lookup_insert_eq in HQ. injection HQ as <-. left.
      by rewrite lookup_insert_eq.
    + rewrite lookup_insert_ne in HQ by done.
      destruct (decide (T = T')) as [<-|HneT].
      * right. split; [rewrite lookup_insert_eq; by eexists|].
        destruct (sim_owner0 Q T HQ) as [H1|[_ H1]]; [|done].
        assert (Q = P0) as -> by congruence. done.
      * rewrite lookup_insert_ne by done. auto.
  - intros T' HT'. apply lookup_insert_is_Some'. right. auto.
  - intros e He. apply Hsub in He as He'.
    destruct (sim_free3 e He') as [H1 H2]. split.
    + apply lookup_insert_is_Some'. by right.
    + rewrite rc_insert_ne; [done|]. intros HeT. apply HTnot.
      rewrite <- Hf1. apply list_elem_of_fmap. by exists e.
  - by rewrite Hf1.
  - by rewrite Hf2.
  - intros T' HT' H2d. apply sim_2d0; [|done].
    apply lookup_insert_is_Some' in HT' as [<-|HT']; [by eexists|done].
  - intros T' HT'. apply sim_hist_pin0. unfold hist in *. simpl in HT'.
    rewrite Hh in HT'. by apply elem_of_cons in HT' as [?|?].
  - intros e Q T' He Hacq. unfold hist in *. simpl in He. rewrite Hh in He.
    apply elem_of_cons in He as [->|He].
    + simpl in Hacq. injection Hacq as <- <-. by rewrite lookup_insert_eq.
    + pose proof (sim_hist_acq0 e Q T' He Hacq) as HQ.
      destruct (Hother _ _ HQ) as [HQP _]. by rewrite lookup_insert_ne.
  - unfold hist. simpl. rewrite Hh. apply checks_safe_cons; [done|]. done.
  - intros T' c HT'. unfold hist in *. simpl in HT'. rewrite Hh in HT'.
    apply elem_of_cons in HT' as [?|?]; [done|]. by eapply sim_checks2d0.
  - intros Q T' HQ. unfold hist. simpl. rewrite Hh.
    destruct (decide (P = Q)) as [<-|Hne].
    + rewrite lookup_insert_eq in HQ. injection HQ as <-.
      exists (EvRequest P false (Some T)). split; [by left|done].
    + rewrite lookup_insert_ne in HQ by done.
      destruct (sim_acquired0 Q T' HQ) as (e & He & Hacq).
      exists e. split; [by right|done].
  - intros T' b c HT'. unfold hist in *. simpl in HT'. rewrite Hh in HT'.
    apply elem_of_cons in HT' as [?|HT']; [done|].
    apply lookup_insert_is_Some'. right. by eapply sim_checked0.
  - intros T' b c Hpin HT'. unfold hist in *. simpl in HT'.
    rewrite Hh in HT'.
    apply elem_of_cons in HT' as [?|HT']; [done|].
    by eapply sim_pinned_checks0.
Qed.

Lemma sim_allocated (pinning : bool) P T pend inprog g sL sA sA' :
  ahead sL → Sim pend (P :: inprog) g sL sA →
  allocated pinning P sA T sA' →
  T = P
  ∧ Sim pend inprog
      (mkGhost (<[P := P]> (token_of g)) (<[P := P]> (holder g))
         (if pinning then {[P]} ∪ pinned g else pinned g))
      sL sA'
  ∧ (P ∉ (free1 (allocator_ (derived sA'))).*2)
  ∧ free1 (allocator_ (derived sA')) = free1 (allocator_ (derived sA)).
Proof.
  intros Ha HS (t & t' & a' & Ht & -> & Hkind & Hrc & -> & Hf1 & Hf2 & Hh).
  destruct (sim_inprog_head _ _ _ _ _ _ HS)
    as (Hnone & Hhnone & Hnpin & Hnin & Hneed & HF & Hother).
  assert (HrcF : rc F P = ref_counter t).
  { apply rc_lookup. congruence. }
  assert (Hlt : (P < length (arena_ sA))%nat) by (by eapply lookup_lt_Some).
  assert (Hholder_ne : ∀ T', is_Some (holder g !! T') → T' ≠ P).
  { intros T' [Q HQ] ->. congruence. }
  assert (Hscope : scope_of F P = storage_scope t).
  { by eapply sim_scope. }
  assert (HPfree : P ∉ (free1 (allocator_ (derived sA))).*2).
  { intros Hin. apply list_elem_of_fmap in Hin as (e & -> & He).
    destruct (sim_free1 _ _ _ _ _ HS _ He) as [H1 _].
    by apply (Hholder_ne _ H1). }
  set (pinned' := if pinning then {[P]} ∪ pinned g else pinned g).
  assert (Hpin_ne : ∀ T', T' ≠ P →
            pin (mkGhost (<[P := P]> (token_of g)) (<[P := P]> (holder g))
                   pinned') T' = pin g T').
  { intros T' Hne. unfold pin, pinned'. simpl. destruct pinning; [|done].
    destruct (decide (T' ∈ pinned g)).
    - rewrite decide_True; [done|]. apply elem_of_union. by right.
    - rewrite decide_False; [done|].
      intros [?%elem_of_singleton|?]%elem_of_union; done. }
  assert (Hpin_P :
    pin (mkGhost (<[P := P]> (token_of g)) (<[P := P]> (holder g)) pinned') P
    = if pinning then 1 else 0).
  { unfold pin, pinned'. simpl. destruct pinning.
    - rewrite decide_True; [done|]. apply elem_of_union. left.
      by apply elem_of_singleton.
    - by rewrite decide_False. }
  assert (Hhist : ∀ e, e ∈ TokenAllocator.history a' →
            e ∈ hist sA
            ∨ (∃ id b, e = EvAlloc P id b)
            ∨ (pinning = true ∧ e = EvPin P)
            ∨ (pinning = false ∧ e = EvRequest P false None)).
  { intros e He. destruct pinning.
    - destruct Hh as (id & Hh). rewrite Hh in He.
      apply elem_of_cons in He as [->|He]; [by right; right; left|].
      apply elem_of_cons in He as [->|He]; [right; left; by eexists _, _|].
      by left.
    - destruct Hh as (_ & id & Hh). rewrite Hh in He.
      apply elem_of_cons in He as [->|He]; [right; left; by eexists _, _|].
      apply elem_of_cons in He as [->|He]; [by right; right; right|].
      by left. }
  split; [done|]. split; [|split; [by simpl; rewrite Hf1|done]].
  destruct HS. split; simpl; try done.
  - intros n ts Hn. destruct (sim_tm0 n ts Hn) as (ps & Hps & Hst).
    exists ps. split; [done|]. eapply stands_for_mono; [|exact Hst]. simpl.
    by apply insert_subseteq.
  - eapply frame_trans; [exact sim_frame0|].
    eapply frame_insert; [exact Ht|done].
  - intros Q HQ. apply lookup_insert_None in HQ as [HQ HPQ].
    rewrite list_lookup_insert_ne; [auto|]. done.
  - intros Q. rewrite sim_dom0. rewrite elem_of_cons.
    rewrite lookup_insert_is_Some.
    destruct (decide (P = Q)) as [->|HPQ]; [tauto|].
    split; intros [?|?]; try tauto; intuition congruence.
  - intros Q HQ. destruct (sim_inprog0 Q ltac:(by right)) as [H1 H2].
    split; [|done]. rewrite lookup_insert_ne; [done|]. intros ->. done.
  - by apply NoDup_cons in sim_inprog_NoDup0 as [_ ?].
  - intros Q HQ. apply lookup_insert_is_Some. right. split; [|auto].
    intros ->. apply sim_pend0 in HQ as [? ?]. congruence.
  - intros T' Q HT'. destruct (decide (P = T')) as [<-|Hne].
    + rewrite lookup_insert_eq in HT'. injection HT' as <-.
      rewrite lookup_insert_eq. split_and!; [done|done|].
      rewrite rc_insert_eq by done. rewrite Hpin_P, Hrc, Hneed, HrcF.
      destruct pinning; lia.
    + rewrite lookup_insert_ne in HT' by done.
      destruct (sim_holder0 T' Q HT') as (H1 & H2 & H3).
      destruct (Hother _ _ H1) as [HQP _].
      rewrite !lookup_insert_ne by done. split_and!; [done|done|].
      rewrite rc_insert_ne by done. rewrite Hpin_ne by done. done.
  - intros Q T' HQ. destruct (decide (P = Q)) as [<-|Hne].
    + rewrite lookup_insert_eq in HQ. injection HQ as <-. left.
      by rewrite lookup_insert_eq.
    + rewrite lookup_insert_ne in HQ by done.
      destruct (Hother _ _ HQ) as [_ HT'P].
      rewrite lookup_insert_ne by done. auto.
  - intros T' HT'. apply lookup_insert_is_Some'.
    destruct (decide (P = T')) as [->|Hne]; [by left|]. right.
    apply sim_pinned0. unfold pinned' in HT'. destruct pinning; [|done].
    apply elem_of_union in HT' as [HT'%elem_of_singleton|HT']; [|done].
    congruence.
  - intros e He. rewrite Hf1 in He. destruct (sim_free3 e He) as [H1 H2].
    split.
    + apply lookup_insert_is_Some'. by right.
    + rewrite rc_insert_ne; [done|]. intros HeP. by apply (Hholder_ne _ H1).
  - by rewrite Hf1.
  - by rewrite Hf2.
  - intros T' HT' H2d. apply lookup_insert_is_Some' in HT' as [<-|HT'].
    + unfold pinned'. destruct pinning.
      * apply elem_of_union. left. by apply elem_of_singleton.
      * destruct Hh as (Hg & _). rewrite Hscope, Hg in H2d.
        discriminate H2d.
    + unfold pinned'. pose proof (sim_2d0 T' HT' H2d).
      destruct pinning; [|done]. apply elem_of_union. by right.
  - intros T' HT'. unfold hist in HT'. simpl in HT'.
    apply Hhist in HT' as [HT'|[(id & b & HT')|[[-> HT']|[_ HT']]]];
      try done.
    + unfold pinned'. pose proof (sim_hist_pin0 T' HT').
      destruct pinning; [|done]. apply elem_of_union. by right.
    + injection HT' as ->. unfold pinned'. apply elem_of_union. left.
      by apply elem_of_singleton.
  - intros e Q T' He Hacq. unfold hist in He. simpl in He.
    apply Hhist in He as [He|[(id & b & ->)|[[_ ->]|[_ ->]]]]; try done.
    + pose proof (sim_hist_acq0 e Q T' He Hacq) as HQ.
      destruct (Hother _ _ HQ) as [HQP _]. by rewrite lookup_insert_ne.
    + simpl in Hacq. injection Hacq as <- <-. by rewrite lookup_insert_eq.
  - unfold hist. simpl. destruct pinning.
    + destruct Hh as (id & ->).
      apply checks_safe_cons; [apply checks_safe_cons|]; done.
    + destruct Hh as (_ & id & ->).
      apply checks_safe_cons; [apply checks_safe_cons|]; done.
  - intros T' c HT'. unfold hist in HT'. simpl in HT'.
    apply Hhist in HT' as [HT'|[(id & b & HT')|[[_ HT']|[_ HT']]]];
      try done.
    by eapply sim_checks2d0.
  - intros Q T' HQ. unfold hist. simpl.
    destruct (decide (P = Q)) as [<-|Hne].
    + rewrite lookup_insert_eq in HQ. injection HQ as <-.
      destruct pinning.
      * destruct Hh as (id & ->). eexists. split; [right; left|]; done.
      * destruct Hh as (_ & id & ->). eexists. split; [left|]; done.
    + rewrite lookup_insert_ne in HQ by done.
      destruct (sim_acquired0 Q T' HQ) as (e & He & Hacq).
      exists e. split; [|done].
      destruct pinning.
      * destruct Hh as (id & ->). by do 2 right.
      * destruct Hh as (_ & id & ->). by do 2 right.
  - intros T' b c HT'. unfold hist in HT'. simpl in HT'.
    apply Hhist in HT' as [HT'|[(id & b' & HT')|[[_ HT']|[_ HT']]]];
      try done.
    apply lookup_insert_is_Some'. right. by eapply sim_checked0.
  - intros T' b c Hpin HT'. unfold hist in HT'. simpl in HT'.
    apply Hhist in HT' as [HT'|[(id & b' & HT')|[[_ HT']|[_ HT']]]];
      try done.
    destruct (decide (T' = P)) as [->|Hne].
    + destruct (sim_checked0 _ _ _ HT') as [? ?]. congruence.
    + eapply sim_pinned_checks0; [|exact HT']. unfold pinned' in Hpin.
      destruct pinning; [|done].
      by apply elem_of_union in Hpin as [Hpin%elem_of_singleton|Hpin].
Qed.

(** *** The tokens of one node *)

(** What handing out tokens does to the ghost state and to the free list:
    prototypes keep their token, tokens keep standing for something, and
    nothing is added to the free list. *)
Definition extends (g g' : Ghost) (sA sA' : St) : Prop :=
  token_of g ⊆ token_of g'
  ∧ (∀ T, is_Some (holder g !! T) → is_Some (holder g' !! T))
  ∧ (∀ e, e ∈ free1 (allocator_ (derived sA')) →
          e ∈ free1 (allocator_ (derived sA))).

Lemma extends_refl g sA : extends g g sA sA.
Proof. by split_and!. Qed.

Lemma extends_trans g1 g2 g3 s1 s2 s3 :
  extends g1 g2 s1 s2 → extends g2 g3 s2 s3 → extends g1 g3 s1 s3.
Proof.
  intros (H1 & H2 & H3) (H4 & H5 & H6). split_and!; [|auto|auto].
  by etrans.
Qed.

Lemma sim_create_one b P T pend inprog g sL sA sA' :
  ahead sL → Sim pend (P :: inprog) g sL sA →
  create_one b P sA = Ok (T, sA') →
  ∃ g', extends g g' sA sA'
        ∧ token_of g' !! P = Some T
        ∧ is_Some (holder g' !! T)
        ∧ (T ∉ (free1 (allocator_ (derived sA'))).*2)
        ∧ (T ∈ (free1 (allocator_ (derived sA))).*2
           ∨ token_of g !! T = None)
        ∧ Sim pend inprog g' sL sA'.
Proof.
  intros Ha HS H.
  destruct (sim_inprog_head _ _ _ _ _ _ HS) as (Hnone & _).
  assert (Hcases : reused P sA T sA' ∨ ∃ pinning, allocated pinning P sA T sA').
  { apply create_one_Ok in H as [[_ [?|?]]|?]; eauto. }
  destruct Hcases as [Hr|[pinning Hal]].
  - destruct (sim_reused _ _ _ _ _ _ _ _ Ha HS Hr) as (HS' & Hin & Hnin & Hsub).
    eexists. split_and!; [..|exact HS']; simpl.
    + split_and!; simpl; [by apply insert_subseteq| |done].
      intros T' HT'. apply lookup_insert_is_Some'. by right.
    + by rewrite lookup_insert_eq.
    + rewrite lookup_insert_eq. by eexists.
    + done.
    + by left.
  - destruct (sim_allocated _ _ _ _ _ _ _ _ _ Ha HS Hal)
      as (-> & HS' & Hnin & Hf).
    eexists. split_and!; [..|exact HS']; simpl.
    + split_and!; simpl; [by apply insert_subseteq| |by rewrite Hf].
      intros T' HT'. apply lookup_insert_is_Some'. by right.
    + by rewrite lookup_insert_eq.
    + rewrite lookup_insert_eq. by eexists.
    + done.
    + by right.
Qed.

Lemma sim_create_all b ps : ∀ ts pend inprog g sL sA sA',
  ahead sL → Sim pend (ps ++ inprog) g sL sA →
  create_all b ps sA = Ok (ts, sA') →
  ∃ g', extends g g' sA sA'
        ∧ stands_for g' ps ts
        ∧ NoDup ts
        ∧ Forall (λ T, is_Some (holder g' !! T)
                       ∧ (T ∉ (free1 (allocator_ (derived sA'))).*2)
                       ∧ (T ∈ (free1 (allocator_ (derived sA))).*2
                          ∨ token_of g !! T = None)) ts
        ∧ Sim pend inprog g' sL sA'.
Proof.
  induction ps as [|P ps IH]; intros ts pend inprog g sL sA sA' Ha HS H.
  - injection H as <- <-. exists g.
    split_and!; [apply extends_refl|constructor|constructor|constructor|done].
  - simpl in H. apply bind_Ok in H as (T & s1 & H1 & H).
    apply bind_Ok in H as (ts' & s2 & H2 & H). injection H as <- <-.
    destruct (sim_create_one _ _ _ _ _ _ _ _ _ Ha HS H1)
      as (g1 & Hext1 & HP & HT & Hnin & Hfrom & HS1).
    destruct (IH _ _ _ _ _ _ _ Ha HS1 H2)
      as (g2 & Hext2 & Hst & Hnd & Hall & HS2).
    pose proof Hext1 as (Hsub1 & Hdom1 & Hfree1).
    pose proof Hext2 as (Hsub2 & Hdom2 & Hfree2).
    assert (HTT : token_of g1 !! T = Some T).
    { destruct HT as [Q HQ].
      by destruct (sim_holder _ _ _ _ _ HS1 _ _ HQ) as (_ & ? & _). }
    exists g2. split_and!; [by eapply extends_trans| | | |done].
    + constructor; [|done]. by eapply lookup_weaken.
    + apply NoDup_cons. split; [|done]. intros Hin.
      rewrite Forall_forall in Hall.
      destruct (Hall T Hin) as (_ & _ & [Hf|Hn]); [done|congruence].
    + constructor.
      * split_and!; [auto| |done].
        intros Hin. apply Hnin. apply list_elem_of_fmap in Hin as (e & -> & He).
        apply list_elem_of_fmap. exists e. auto.
      * eapply Forall_impl; [exact Hall|]. intros T' (H3 & H4 & H5).
        split_and!; [done|done|]. destruct H5 as [H5|H5].
        -- left. apply list_elem_of_fmap in H5 as (e & -> & He).
           apply list_elem_of_fmap. exists e. auto.
        -- right. destruct (token_of g !! T') eqn:E; [|done].
           eapply lookup_weaken in E; [|exact Hsub1]. congruence.
Qed.

(** An entry of the token map of the liveness pass is never overwritten. *)
Lemma grows_lookup {D} (v v' : Visitor D) op ps :
  grows v v' → NoDup (assigned v') → keys_assigned v →
  token_map_ v !! op = Some ps → token_map_ v' !! op = Some ps.
Proof.
  intros [(new & Ha & Hsame) _ _ _] Hnd Hk Hop.
  rewrite Hsame; [done|]. intros Hin. rewrite Ha in Hnd.
  apply NoDup_app in Hnd as (_ & Hdisj & _). apply (Hdisj op Hin).
  apply Hk. by eexists.
Qed.

Lemma sim_assign op ps ts pend inprog g sL sA u sA' :
  Sim pend inprog g sL sA → token_map_ sL !! op = Some ps →
  stands_for g ps ts → set_tokens op ts sA = Ok (u, sA') →
  Sim pend inprog g sL sA'.
Proof.
  intros HS Hop Hps [= <- <-]. destruct HS. split; simpl; try done.
  intros n l Hn. destruct (decide (op = n)) as [->|Hne].
  - rewrite lookup_insert_eq in Hn. injection Hn as <-. by exists ps.
  - rewrite lookup_insert_ne in Hn by done. auto.
Qed.

Lemma sim_CreateToken op ty b ps pend inprog g sL sA u sA' :
  ahead sL → keys_assigned sL → token_map_ sL !! op = Some ps →
  Sim pend (ps ++ inprog) g sL sA →
  CreateToken op ty b sA = Ok (u, sA') →
  ∃ g' ts,
    extends g g' sA sA'
    ∧ token_map_ sA' !! op = Some ts
    ∧ NoDup ts
    ∧ Forall (λ T, is_Some (holder g' !! T)
                   ∧ (T ∉ (free1 (allocator_ (derived sA'))).*2)) ts
    ∧ Sim pend inprog g' sL sA'.
Proof.
  intros Ha Hk Hop HS H. unfold CreateToken in H.
  apply bind_Ok in H as (v0 & ? & [= <- <-] & H).
  apply bind_Ok in H as (? & ? & [_ ->]%ICHECK_Ok & H).
  rewrite (sim_proto _ _ _ _ _ HS) in H.
  rewrite (grows_lookup _ _ _ _ Ha sEnd_NoDup Hk Hop) in H.
  apply bind_Ok in H as (ts & s1 & Hall & H).
  destruct (sim_create_all _ _ _ _ _ _ _ _ _ Ha HS Hall)
    as (g' & Hext & Hst & Hnd & Hts & HS1).
  exists g', ts.
  assert (HS' : Sim pend inprog g' sL sA') by (by eapply sim_assign).
  injection H as _ <-. split_and!; simpl; try done.
  - by rewrite lookup_insert_eq.
  - eapply Forall_impl; [exact Hts|]. by intros T (? & ? & _).
Qed.

(** *** The release checks of a call *)

Lemma check_free1 T sA u sA' T' :
  allocator_CheckForRelease T sA = Ok (u, sA') → T' ≠ T →
  T' ∈ (free1 (allocator_ (derived sA'))).*2 →
  T' ∈ (free1 (allocator_ (derived sA))).*2.
Proof.
  intros H Hne Hin. unfold allocator_CheckForRelease in H.
  apply rbind_Ok in H as (a' & Hc & H). injection H as <- <-.
  apply CheckForRelease_Ok in Hc as (t & Ht & _ & _ & _ & _ & Hfree).
  simpl in Hin. unfold free1 in *.
  destruct (Is2DStorage (storage_scope t)).
  - destruct Hfree as [Hfree _]. by rewrite Hfree in Hin.
  - destruct Hfree as [_ Hfree]. rewrite Hfree in Hin.
    case_bool_decide; [|done].
    apply list_elem_of_fmap in Hin as (e & -> & He).
    apply elem_of_insert in He as [->|He]; [done|].
    apply list_elem_of_fmap. by exists e.
Qed.

Lemma sim_check_all ts : ∀ pend inprog g sL sA u sA',
  ahead sL → Sim pend inprog g sL sA → NoDup ts →
  Forall (λ T, is_Some (holder g !! T)
               ∧ (T ∉ (free1 (allocator_ (derived sA))).*2)) ts →
  for_each ts allocator_CheckForRelease sA = Ok (u, sA') →
  Sim pend inprog g sL sA'.
Proof.
  induction ts as [|T ts IH]; intros pend inprog g sL sA u sA' Ha HS Hnd Hts H;
    simpl in H.
  - by injection H as <- <-.
  - apply bind_Ok in H as (? & s1 & Hc & H).
    apply NoDup_cons in Hnd as [HT Hnd].
    apply Forall_cons in Hts as [[Hh Hfree] Hts].
    eapply IH; [exact Ha| |exact Hnd| |exact H].
    + eapply sim_check; [exact Ha|exact HS|exact Hh|done|exact Hc].
    + rewrite Forall_forall in Hts. apply Forall_forall. intros T' HT'.
      destruct (Hts T' HT') as [H1 H2]. split; [done|]. intros Hin.
      apply H2. eapply check_free1; [exact Hc| |exact Hin]. by intros ->.
Qed.

Lemma sim_release_all aps : ∀ ats pend inprog g sL sA u sA',
  ahead sL → Sim (aps ++ pend) inprog g sL sA → stands_for g aps ats →
  for_each ats (λ tok, add_ref (-1) tok ;; allocator_CheckForRelease tok) sA
  = Ok (u, sA') →
  Sim pend inprog g sL sA'.
Proof.
  induction aps as [|P aps IH];
    intros ats pend inprog g sL sA u sA' Ha HS Hst H.
  - apply Forall2_nil_inv_l in Hst as ->. by injection H as <- <-.
  - apply Forall2_cons_inv_l in Hst as (T & ats' & HPT & Hst & ->).
    simpl in H. apply bind_Ok in H as (? & s2 & Hbody & H).
    apply bind_Ok in Hbody as (? & s1 & Hdec & Hc).
    destruct (sim_released _ _ _ _ _ _ _ _ _ Ha HS HPT Hdec)
      as (HS1 & Hh & Hnin).
    eapply IH; [exact Ha| |exact Hst|exact H].
    eapply sim_check; [exact Ha|exact HS1|by eexists|done|exact Hc].
Qed.

(** *** The two visits of an expression *)

Local Abbreviation VisitL :=
  (VisitExpr StorageAllocaInit.CreateToken StorageAllocaInit.VisitCall).
Local Abbreviation VisitA := (VisitExpr CreateToken VisitCall).
Local Abbreviation GetL :=
  (GetToken StorageAllocaInit.CreateToken StorageAllocaInit.VisitCall).
Local Abbreviation GetA := (GetToken CreateToken VisitCall).

(** Two steps, one of each pass, that keep the simulation. *)
Definition joint (mL : M StorageAllocaInit.St unit) (mA : M St unit) : Prop :=
  ∀ pend inprog g sL sA uL sL' uA sA',
    mL sL = Ok (uL, sL') → mA sA = Ok (uA, sA') →
    ahead sL' → keys_assigned sL → Sim pend inprog g sL sA →
    ∃ g', token_of g ⊆ token_of g' ∧ Sim pend inprog g' sL' sA'.

(** The same for steps that return tokens: those of the assignment pass
    stand for those of the liveness pass. *)
Definition joint_get (mL : M StorageAllocaInit.St (list tokptr))
    (mA : M St (list tokptr)) : Prop :=
  ∀ pend inprog g sL sA ps sL' ts sA',
    mL sL = Ok (ps, sL') → mA sA = Ok (ts, sA') →
    ahead sL' → keys_assigned sL → Sim pend inprog g sL sA →
    ∃ g', token_of g ⊆ token_of g' ∧ stands_for g' ps ts
          ∧ Sim pend inprog g' sL' sA'.

Lemma joint_memoised n mL mA :
  joint mL mA → joint (memoised n mL) (memoised n mA).
Proof.
  intros Hj pend inprog g sL sA uL sL' uA sA' HL HA Ha Hk HS.
  unfold memoised in HL, HA. rewrite <- (sim_visited _ _ _ _ _ HS) in HA.
  case_bool_decide.
  - injection HL as <- <-. injection HA as <- <-. by exists g.
  - destruct (mL sL) as [[? sL1]|] eqn:EL; [|done].
    destruct (mA sA) as [[? sA1]|] eqn:EA; [|done].
    injection HL as <- <-. injection HA as <- <-.
    assert (Ha1 : ahead sL1).
    { eapply ahead_grows; [|exact Ha]. apply grows_visited. }
    destruct (Hj _ _ _ _ _ _ _ _ _ EL EA Ha1 Hk HS) as (g' & Hsub & HS').
    exists g'. split; [done|]. by apply (sim_mark n) in HS'.
Qed.

Lemma joint_find n mL mA :
  joint mL mA → joint_get (mL ;; find_tokens n) (mA ;; find_tokens n).
Proof.
  intros Hj pend inprog g sL sA ps sL' ts sA' HL HA Ha Hk HS.
  apply bind_Ok in HL as (? & sL1 & HL & HfL).
  apply bind_Ok in HA as (? & sA1 & HA & HfA).
  pose proof HfL as [-> _]%find_tokens_Ok.
  pose proof HfA as [-> _]%find_tokens_Ok.
  destruct (Hj _ _ _ _ _ _ _ _ _ HL HA Ha Hk HS) as (g' & Hsub & HS').
  exists g'. split; [done|].
  by destruct (sim_find _ _ _ _ _ _ _ _ _ _ HS' HfL HfA) as (_ & _ & ?).
Qed.

Lemma keys_VisitExpr e (sL : StorageAllocaInit.St) u sL' :
  VisitL e sL = Ok (u, sL') → keys_assigned sL → keys_assigned sL'.
Proof. intros H. by apply grows_keys, (grows_VisitExpr e sL u). Qed.

Lemma keys_GetToken e (sL : StorageAllocaInit.St) ps sL' :
  GetL e sL = Ok (ps, sL') → keys_assigned sL → keys_assigned sL'.
Proof. intros H. by apply grows_keys, (grows_GetToken e sL ps). Qed.

Lemma grows_collect es : ∀ (sL : StorageAllocaInit.St) ps sL',
  collect (map GetL es) sL = Ok (ps, sL') → grows sL sL'.
Proof.
  induction es as [|e es IH]; intros sL ps sL' H; simpl in H.
  - injection H as <- <-. apply grows_refl.
  - apply bind_Ok in H as (ps1 & sL1 & H1 & H).
    apply bind_Ok in H as (ps2 & sL2 & H2 & H). injection H as <- <-.
    eapply grows_trans; [by eapply grows_GetToken|by eapply IH].
Qed.

Lemma joint_collect es :
  Forall (λ e, joint_get (GetL e) (GetA e)) es →
  joint_get (collect (map GetL es)) (collect (map GetA es)).
Proof.
  induction 1 as [|e es He Hes IH];
    intros pend inprog g sL sA ps sL' ts sA' HL HA Ha Hk HS; simpl in HL, HA.
  - injection HL as <- <-. injection HA as <- <-. exists g.
    split_and!; [done|constructor|done].
  - apply bind_Ok in HL as (ps1 & sL1 & HL1 & HL).
    apply bind_Ok in HL as (ps2 & sL2 & HL2 & HL). injection HL as <- <-.
    apply bind_Ok in HA as (ts1 & sA1 & HA1 & HA).
    apply bind_Ok in HA as (ts2 & sA2 & HA2 & HA). injection HA as <- <-.
    assert (Ha1 : ahead sL1).
    { eapply ahead_grows; [|exact Ha]. by eapply grows_collect. }
    destruct (He _ _ _ _ _ _ _ _ _ HL1 HA1 Ha1 Hk HS)
      as (g1 & Hsub1 & Hst1 & HS1).
    pose proof (keys_GetToken _ _ _ _ HL1 Hk) as Hk1.
    destruct (IH _ _ _ _ _ _ _ _ _ HL2 HA2 Ha Hk1 HS1)
      as (g2 & Hsub2 & Hst2 & HS2).
    exists g2. split_and!; [by etrans| |done].
    apply Forall2_app; [|done]. by eapply stands_for_mono.
Qed.

Lemma joint_CreateToken n ty b b' :
  joint (StorageAllocaInit.CreateToken n ty b) (CreateToken n ty b').
Proof.
  intros pend inprog g sL sA uL sL' uA sA' HL HA Ha Hk HS.
  apply CreateToken_Ok in HL as (ps & Hcr).
  pose proof (sim_created _ _ _ _ _ _ _ _ HS Hcr) as HS1.
  pose proof (grows_keys _ _ (grows_created _ _ _ _ Hcr) Hk) as Hk'.
  assert (Hn : token_map_ sL' !! n = Some ps).
  { destruct Hcr as (news & _ & _ & _ & _ & -> & _).
    by rewrite lookup_insert_eq. }
  destruct (sim_CreateToken _ _ _ _ _ _ _ _ _ _ _ Ha Hk' Hn HS1 HA)
    as (g' & ts & (Hsub & _) & _ & _ & _ & HS').
  by exists g'.
Qed.

Lemma grows_counted ps (sL : StorageAllocaInit.St) u sL' :
  for_each ps (add_ref 1) sL = Ok (u, sL') → grows sL sL'.
Proof.
  apply (for_each_rel grows (@grows_refl _) (@grows_trans _)).
  intros tok w1 u1 w2 _ Hadd. by eapply grows_add_ref.
Qed.

Lemma grows_args es : ∀ (sL : StorageAllocaInit.St) u sL',
  for_each (map GetL es)
    (λ get_arg, let* toks := get_arg in for_each toks (add_ref 1)) sL
  = Ok (u, sL') →
  grows sL sL'.
Proof.
  induction es as [|e es IH]; intros sL u sL' H; simpl in H.
  - injection H as <- <-. apply grows_refl.
  - apply bind_Ok in H as (? & sL2 & Hbody & H).
    apply bind_Ok in Hbody as (ps & sL1 & Hget & Hadd).
    eapply grows_trans; [by eapply grows_GetToken|].
    eapply grows_trans; [by eapply grows_counted|by eapply IH].
Qed.

Lemma joint_args es :
  Forall (λ e, joint_get (GetL e) (GetA e)) es →
  ∀ pend inprog g sL sA uL sL' ts sA',
    for_each (map GetL es)
      (λ get_arg, let* toks := get_arg in for_each toks (add_ref 1)) sL
    = Ok (uL, sL') →
    collect (map GetA es) sA = Ok (ts, sA') →
    ahead sL' → keys_assigned sL → Sim pend inprog g sL sA →
    ∃ g' ps, token_of g ⊆ token_of g' ∧ stands_for g' ps ts
             ∧ Sim (pend ++ ps) inprog g' sL' sA'.
Proof.
  induction 1 as [|e es He Hes IH];
    intros pend inprog g sL sA uL sL' ts sA' HL HA Ha Hk HS; simpl in HL, HA.
  - injection HL as <- <-. injection HA as <- <-. exists g, [].
    rewrite app_nil_r. split_and!; [done|constructor|done].
  - apply bind_Ok in HL as (? & sL2 & Hbody & HL).
    apply bind_Ok in Hbody as (ps1 & sL1 & HL1 & Hadd).
    apply bind_Ok in HA as (ts1 & sA1 & HA1 & HA).
    apply bind_Ok in HA as (ts2 & sA2 & HA2 & HA). injection HA as <- <-.
    assert (Ha2 : ahead sL2).
    { eapply ahead_grows; [|exact Ha]. by eapply grows_args. }
    assert (Ha1 : ahead sL1).
    { eapply ahead_grows; [|exact Ha2]. by eapply grows_counted. }
    destruct (He _ _ _ _ _ _ _ _ _ HL1 HA1 Ha1 Hk HS)
      as (g1 & Hsub1 & Hst1 & HS1).
    pose proof (sim_counted_all _ _ _ _ _ _ _ _ _ HS1 Hst1 Hadd) as HS2.
    assert (Hk2 : keys_assigned sL2).
    { eapply grows_keys; [by eapply grows_counted|].
      by eapply keys_GetToken. }
    destruct (IH _ _ _ _ _ _ _ _ _ HL HA2 Ha Hk2 HS2)
      as (g2 & ps2 & Hsub2 & Hst2 & HS3).
    exists g2, (ps1 ++ ps2). rewrite app_assoc.
    split_and!; [by etrans| |done].
    apply Forall2_app; [|done]. by eapply stands_for_mono.
Qed.

Lemma joint_VisitCall n ty es :
  Forall (λ e, joint_get (GetL e) (GetA e)) es →
  joint (StorageAllocaInit.VisitCall n ty (map GetL es))
        (VisitCall n ty (map GetA es)).
Proof.
  intros Hes pend inprog g sL sA uL sL' uA sA' HL HA Ha Hk HS.
  unfold StorageAllocaInit.VisitCall in HL. unfold VisitCall in HA.
  apply bind_Ok in HL as (? & sL1 & Hcreate & HL).
  apply bind_Ok in HA as (ats & sA1 & Hcollect & HA).
  apply bind_Ok in HA as (? & sA2 & HcreateA & HA).
  apply bind_Ok in HA as (ts & ? & [-> Hts]%find_tokens_Ok & HA).
  apply bind_Ok in HA as (? & sA3 & Hchecks & HA).
  apply CreateToken_Ok in Hcreate as (ps & Hcr).
  pose proof (sim_created _ _ _ _ _ _ _ _ HS Hcr) as HS1.
  pose proof (grows_keys _ _ (grows_created _ _ _ _ Hcr) Hk) as Hk1.
  assert (Hn1 : token_map_ sL1 !! n = Some ps).
  { destruct Hcr as (news & _ & _ & _ & _ & -> & _).
    by rewrite lookup_insert_eq. }
  pose proof (grows_args _ _ _ _ HL) as Hg.
  destruct (joint_args _ Hes _ _ _ _ _ _ _ _ _ HL Hcollect Ha Hk1 HS1)
    as (g1 & aps & Hsub1 & Hst1 & HS2).
  pose proof (grows_keys _ _ Hg Hk1) as Hk2.
  pose proof (grows_lookup _ _ _ _ Hg (ahead_NoDup _ Ha) Hk1 Hn1) as Hn.
  destruct (sim_CreateToken _ _ _ _ _ _ _ _ _ _ _ Ha Hk2 Hn HS2 HcreateA)
    as (g2 & ts' & (Hsub2 & _) & Hts' & Hnd & Hall & HS3).
  assert (ts' = ts) as -> by congruence.
  pose proof (sim_check_all _ _ _ _ _ _ _ _ Ha HS3 Hnd Hall Hchecks) as HS4.
  apply (sim_Permutation _ (aps ++ pend)) in HS4;
    [|apply Permutation_app_comm].
  exists g2. split; [by etrans|].
  eapply sim_release_all; [exact Ha|exact HS4| |exact HA].
  by eapply stands_for_mono.
Qed.

Lemma joint_GetToken e : joint (VisitL e) (VisitA e) → joint_get (GetL e) (GetA e).
Proof. apply joint_find. Qed.

Lemma joint_gets es :
  Forall (λ e, joint (VisitL e) (VisitA e)) es →
  Forall (λ e, joint_get (GetL e) (GetA e)) es.
Proof.
  intros H. eapply Forall_impl; [exact H|]. intros e. apply joint_GetToken.
Qed.

Lemma joint_set_tokens n ps ts pend inprog g sL sA uL sL' uA sA' :
  set_tokens n ps sL = Ok (uL, sL') → set_tokens n ts sA = Ok (uA, sA') →
  stands_for g ps ts → Sim pend inprog g sL sA →
  Sim pend inprog g sL' sA' ∧ grows sL sL'.
Proof.
  intros HL HA Hst HS. split.
  - by eapply sim_set_tokens.
  - by eapply grows_set_tokens.
Qed.

(** The simulation is kept by the two visits of any expression. *)
Lemma joint_VisitExpr e : joint (VisitL e) (VisitA e).
Proof.
  induction e as [n ty|n|n|n|n|n ty args IH|n fields IH|n tuple index IH
                 |n var value body IHv IHb|n] using Expr_nested_ind;
    apply joint_memoised.
  - apply joint_CreateToken.
  - intros pend inprog g sL sA uL sL' uA sA' [= <- <-] [= <- <-] _ _ HS.
    by exists g.
  - intros pend inprog g sL sA uL sL' uA sA' [= <- <-] [= <- <-] _ _ HS.
    by exists g.
  - intros pend inprog g sL sA uL sL' uA sA' [= <- <-] [= <- <-] _ _ HS.
    by exists g.
  - intros pend inprog g sL sA uL sL' uA sA' [= <- <-] [= <- <-] _ _ HS.
    by exists g.
  - apply (joint_VisitCall n ty args). by apply joint_gets.
  - intros pend inprog g sL sA uL sL' uA sA' HL HA Ha Hk HS.
    apply bind_Ok in HL as (ps & sL1 & HL1 & HL).
    apply bind_Ok in HA as (ts & sA1 & HA1 & HA).
    assert (Ha1 : ahead sL1).
    { eapply ahead_grows; [|exact Ha]. by eapply grows_set_tokens. }
    destruct (joint_collect fields (joint_gets _ IH) _ _ _ _ _ _ _ _ _
                HL1 HA1 Ha1 Hk HS) as (g1 & Hsub & Hst & HS1).
    exists g1. split; [done|].
    by destruct (joint_set_tokens _ _ _ _ _ _ _ _ _ _ _ _ HL HA Hst HS1).
  - intros pend inprog g sL sA uL sL' uA sA' HL HA Ha Hk HS.
    apply bind_Ok in HL as (ps & sL1 & HL1 & HL).
    apply bind_Ok in HL as (? & ? & [_ ->]%ICHECK_Ok & HL).
    apply bind_Ok in HA as (ts & sA1 & HA1 & HA).
    apply bind_Ok in HA as (? & ? & [_ ->]%ICHECK_Ok & HA).
    destruct (ps !! Z.to_nat index) as [p|] eqn:Ep; [|done].
    destruct (ts !! Z.to_nat index) as [t|] eqn:Et; [|done].
    assert (Ha1 : ahead sL1).
    { eapply ahead_grows; [|exact Ha]. by eapply grows_set_tokens. }
    destruct (joint_GetToken tuple IH _ _ _ _ _ _ _ _ _ HL1 HA1 Ha1 Hk HS)
      as (g1 & Hsub & Hst & HS1).
    exists g1. split; [done|].
    assert (Hpt : stands_for g1 [p] [t]).
    { constructor; [|constructor].
      exact (Forall2_lookup_lr _ _ _ _ _ _ Hst Ep Et). }
    by destruct (joint_set_tokens _ _ _ _ _ _ _ _ _ _ _ _ HL HA Hpt HS1).
  - intros pend inprog g sL sA uL sL' uA sA' HL HA Ha Hk HS.
    apply bind_Ok in HL as (ps & sL1 & HL1 & HL).
    apply bind_Ok in HL as (? & sL2 & HL2 & HL).
    apply bind_Ok in HL as (bps & sL3 & HL3 & HL).
    apply bind_Ok in HA as (ts & sA1 & HA1 & HA).
    apply bind_Ok in HA as (? & sA2 & HA2 & HA).
    apply bind_Ok in HA as (bts & sA3 & HA3 & HA).
    assert (Ha3 : ahead sL3).
    { eapply ahead_grows; [|exact Ha]. by eapply grows_set_tokens. }
    assert (Ha2 : ahead sL2).
    { eapply ahead_grows; [|exact Ha3]. by eapply grows_GetToken. }
    assert (Ha1 : ahead sL1).
    { eapply ahead_grows; [|exact Ha2]. by eapply grows_set_tokens. }
    destruct (joint_GetToken value IHv _ _ _ _ _ _ _ _ _ HL1 HA1 Ha1 Hk HS)
      as (g1 & Hsub1 & Hst1 & HS1).
    destruct (joint_set_tokens _ _ _ _ _ _ _ _ _ _ _ _ HL2 HA2 Hst1 HS1)
      as [HS2 Hg2].
    assert (Hk2 : keys_assigned sL2).
    { apply (grows_keys _ _ Hg2). by eapply keys_GetToken. }
    destruct (joint_GetToken body IHb _ _ _ _ _ _ _ _ _ HL3 HA3 Ha3 Hk2 HS2)
      as (g2 & Hsub2 & Hst2 & HS3).
    exists g2. split; [by etrans|].
    by destruct (joint_set_tokens _ _ _ _ _ _ _ _ _ _ _ _ HL HA Hst2 HS3).
  - by intros pend inprog g sL sA uL sL' uA sA' HL.
Qed.

(** *** The whole function *)

Lemma grows_params (params : list (node * Ty)) :
  ∀ (sL : StorageAllocaInit.St) u sL',
    for_each params
      (λ param, StorageAllocaInit.CreateToken param.1 param.2 false) sL
    = Ok (u, sL') →
    grows sL sL'.
Proof.
  intros sL u sL'.
  apply (for_each_rel grows (@grows_refl _) (@grows_trans _)).
  intros prm w1 u1 w2 _ Hc. by eapply grows_CreateToken.
Qed.

Lemma joint_params (params : list (node * Ty)) :
  joint
    (for_each params
       (λ param, StorageAllocaInit.CreateToken param.1 param.2 false))
    (for_each params (λ param, CreateToken param.1 param.2 false)).
Proof.
  induction params as [|prm params IH];
    intros pend inprog g sL sA uL sL' uA sA' HL HA Ha Hk HS; simpl in HL, HA.
  - injection HL as <- <-. injection HA as <- <-. by exists g.
  - apply bind_Ok in HL as (? & sL1 & HL1 & HL).
    apply bind_Ok in HA as (? & sA1 & HA1 & HA).
    assert (Ha1 : ahead sL1).
    { eapply ahead_grows; [|exact Ha]. by eapply grows_params. }
    destruct (joint_CreateToken _ _ _ _ _ _ _ _ _ _ _ _ _ HL1 HA1 Ha1 Hk HS)
      as (g1 & Hsub1 & HS1).
    assert (Hk1 : keys_assigned sL1).
    { eapply grows_keys; [by eapply grows_CreateToken|done]. }
    destruct (IH _ _ _ _ _ _ _ _ _ HL HA Ha Hk1 HS1) as (g2 & Hsub2 & HS2).
    exists g2. split; [by etrans|done].
Qed.

Lemma sim_init dev_map storage_map :
  Sim [] [] (mkGhost ∅ ∅ ∅) (StorageAllocaInit.init dev_map storage_map)
    (init F (token_map_ sEnd)).
Proof.
  split; simpl; try done.
  - apply frame_refl.
  - intros P. split; [simpl; lia|]. intros [[? H]|H]; [done|].
    by apply elem_of_nil in H.
  - constructor.
  - intros P H. by apply elem_of_nil in H.
  - intros e H. by apply elem_of_nil in H.
  - constructor.
  - intros T [? H]. done.
  - intros T H. by apply elem_of_nil in H.
  - intros e P T H. by apply elem_of_nil in H.
  - apply checks_safe_nil.
  - intros T c H. by apply elem_of_nil in H.
  - intros T b c H. by apply elem_of_nil in H.
Qed.

(** The simulation holds once both passes have visited the body. *)
Lemma sim_body func dev_map storage_map uL sL1 uA sA1 ts sA2 :
  for_each (params func)
    (λ param, StorageAllocaInit.CreateToken param.1 param.2 false)
    (StorageAllocaInit.init dev_map storage_map) = Ok (uL, sL1) →
  GetL (body func) sL1 = Ok (outs, sEnd) →
  for_each (params func) (λ param, CreateToken param.1 param.2 false)
    (init F (token_map_ sEnd)) = Ok (uA, sA1) →
  GetA (body func) sA1 = Ok (ts, sA2) →
  ∃ g, stands_for g outs ts ∧ Sim [] [] g sEnd sA2.
Proof.
  intros HL1 HL2 HA1 HA2.
  assert (Ha : ahead sEnd) by apply grows_refl.
  assert (Ha1 : ahead sL1).
  { eapply ahead_grows; [|exact Ha]. by eapply grows_GetToken. }
  assert (Hk : keys_assigned (StorageAllocaInit.init dev_map storage_map)).
  { intros n [? H]. done. }
  destruct (joint_params _ _ _ _ _ _ _ _ _ _ HL1 HA1 Ha1 Hk
              (sim_init dev_map storage_map)) as (g1 & _ & HS1).
  assert (Hk1 : keys_assigned sL1).
  { eapply grows_keys; [by eapply grows_params|done]. }
  destruct (joint_GetToken _ (joint_VisitExpr (body func))
              _ _ _ _ _ _ _ _ _ HL2 HA2 Ha Hk1 HS1) as (g2 & _ & Hst & HS2).
  by exists g2.
Qed.

(** What the simulation tells at the end of the visit. *)
Lemma sim_final g sA ts :
  Sim [] [] g sEnd sA → stands_for g outs ts →
  checks_safe outs (hist sA)
  ∧ (∀ T c, EvCheckForRelease T true c ∈ hist sA → 1 ≤ c)
  ∧ free2 (allocator_ (derived sA)) = []
  ∧ (∀ T, kept outs (hist sA) T →
          1 ≤ rc (arena_ sA) T
          ∧ (T ∉ (free1 (allocator_ (derived sA))).*2))
  ∧ Forall2 (λ P T, ∃ e, e ∈ hist sA ∧ acquires e = Some (P, T)) outs ts
  ∧ (∀ T b c, EvPin T ∈ hist sA → EvCheckForRelease T b c ∈ hist sA → 1 ≤ c).
Proof.
  intros HS Hst.
  assert (Ha : ahead sEnd) by apply grows_refl.
  split_and!.
  - apply (sim_safe _ _ _ _ _ HS).
  - apply (sim_checks2d _ _ _ _ _ HS).
  - apply (sim_free2 _ _ _ _ _ HS).
  - intros T Hk. pose proof (sim_kept _ _ _ _ _ _ Ha HS Hk) as Hrc.
    split; [done|]. intros Hin.
    pose proof (sim_in_free1_rc _ _ _ _ _ _ HS Hin). lia.
  - eapply Forall2_impl; [exact Hst|]. intros P T HPT. simpl in HPT.
    by apply (sim_acquired _ _ _ _ _ HS).
  - intros T b c Hpin. apply (sim_pinned_checks _ _ _ _ _ HS).
    by apply (sim_hist_pin _ _ _ _ _ HS).
Qed.

End Lockstep.

(** ** The references that keep the outputs *)

Section Outputs.
Context {D : Type}.

(** What [for (StorageToken* tok : GetToken(func->body))
    tok->ref_counter += 1] does to a state. *)
Lemma counted_outputs (toks : list tokptr) : ∀ (s : Visitor D) u s',
  for_each toks (add_ref 1) s = Ok (u, s') →
  length (arena_ s') = length (arena_ s)
  ∧ (∀ P, rc (arena_ s') P = rc (arena_ s) P + occ P toks)
  ∧ token_map_ s' = token_map_ s
  ∧ assigned s' = assigned s
  ∧ derived s' = derived s.
Proof.
  induction toks as [|T toks IH]; intros s u s' H; simpl in H.
  - injection H as <- <-. split_and!; try done.
    intros P. rewrite occ_nil. lia.
  - apply bind_Ok in H as (? & s1 & Hadd & H).
    apply add_ref_Ok in Hadd as (t & Ht & _ & ->).
    destruct (IH _ _ _ H) as (Hlen & Hrc & Htm & Has & Hd). simpl in *.
    assert (Hlt : (T < length (arena_ s))%nat) by (by eapply lookup_lt_Some).
    split_and!; try done.
    + by rewrite Hlen, length_insert.
    + intros P. rewrite Hrc, occ_cons. destruct (decide (T = P)) as [<-|Hne].
      * rewrite rc_insert_eq by done. rewrite (rc_lookup _ _ _ Ht). simpl. lia.
      * rewrite rc_insert_ne by done. lia.
Qed.

End Outputs.

Section Kept.
Import StorageAllocator.

(** The assignment pass of a function whose liveness pass gave every node
    its tokens once: the tokens that are pinned and the tokens handed out
    for the outputs are kept. *)
Lemma Assign_keeps func dev_map storage_map proto v :
  StorageAllocaInit.GetInitTokenMap func dev_map storage_map = Ok proto →
  NoDup (assigned proto) →
  Assign func proto = Ok v →
  ∃ outs ts,
    token_map_ proto !! node_of (body func) = Some outs
    ∧ token_map_ v !! node_of (body func) = Some ts
    ∧ checks_safe outs (hist v)
    ∧ (∀ T c, EvCheckForRelease T true c ∈ hist v → 1 ≤ c)
    ∧ free2 (allocator_ (derived v)) = []
    ∧ (∀ T, kept outs (hist v) T →
            1 + occ T ts ≤ rc (arena_ v) T
            ∧ (T ∉ (free1 (allocator_ (derived v))).*2))
    ∧ Forall2 (λ P T, ∃ e, e ∈ hist v ∧ acquires e = Some (P, T)) outs ts
    ∧ (∀ T b c, EvPin T ∈ hist v → EvCheckForRelease T b c ∈ hist v → 1 ≤ c).
Proof.
  unfold StorageAllocaInit.GetInitTokenMap, Assign. intros HL Hnd HA.
  apply rbind_Ok in HL as ([uL proto'] & HL & [= <-]).
  apply rbind_Ok in HA as ([uA v'] & HA & [= <-]).
  unfold Run in HL, HA. simpl in *.
  apply bind_Ok in HL as (? & sL1 & HL1 & HL).
  apply bind_Ok in HL as (outs & sEnd & HL2 & HL3).
  apply bind_Ok in HA as (? & sA1 & HA1 & HA).
  apply bind_Ok in HA as (ts & sA2 & HA2 & HA3).
  destruct (counted_outputs _ _ _ _ HL3) as (Hlen & Hrc & Htm & Has & _).
  destruct (counted_outputs _ _ _ _ HA3) as (_ & HrcA & HtmA & _ & Hd).
  rewrite Htm in HA1. rewrite Has in Hnd.
  destruct (sim_body sEnd outs (arena_ proto') Hlen Hrc Hnd func dev_map
              storage_map _ _ _ _ _ _ HL1 HL2 HA1 HA2) as (g & Hst & HS).
  destruct (sim_final sEnd outs (arena_ proto') Hlen Hrc g sA2 ts HS Hst)
    as (Hsafe & H2d & Hfree2 & Hkept & Hacq & Hpinned).
  apply bind_Ok in HL2 as (? & ? & _ & [-> Houts]%find_tokens_Ok).
  apply bind_Ok in HA2 as (? & ? & _ & [-> Hts]%find_tokens_Ok).
  exists outs, ts. unfold hist in *. rewrite Hd, Htm, HtmA.
  split_and!; try done.
  intros T HT. destruct (Hkept T HT) as [H1 H2]. split; [|done].
  rewrite HrcA. lia.
Qed.

End Kept.

(** ** Pinned tokens and output tokens *)

Section KeptTokens.
Import StorageAllocator.

(** An allocation is the fallback of a request that found nothing, or it is
    followed by the increment that pins the token. *)
Lemma blocks_alloc h l P id b :
  blocks h l → EvAlloc P id b ∈ l →
  EvRequest P false None ∈ l ∨ EvPin P ∈ l.
Proof.
  induction 1 as [|P' T l Hs Hp _ IH|P' id' l Hs Hp _ IH|P' id' l Hp _ IH
                 |T rc' l Hp _ IH]; intros Hin.
  - by apply elem_of_nil in Hin.
  - apply elem_of_cons in Hin as [Heq|Hin]; [done|].
    destruct (IH Hin); [left|right]; by right.
  - apply elem_of_cons in Hin as [Heq|Hin].
    + injection Heq as -> -> ->. left. right. by left.
    + apply elem_of_cons in Hin as [Heq|Hin]; [done|].
      destruct (IH Hin); [left|right]; by do 2 right.
  - apply elem_of_cons in Hin as [Heq|Hin]; [done|].
    apply elem_of_cons in Hin as [Heq|Hin].
    + injection Heq as -> -> ->. right. by left.
    + destruct (IH Hin); [left|right]; by do 2 right.
  - apply elem_of_cons in Hin as [Heq|Hin]; [done|].
    destruct (IH Hin); [left|right]; by right.
Qed.

(** The branch of [CreateToken] that does not ask for reuse: the prototype
    itself is allocated and its reference count incremented. *)
Lemma create_one_fresh b P s T s' :
  create_one b P s = Ok (T, s') →
  b = false ∨ scope_of (arena_ s) P ≠ "global" →
  allocated true P s T s'.
Proof.
  intros H Hb.
  apply create_one_Ok in H as [[-> Hreq]|H]; [|done].
  destruct Hb as [Hb|Hscope]; [done|]. exfalso. apply Hscope.
  destruct Hreq as [(t & ? & ? & ? & ? & ? & Ht & Hg & _)
                   |(t & ? & ? & Ht & _ & _ & _ & _ & _ & _ & Hg & _)];
    unfold scope_of; by rewrite Ht.
Qed.



(** C8, as stated, fails: in the chain of three calls the token of the
    function's result is token 3. It first holds the result of the innermost
    call: when the middle call has consumed it, its release check sees the
    reference count 0 and puts it on the free list, from where the request
    for the outermost call, the output, takes it. *)
Lemma output_token_was_released :
  StorageAllocaInit.GetInitTokenMap chain ∅ ∅ = Ok chain_proto
  ∧ Assign chain chain_proto = Ok chain_assigned
  ∧ token_map_ chain_assigned !! node_of (body chain) = Some [3%nat]
  ∧ hist chain_assigned
    = [EvCheckForRelease 2 false 0; EvCheckForRelease 3 false 1;
       EvRequest 1 false (Some 3%nat); EvCheckForRelease 3 false 0;
       EvCheckForRelease 2 false 1; EvAlloc 2 2 false;
       EvRequest 2 false None; EvCheckForRelease 0 false 1;
       EvCheckForRelease 3 false 1; EvAlloc 3 1 false;
       EvRequest 3 false None; EvPin 0; EvAlloc 0 0 false]
  ∧ ¬ (∀ T b c, T ∈ [3%nat] →
         EvCheckForRelease T b c ∈ hist chain_assigned → 1 ≤ c).
Proof.
  assert (Hh : hist chain_assigned
    = [EvCheckForRelease 2 false 0; EvCheckForRelease 3 false 1;
       EvRequest 1 false (Some 3%nat); EvCheckForRelease 3 false 0;
       EvCheckForRelease 2 false 1; EvAlloc 2 2 false;
       EvRequest 2 false None; EvCheckForRelease 0 false 1;
       EvCheckForRelease 3 false 1; EvAlloc 3 1 false;
       EvRequest 3 false None; EvPin 0; EvAlloc 0 0 false]).
  { vm_compute. reflexivity. }
  split_and!; [vm_compute; reflexivity..|exact Hh|].
  intros H. specialize (H 3%nat false 0). rewrite Hh in H.
  assert (1 ≤ 0); [|lia].
  apply H; [by left|]. do 3 right. by left.
Qed.

(** C8, amended: in the assignment pass of a function whose liveness pass
    gave every node its tokens once, each token of the function's result was
    handed out, by an allocation or by a request, for the output prototype
    at the same position; from the moment a token is handed out for an
    output prototype, every release check of it sees a reference count of at
    least 1, so that it is not inserted into a free list again; and when the
    pass ends, with the additional reference [Run] gives each token of the
    result, such a token has a reference count of at least 2 and is in no
    free list. *)
Theorem Assign_keeps_outputs func dev_map storage_map proto v :
  StorageAllocaInit.GetInitTokenMap func dev_map storage_map = Ok proto →
  NoDup (assigned proto) →
  Assign func proto = Ok v →
  ∃ outs ts,
    token_map_ proto !! node_of (body func) = Some outs
    ∧ token_map_ v !! node_of (body func) = Some ts
    ∧ Forall2 (λ P T, ∃ e, e ∈ hist v ∧ acquires e = Some (P, T)) outs ts
    ∧ (∀ l1 l2 T b c e P,
         hist v = l2 ++ EvCheckForRelease T b c :: l1 →
         e ∈ l1 → acquires e = Some (P, T) → P ∈ outs → 1 ≤ c)
    ∧ (∀ T, T ∈ ts →
         2 ≤ rc (arena_ v) T
         ∧ (T ∉ (free1 (allocator_ (derived v))).*2)).
Proof.
  intros HL Hnd HA.
  destruct (Assign_keeps _ _ _ _ _ HL Hnd HA)
    as (outs & ts & Houts & Hts & Hsafe & _ & _ & Hkept & Hacq & _).
  exists outs, ts. split_and!; [done|done|done| |].
  - intros l1 l2 T b c e P Hl He Hacq' HP. eapply Hsafe; [exact Hl|].
    right. by exists e, P.
  - intros T HT. apply list_elem_of_lookup in HT as HT'.
    destruct HT' as [i Hi].
    destruct (Forall2_lookup_r _ _ _ _ _ Hacq Hi) as (P & HP & e & He & Hacq').
    assert (Hk : kept outs (hist v) T).
    { right. exists e, P. split_and!; [done|done|].
      apply list_elem_of_lookup. by exists i. }
    destruct (Hkept T Hk) as [H1 H2]. split; [|done].
    pose proof (occ_elem_of T ts HT). lia.
Qed.

Lemma Assign_keeps_outputs_witness :
  NoDup (assigned chain_proto)
  ∧ ∃ outs ts,
      token_map_ chain_proto !! node_of (body chain) = Some outs
      ∧ token_map_ chain_assigned !! node_of (body chain) = Some ts
      ∧ ∀ T, T ∈ ts → 2 ≤ rc (arena_ chain_assigned) T.
Proof.
  assert (Hnd : NoDup (assigned chain_proto)).
  { apply (bool_decide_unpack _). vm_compute. exact I. }
  split; [exact Hnd|].
  destruct (Assign_keeps_outputs chain ∅ ∅ chain_proto chain_assigned)
    as (outs & ts & Houts & Hts & _ & _ & Hrc).
  - vm_compute. reflexivity.
  - exact Hnd.
  - vm_compute. reflexivity.
  - exists outs, ts. split_and!; [exact Houts|exact Hts|].
    intros T HT. apply (Hrc T HT).
Defined.

End KeptTokens.

(** * Further properties of the three files *)

(** ** The 2d flattening of a shape *)

Definition prodZ (l : list Z) : Z := foldr Z.mul 1 l.

Section Flattening.
Import texture.

Lemma prodZ_app l1 l2 : prodZ (l1 ++ l2) = prodZ l1 * prodZ l2.
Proof.
  induction l1 as [|x l1 IH]; simpl; [lia|]. unfold prodZ in *. simpl.
  rewrite IH. lia.
Qed.

Lemma prodZ_take_drop l n : prodZ l = prodZ (take n l) * prodZ (drop n l).
Proof. by rewrite <- prodZ_app, take_drop. Qed.

Variable shape : Z → result Z.
Variable dims : list Z.
Hypothesis shape_dims : ∀ i d, dims !! i = Some d → shape (Z.of_nat i) = Ok d.

(** The loop multiplies the dimensions below the separator into the height
    and the others into the width. *)
Lemma flatten_loop_products (a : nat) n : ∀ i t t',
  (i + n ≤ length dims)%nat →
  flatten_loop shape (Z.of_nat a) n (Z.of_nat i) t = Ok t' →
  height t' = height t * prodZ (take (a - i) (take n (drop i dims)))
  ∧ width t' = width t * prodZ (drop (a - i) (take n (drop i dims)))
  ∧ channel t' = channel t.
Proof.
  induction n as [|n IH]; intros i t t' Hlen H; simpl in H.
  - injection H as <-. rewrite take_0, take_nil, drop_nil. simpl.
    unfold prodZ. simpl. lia.
  - destruct (dims !! i) as [d|] eqn:Hd;
      [|apply lookup_ge_None in Hd; lia].
    rewrite (shape_dims _ _ Hd) in H. simpl in H.
    rewrite (drop_S _ _ _ Hd). rewrite firstn_cons.
    apply rbind_Ok in H as (t1 & Ht1 & H).
    replace (Z.of_nat i + 1) with (Z.of_nat (S i)) in H by lia.
    apply IH in H as (Hh & Hw & Hc); [|lia].
    replace (a - S i)%nat with (a - i - 1)%nat in * by lia.
    case_bool_decide as Hia.
    + apply rbind_Ok in Ht1 as (hh & [-> _]%as_int64_Ok & [= <-]).
      simpl in *. destruct (a - i)%nat as [|k] eqn:Hk; [lia|].
      replace (S k - 1)%nat with k in * by lia.
      rewrite Hh, Hw, Hc. unfold prodZ. simpl. split_and!; [lia|done|done].
    + apply rbind_Ok in Ht1 as (ww & [-> _]%as_int64_Ok & [= <-]).
      simpl in *. replace (a - i)%nat with O in * by lia.
      replace (0 - 1)%nat with O in * by lia.
      rewrite take_0 in Hh. rewrite drop_0 in Hw.
      rewrite Hh, Hw, Hc. unfold prodZ. simpl. split_and!; [done|lia|done].
Qed.

(** The products the flattening computes. *)
Lemma flatten_products (a : nat) t :
  ApplyTexture2DFlattening shape (Z.of_nat (length dims)) (Z.of_nat a) = Ok t →
  (a < length dims)%nat
  ∧ height t = prodZ (take a dims)
  ∧ width t = prodZ (drop a (take (length dims - 1) dims))
  ∧ last dims = Some (channel t)
  ∧ width t * height t * channel t = prodZ dims.
Proof.
  unfold ApplyTexture2DFlattening. case_bool_decide as Ha; [|done]. simpl.
  intros H. assert (Hlt : (a < length dims)%nat) by lia.
  replace (Z.of_nat (length dims) - 1) with (Z.of_nat (length dims - 1)) in H
    by lia.
  destruct (dims !! (length dims - 1)%nat) as [c|] eqn:Hc;
    [|apply lookup_ge_None in Hc; lia].
  rewrite (shape_dims _ _ Hc) in H. simpl in H. rewrite Nat2Z.id in H.
  apply (flatten_loop_products a (length dims - 1) O) in H
    as (Hh & Hw & Hch); [|simpl; lia].
  simpl in Hh, Hw, Hch. rewrite drop_0, Nat.sub_0_r in Hh, Hw.
  rewrite take_take in Hh. replace (a `min` (length dims - 1))%nat with a in Hh
    by lia.
  assert (Hlast : drop (length dims - 1) dims = [c]).
  { rewrite (drop_S _ _ _ Hc). rewrite drop_ge by lia. done. }
  split_and!; [done|lia|lia| |].
  - rewrite last_lookup. replace (pred (length dims)) with (length dims - 1)%nat
      by lia. by rewrite Hc, Hch.
  - rewrite (prodZ_take_drop dims (length dims - 1)), Hlast.
    rewrite (prodZ_take_drop (take (length dims - 1) dims) a).
    rewrite take_take. replace (a `min` (length dims - 1))%nat with a by lia.
    rewrite Hh, Hw, Hch. change (prodZ [c]) with (c * 1). ring.
Qed.

(** X1: On success, [ApplyTexture2DFlattening] has split the shape at the
    separator [a]: the height is the product of the dimensions before it, the
    width the product of those from it to the last but one, the channel is
    the last dimension; so width * height * channel is the number of
    elements of the shape.  The separator is below the rank. *)
Theorem flattening_splits_shape (a : nat) t :
  ApplyTexture2DFlattening shape (Z.of_nat (length dims)) (Z.of_nat a) = Ok t →
  (a < length dims)%nat
  ∧ height t = prodZ (take a dims)
  ∧ width t = prodZ (drop a (take (length dims - 1) dims))
  ∧ last dims = Some (channel t)
  ∧ width t * height t * channel t = prodZ dims.
Proof. exact (flatten_products a t). Qed.

End Flattening.

Lemma flattening_splits_shape_witness :
  texture.ApplyTexture2DFlattening (opencl.read_shape [1; 64; 64; 4]) 4 2
  = Ok (texture.mkTexture2DShape 64 64 4)
  ∧ 64 * 64 * 4 = prodZ [1; 64; 64; 4].
Proof.
  assert (H : texture.ApplyTexture2DFlattening
                (opencl.read_shape [1; 64; 64; 4]) 4 2
              = Ok (texture.mkTexture2DShape 64 64 4))
    by (vm_compute; reflexivity).
  split; [exact H|].
  apply (flattening_splits_shape (opencl.read_shape [1; 64; 64; 4])
           [1; 64; 64; 4]
           ltac:(intros i d Hd; unfold opencl.read_shape;
                 by rewrite Nat2Z.id, Hd)
           2%nat (texture.mkTexture2DShape 64 64 4) H).
Defined.

(** ** The texture size of a token *)

Section TextureSize.
Import texture TokenAllocator2D.

Lemma separator_Ok r scope axis :
  DefaultTextureLayoutSeparator r scope = Ok axis →
  (scope = "texture" ∧ axis = wrap_size (r - 2))
  ∨ (scope = "texture:weight" ∧ axis = 1)
  ∨ (scope = "texture:nhwc" ∧ axis = 2).
Proof.
  unfold DefaultTextureLayoutSeparator.
  repeat case_bool_decide; intros [= <-]; auto.
Qed.

Lemma separator_range r scope axis :
  DefaultTextureLayoutSeparator r scope = Ok axis → 0 ≤ axis.
Proof.
  intros [[_ ->]|[[_ ->]|[_ ->]]]%separator_Ok; [|lia|lia].
  unfold wrap_size. apply Z.mod_pos_bound. lia.
Qed.

(** A separator that is below the rank: what the check of the flattening
    asks of each convention.  Below rank 2 the separator of "texture" has
    wrapped around. *)
Lemma separator_below_rank r scope axis :
  DefaultTextureLayoutSeparator r scope = Ok axis → 0 ≤ r → axis < r →
  (scope = "texture" ∧ 2 ≤ r)
  ∨ (scope = "texture:weight" ∧ 2 ≤ r)
  ∨ (scope = "texture:nhwc" ∧ 3 ≤ r).
Proof.
  intros [[-> ->]|[[-> ->]|[-> ->]]]%separator_Ok Hr Hlt;
    [left|right; left; split; [done|lia]|right; right; split; [done|lia]].
  split; [done|]. destruct (decide (2 ≤ r)) as [H2|H2]; [done|].
  exfalso. assert (r = 0 ∨ r = 1) as [->| ->] by lia;
    vm_compute in Hlt; done.
Qed.

Lemma flatten_loop_reads shape axis n : ∀ i t t',
  flatten_loop shape axis n i t = Ok t' →
  ∀ j, i ≤ j < i + Z.of_nat n → ∃ d, shape j = Ok d.
Proof.
  induction n as [|n IH]; intros i t t' H j Hj; [lia|]. simpl in H.
  apply rbind_Ok in H as (d & Hd & H).
  apply rbind_Ok in H as (t1 & _ & H).
  destruct (decide (j = i)) as [->|Hne]; [by exists d|].
  eapply IH; [exact H|lia].
Qed.

Lemma Shape_Ok l i d :
  Shape l i = Ok d → 0 ≤ i ∧ l !! Z.to_nat i = Some (IntImm d).
Proof.
  unfold Shape. case_bool_decide; [|done].
  destruct (l !! Z.to_nat i) as [[v|]|]; [|done..]. by intros [= <-].
Qed.

Lemma constant_dims (l : list IndexExpr) :
  (∀ i e, l !! i = Some e → ∃ v, e = IntImm v) → ∃ dims, l = map IntImm dims.
Proof.
  induction l as [|e l IH]; intros H; [by exists []|].
  destruct (H O e eq_refl) as [v ->].
  destruct IH as [dims ->]; [intros i e' He'; by apply (H (S i))|].
  by exists (v :: dims).
Qed.

(** X2: [GetSize2D] succeeds only on a token whose dimensions are all constants,
    whose scope is one of the three conventions and whose rank is at least 2
    (3 for "texture:nhwc"); the texture it returns then holds as many
    elements as the tensor: width * height * channel is the product of the
    dimensions. *)
Theorem GetSize2D_shape prototype shp :
  GetSize2D prototype = Ok shp →
  ∃ tty dims,
    ttype prototype = Some tty ∧ shape tty = map IntImm dims
    ∧ ((storage_scope prototype = "texture" ∧ (2 ≤ length dims)%nat)
       ∨ (storage_scope prototype = "texture:weight" ∧ (2 ≤ length dims)%nat)
       ∨ (storage_scope prototype = "texture:nhwc" ∧ (3 ≤ length dims)%nat))
    ∧ last dims = Some (channel shp)
    ∧ width shp * height shp * channel shp = prodZ dims.
Proof.
  unfold GetSize2D. intros H.
  destruct (ttype prototype) as [tty|]; [|done].
  apply rbind_Ok in H as (axis & Haxis & H).
  pose proof (separator_range _ _ _ Haxis) as Hax0.
  assert (Hlt : axis < Z.of_nat (length (shape tty))).
  { unfold ApplyTexture2DFlattening in H. by case_bool_decide. }
  assert (Hconst : ∃ dims, shape tty = map IntImm dims).
  { apply constant_dims. intros i e He.
    assert (Hi : (i < length (shape tty))%nat) by (by eapply lookup_lt_Some).
    assert (Hread : ∃ d, Shape (shape tty) (Z.of_nat i) = Ok d).
    { unfold ApplyTexture2DFlattening in H. case_bool_decide; [|done].
      simpl in H. apply rbind_Ok in H as (c & Hc & H).
      destruct (decide (i = (length (shape tty) - 1)%nat)) as [->|Hne].
      - exists c. rewrite <- Hc. f_equal. lia.
      - eapply flatten_loop_reads; [exact H|]. lia. }
    destruct Hread as [d [_ Hd]%Shape_Ok]. rewrite Nat2Z.id in Hd.
    exists d. congruence. }
  destruct Hconst as [dims Hdims]. exists tty, dims.
  rewrite Hdims, length_map in *.
  split; [done|]. split; [done|].
  split.
  { destruct (separator_below_rank _ _ _ Haxis ltac:(lia) Hlt)
      as [[? ?]|[[? ?]|[? ?]]]; [left|right; left|right; right];
      (split; [done|lia]). }
  replace axis with (Z.of_nat (Z.to_nat axis)) in H by lia.
  apply (flatten_products _ dims) in H as (_ & _ & _ & Hl & Hp);
    [done|].
  intros i d Hd. unfold Shape. rewrite bool_decide_true by lia.
  rewrite Nat2Z.id, list_lookup_fmap, Hd. done.
Qed.

Lemma GetSize2D_shape_witness :
  ∃ dims,
    shape (mkTensorType (map IntImm [1; 64; 64; 4]) float32) = map IntImm dims
    ∧ 64 * 64 * 4 = prodZ dims.
Proof.
  destruct (GetSize2D_shape (texture_token [1; 64; 64; 4] float32 "texture")
              (mkTexture2DShape 64 64 4) ltac:(vm_compute; reflexivity))
    as (tty & dims & Hty & Hdims & _ & _ & Hp).
  injection Hty as <-. exists dims. split; [exact Hdims|exact Hp].
Defined.

End TextureSize.

(** ** Texture allocation by the OpenCL device *)

Section OpenCLScopes.
Import texture opencl.

(** X3: The scopes for which a buffer has a layout are those for which the
    flattening has a separator: a scope that is given has a layout exactly
    when it is one of the three texture conventions, the layout is then a
    texture layout, and the separator exists; a scope that is given and is
    no texture convention, "global" included, is a fatal error; only an
    absent scope gives the row-major layout. *)
Theorem layouts_are_the_conventions (scope : string) (r : Z) :
  (∀ layout, MemoryLayoutFromScope (Some scope) = Ok layout →
     IsTextureStorage scope = true
     ∧ layout ≠ kGlobalRowMajor ∧ layout ≠ kUndefined
     ∧ ∃ axis, DefaultTextureLayoutSeparator r scope = Ok axis)
  ∧ (∀ axis, DefaultTextureLayoutSeparator r scope = Ok axis →
       ∃ layout, MemoryLayoutFromScope (Some scope) = Ok layout)
  ∧ (IsTextureStorage scope = false →
       MemoryLayoutFromScope (Some scope)
       = Err (LOG_FATAL
                ("No memory layout defined for memory of scope: " ++ scope)))
  ∧ MemoryLayoutFromScope None = Ok kGlobalRowMajor.
Proof.
  unfold MemoryLayoutFromScope, DefaultTextureLayoutSeparator.
  split_and!; [| | |done].
  - intros layout.
    repeat case_bool_decide; subst; intros [= <-];
      (split_and!; [done|done|done|by eexists]).
  - intros axis. repeat case_bool_decide; intros [= <-]; by eexists.
  - intros Hno. repeat case_bool_decide; subst; done.
Qed.

End OpenCLScopes.

Section OpenCLAlloc.
Import texture opencl.
Context {Ptr Buffer ClMem : Type}.
Variable DeviceAPI_AllocDataSpace :
  Z → list Z → DataType → option string → result Ptr.
Variable new_OpenCLBuffer : option string → result Buffer.
Variable AllocTexture : Z → Z → DataType → result ClMem.

(** X4: An allocation with a scope other than "global" succeeds only for one of
    the three texture conventions and a shape of rank at least 3; it is then
    a texture allocation, of a texture whose width and height are the
    flattening of the shape: with the last dimension as the channel, width *
    height * channel is the number of elements of the shape.  With the rank
    check of [AllocDataSpace] the separator is always below the rank. *)
Theorem AllocDataSpace_texture ndim shape dtype scope r :
  ndim = Z.of_nat (length shape) → ndim ≤ INT_MAX →
  scope ≠ "global" →
  AllocDataSpace DeviceAPI_AllocDataSpace new_OpenCLBuffer AllocTexture
    ndim shape dtype (Some scope) = Ok r →
  3 ≤ ndim
  ∧ (scope = "texture" ∨ scope = "texture:weight" ∨ scope = "texture:nhwc")
  ∧ ∃ mptr tex buffer,
      r = TextureBuffer mptr buffer
      ∧ new_OpenCLBuffer (Some scope) = Ok mptr
      ∧ AllocTexture (to_size (width tex)) (to_size (height tex)) dtype
        = Ok buffer
      ∧ last shape = Some (channel tex)
      ∧ width tex * height tex * channel tex = prodZ shape.
Proof.
  intros Hndim Hint Hglobal. unfold AllocDataSpace.
  rewrite bool_decide_false by done.
  destruct (IsTextureStorage scope); [|done]. simpl.
  case_bool_decide as Hrank; [|done]. simpl. intros H.
  apply rbind_Ok in H as (mptr & Hmptr & H).
  apply rbind_Ok in H as (axis & Haxis & H).
  apply rbind_Ok in H as (tex & Htex & H).
  apply rbind_Ok in H as (buffer & Hbuffer & [= <-]).
  split; [lia|]. split.
  { apply separator_Ok in Haxis as [[? _]|[[? _]|[? _]]]; auto. }
  exists mptr, tex, buffer. split_and!; [done|done|done| |].
  all: pose proof (separator_range _ _ _ Haxis) as Hax0.
  all: assert (Hsize : to_size ndim = Z.of_nat (length shape));
    [unfold to_size, wrap_size; rewrite Z.mod_small; [done|];
     unfold INT_MAX in Hint; lia|].
  all: rewrite Hsize in Htex.
  all: replace axis with (Z.of_nat (Z.to_nat axis)) in Htex by lia.
  all: apply (flatten_products _ shape) in Htex
         as (_ & _ & _ & Hl & Hp);
    [done|intros i d Hd; unfold read_shape; by rewrite Nat2Z.id, Hd].
Qed.

End OpenCLAlloc.

Lemma AllocDataSpace_texture_witness :
  opencl.AllocDataSpace (λ _ _ _ _, Ok tt) (λ scope, Ok scope)
    (λ w h _, Ok (w, h)) 4 [1; 64; 64; 4] float32 (Some "texture")
  = Ok (opencl.TextureBuffer (Some "texture") (64, 64))
  ∧ 3 ≤ 4.
Proof.
  assert (H : opencl.AllocDataSpace (λ _ _ _ _, Ok tt) (λ scope, Ok scope)
                (λ w h _, Ok (w, h)) 4 [1; 64; 64; 4] float32 (Some "texture")
              = Ok (opencl.TextureBuffer (Some "texture") (64, 64)))
    by (vm_compute; reflexivity).
  split; [exact H|].
  apply (AllocDataSpace_texture (λ _ _ _ _, Ok tt) (λ scope, Ok scope)
           (λ w h _, Ok (w, h)) 4 [1; 64; 64; 4] float32 "texture"
           (opencl.TextureBuffer (Some "texture") (64, 64))
           eq_refl ltac:(vm_compute; discriminate) ltac:(discriminate) H).
Defined.

(** ** The reuse policy of the linear allocator *)

Section Request1DPolicy.
Import TokenAllocator1D.

(** The tokens the upward loop passes over belong to other devices. *)
Lemma scan_up_skipped h dev end_ free it0 r :
  scan_up h dev end_ (drop it0 free) it0 = Ok r →
  ∀ j e,
    (it0 ≤ j)%nat →
    (j < match r with Some (it, _) => it | None => end_ end)%nat →
    free !! j = Some e → ∃ t, h !! e.2 = Some t ∧ device_type t ≠ dev.
Proof.
  remember (drop it0 free) as l eqn:Hl. revert it0 Hl.
  induction l as [|e0 l IH]; intros it0 Hl H j e Hj1 Hj2 He; simpl in H.
  - case_bool_decide; [|done]. simplify_eq. lia.
  - case_bool_decide as Hend; [simplify_eq; lia|].
    apply rbind_Ok in H as (t & Ht%deref_Ok & H).
    assert (Hit0 : free !! it0 = Some e0).
    { rewrite <- (Nat.add_0_r it0), <- lookup_drop, <- Hl. done. }
    case_bool_decide as Hdev.
    + destruct (decide (j = it0)) as [->|Hne].
      * simplify_eq. by exists t.
      * assert (Hl' : l = drop (S it0) free).
        { rewrite (drop_S free e0 it0 Hit0) in Hl. by simplify_eq. }
        apply (IH (S it0) Hl' H j e); [lia|exact Hj2|exact He].
    + simplify_eq. lia.
Qed.

(** So do those the downward loop passes over. *)
Lemma scan_down_skipped h dev free begin it0 r :
  scan_down h dev free begin it0 = Ok r →
  ∀ j e,
    match r with Some (it, _) => (it < j)%nat | None => (begin ≤ j)%nat end →
    (j < it0)%nat →
    free !! j = Some e → ∃ t, h !! e.2 = Some t ∧ device_type t ≠ dev.
Proof.
  induction it0 as [|it0 IH]; intros H j e Hj1 Hj2 He; [lia|]. simpl in H.
  case_bool_decide as Hb; [simplify_eq; lia|].
  destruct (free !! it0) as [e0|] eqn:He0; [|done].
  apply rbind_Ok in H as (t & Ht%deref_Ok & H).
  case_bool_decide as Hdev.
  - destruct (decide (j = it0)) as [->|Hne].
    + simplify_eq. by exists t.
    + apply (IH H j e); [exact Hj1|lia|exact He].
  - simplify_eq. lia.
Qed.

(** X5: [Request] takes, among the free tokens of the prototype's device, the
    first one whose size is at least the requested size; only when no token
    of the device has a size between the requested size and the upper end of
    the window does it take a smaller one, and then the last, that is the
    largest, of the smaller ones. *)
Theorem Request1D_best_fit h a prototype p h' a' :
  sorted (free_ a) →
  Request h a prototype = Ok (Some p, h', a') →
  ∃ proto size it cached,
    h !! prototype = Some proto ∧ GetMemorySize proto = Ok size
    ∧ free_ a !! it = Some (cached, p)
    ∧ ((size ≤ cached
        ∧ ∀ j e, (j < it)%nat → free_ a !! j = Some e → size ≤ e.1 →
                 ∃ t, h !! e.2 = Some t ∧ device_type t ≠ device_type proto)
       ∨ (cached < size
          ∧ (∀ j e, free_ a !! j = Some e →
                    size ≤ e.1 ≤ wrap_size (size * 16) →
                    ∃ t, h !! e.2 = Some t
                         ∧ device_type t ≠ device_type proto)
          ∧ (∀ j e, (it < j)%nat → free_ a !! j = Some e → e.1 < size →
                    ∃ t, h !! e.2 = Some t
                         ∧ device_type t ≠ device_type proto))).
Proof.
  intros Hsorted H. unfold Request in H.
  apply rbind_Ok in H as (proto & Hproto%deref_Ok & H).
  apply rbind_Ok in H as (size & Hsize & H).
  case_bool_decide as Hmr; [done|].
  apply rbind_Ok in H as (up & Hup & H).
  assert (Hbelow : ∀ j e, free_ a !! j = Some e →
            (j < lower_bound (free_ a) size)%nat ∨ size ≤ e.1).
  { intros j e He.
    destruct (decide (j < lower_bound (free_ a) size)%nat); [by left|].
    right. eapply lower_bound_after; [done|exact He|lia]. }
  destruct up as [[it q]|].
  - apply take_entry_Some in H as (tok & proto' & ? & Htok & Hrc & _).
    simplify_eq.
    pose proof (scan_up_skipped _ _ _ _ _ _ Hup) as Hskip. simpl in Hskip.
    apply scan_up_Some in Hup as (Hle & _ & k & t & Hk & _).
    exists proto, size, it, k. split_and!; [done|done|done|].
    left. split.
    + apply (lower_bound_after _ _ _ _ Hsorted Hk Hle).
    + intros j e Hj He Hsz. apply (Hskip j e); [|exact Hj|exact He].
      destruct (decide (lower_bound (free_ a) size ≤ j)%nat) as [|Hn]; [done|].
      pose proof (lower_bound_before _ size _ _ He ltac:(lia)). lia.
  - apply rbind_Ok in H as (down & Hdown & H).
    destruct down as [[it q]|]; [|done].
    apply take_entry_Some in H as (tok & proto' & ? & Htok & Hrc & _).
    simplify_eq.
    pose proof (scan_up_skipped _ _ _ _ _ _ Hup) as Hskip. simpl in Hskip.
    pose proof (scan_down_skipped _ _ _ _ _ _ Hdown) as Hskipd.
    simpl in Hskipd.
    apply scan_down_Some in Hdown as (Hlt & _ & k & t & Hk & _).
    exists proto, size, it, k. split_and!; [done|done|done|].
    right. split_and!.
    + apply (lower_bound_before _ size _ _ Hk Hlt).
    + intros j e He [Hlo Hhi]. apply (Hskip j e); [| |exact He].
      * destruct (decide (lower_bound (free_ a) size ≤ j)%nat) as [|Hn];
          [done|].
        pose proof (lower_bound_before _ size _ _ He ltac:(lia)). lia.
      * destruct (decide (j < upper_bound (free_ a)
                                 (wrap_size (size * match_range_)))%nat)
          as [|Hn]; [done|].
        pose proof (upper_bound_after _ (wrap_size (size * match_range_))
                      _ _ Hsorted He ltac:(lia)) as Hgt.
        unfold match_range_ in Hgt. lia.
    + intros j e Hj He Hsz. apply (Hskipd j e); [exact Hj| |exact He].
      destruct (decide (j < lower_bound (free_ a) size)%nat) as [|Hn]; [done|].
      pose proof (lower_bound_after _ size _ _ Hsorted He ltac:(lia)). lia.
Qed.

Lemma Request1D_best_fit_witness :
  ∃ h' a' proto size it cached,
    Request window_arena window_pool 1%nat = Ok (Some 0%nat, h', a')
    ∧ window_arena !! 1%nat = Some proto ∧ GetMemorySize proto = Ok size
    ∧ free_ window_pool !! it = Some (cached, 0%nat).
Proof.
  eexists _, _.
  destruct (Request1D_best_fit window_arena window_pool 1%nat 0%nat _ _
              window_pool_sorted ltac:(vm_compute; reflexivity))
    as (proto & size & it & cached & Hp & Hs & Hit & _).
  exists proto, size, it, cached. split_and!; [|exact Hp|exact Hs|exact Hit].
  vm_compute. reflexivity.
Defined.

(** X6: [Request] returns null, and changes nothing, only when no free token
    whose size lies in the window, from a sixteenth of the requested size
    to sixteen times it, belongs to the prototype's device. *)
Theorem Request1D_null h a prototype h' a' :
  sorted (free_ a) →
  Request h a prototype = Ok (None, h', a') →
  h' = h ∧ a' = a
  ∧ ∃ proto size,
      h !! prototype = Some proto ∧ GetMemorySize proto = Ok size
      ∧ ∀ j e, free_ a !! j = Some e →
               size / 16 ≤ e.1 ≤ wrap_size (size * 16) →
               ∃ t, h !! e.2 = Some t ∧ device_type t ≠ device_type proto.
Proof.
  intros Hsorted H. unfold Request in H.
  apply rbind_Ok in H as (proto & Hproto%deref_Ok & H).
  apply rbind_Ok in H as (size & Hsize & H).
  case_bool_decide as Hmr; [done|].
  pose proof (GetMemorySize_range _ _ Hsize) as Hrange.
  apply rbind_Ok in H as (up & Hup & H).
  destruct up as [[it q]|].
  { by apply take_entry_Some in H as (? & ? & ? & _). }
  apply rbind_Ok in H as (down & Hdown & H).
  destruct down as [[it q]|].
  { by apply take_entry_Some in H as (? & ? & ? & _). }
  injection H as <- <-. split; [done|]. split; [done|].
  exists proto, size. split; [done|]. split; [done|].
  pose proof (scan_up_skipped _ _ _ _ _ _ Hup) as Hskip. simpl in Hskip.
  pose proof (scan_down_skipped _ _ _ _ _ _ Hdown) as Hskipd.
  simpl in Hskipd. unfold match_range_ in *.
  intros j e He [Hlo Hhi].
  assert (Hb : (lower_bound (free_ a) (size / 16) ≤ j)%nat).
  { destruct (decide (lower_bound (free_ a) (size / 16) ≤ j)%nat) as [|Hn];
      [done|].
    pose proof (lower_bound_before _ (size / 16) _ _ He ltac:(lia)). lia. }
  assert (Hend : (j < upper_bound (free_ a) (wrap_size (size * 16)))%nat).
  { destruct (decide (j < upper_bound (free_ a) (wrap_size (size * 16)))%nat)
      as [|Hn]; [done|].
    pose proof (upper_bound_after _ (wrap_size (size * 16)) _ _ Hsorted He
                  ltac:(lia)). lia. }
  destruct (decide (lower_bound (free_ a) size ≤ j)%nat) as [Hm|Hm].
  - by apply (Hskip j e).
  - apply (Hskipd j e); [done|lia|done].
Qed.

(** A released buffer of 10 bytes is too small for a request of 1000. *)
Definition small_arena : Arena :=
  [ linear_token 10 int8 0 0 10; linear_token 250 float32 1 (-1) 0 ].
Definition small_pool : t := mk [(10, 0%nat)] [0%nat].

Lemma Request1D_null_witness :
  Request small_arena small_pool 1%nat = Ok (None, small_arena, small_pool)
  ∧ ∃ proto size,
      small_arena !! 1%nat = Some proto ∧ GetMemorySize proto = Ok size.
Proof.
  assert (H : Request small_arena small_pool 1%nat
              = Ok (None, small_arena, small_pool))
    by (vm_compute; reflexivity).
  split; [exact H|].
  assert (Hs : sorted (free_ small_pool)).
  { intros i j e1 e2 Hij H1 H2.
    destruct i as [|i]; [|done]. destruct j as [|j]; [|done].
    simpl in H1, H2. simplify_eq. done. }
  destruct (Request1D_null small_arena small_pool 1%nat _ _ Hs H)
    as (_ & _ & proto & size & Hp & Hsz & _).
  by exists proto, size.
Defined.

End Request1DPolicy.

(** ** The size of a linear buffer *)

Section MemorySize.
Import TokenAllocator1D.

Lemma size_loop_product l : ∀ s size,
  0 ≤ s < 2 ^ 64 → size_loop l s = Ok size →
  ∃ dims, l = map IntImm dims ∧ Forall (λ d, 0 ≤ d) dims
          ∧ size = (s * prodZ dims) mod 2 ^ 64.
Proof.
  induction l as [|[v|] l IH]; intros s size Hs H; simpl in H; [| |done].
  - injection H as <-. exists []. split_and!; [done|constructor|].
    unfold prodZ. simpl. rewrite Z.mul_1_r, Z.mod_small; [done|lia].
  - case_bool_decide as Hv; [|done].
    apply IH in H as (dims & -> & Hdims & ->).
    + exists (v :: dims). split_and!; [done|by constructor|].
      unfold wrap_size, to_size, wrap_size, prodZ. simpl.
      rewrite Z.mul_mod_idemp_l by lia.
      rewrite <- Z.mul_assoc. rewrite (Z.mul_comm (v mod 2 ^ 64)).
      rewrite Z.mul_assoc. rewrite Z.mul_mod_idemp_r by lia.
      f_equal. lia.
    + unfold wrap_size. apply Z.mod_pos_bound. lia.
Qed.

(** X7: [GetMemorySize] succeeds only on a tensor whose dimensions are constants
    that are not negative, and then returns the number of elements times the
    bytes of an element, [bits * lanes] rounded up to bytes, reduced modulo
    2^64: the multiplications are those of [size_t] and are not checked. *)
Theorem GetMemorySize_product t size :
  GetMemorySize t = Ok size →
  ∃ tty dims,
    ttype t = Some tty ∧ shape tty = map IntImm dims
    ∧ Forall (λ d, 0 ≤ d) dims
    ∧ size = (prodZ dims
              * DivRoundUp (to_size (dt_bits (dtype tty)
                                     * dt_lanes (dtype tty))) 8) mod 2 ^ 64
    ∧ (0 ≤ dt_bits (dtype tty) * dt_lanes (dtype tty) →
       size = (prodZ dims
               * ((dt_bits (dtype tty) * dt_lanes (dtype tty) + 7) / 8))
              mod 2 ^ 64).
Proof.
  unfold GetMemorySize. intros H.
  destruct (ttype t) as [tty|]; [|done].
  apply rbind_Ok in H as (sz & Hsz & H).
  apply rbind_Ok in H as (bl & [-> Hbl]%as_int_Ok & [= <-]).
  apply size_loop_product in Hsz as (dims & Hdims & Hpos & ->); [|lia].
  exists tty, dims. split_and!; [done|done|done| |].
  - unfold wrap_size at 1. rewrite Z.mul_1_l.
    rewrite Z.mul_mod_idemp_l by lia. done.
  - intros H0. unfold wrap_size at 1. rewrite Z.mul_1_l.
    rewrite Z.mul_mod_idemp_l by lia. do 2 f_equal.
    unfold DivRoundUp, to_size, wrap_size, INT_MAX in *.
    rewrite (Z.mod_small (dt_bits (dtype tty) * dt_lanes (dtype tty)))
      by lia.
    rewrite Z.mod_small by lia. f_equal. lia.
Qed.

Lemma GetMemorySize_product_witness :
  GetMemorySize (linear_token 250 float32 1 (-1) 0) = Ok 1000
  ∧ ∃ dims, map IntImm [250] = map IntImm dims
            ∧ 1000 = (prodZ dims * ((32 * 1 + 7) / 8)) mod 2 ^ 64.
Proof.
  assert (H : GetMemorySize (linear_token 250 float32 1 (-1) 0) = Ok 1000)
    by (vm_compute; reflexivity).
  split; [exact H|].
  destruct (GetMemorySize_product _ _ H)
    as (tty & dims & Hty & Hdims & _ & _ & Hsize).
  injection Hty as <-. exists dims. split; [exact Hdims|].
  apply Hsize. simpl. lia.
Defined.

(** ** The bytes allocated *)

Lemma total_loop_app h l1 l2 tot tot1 :
  total_loop h l1 tot = Ok tot1 →
  total_loop h (l1 ++ l2) tot = total_loop h l2 tot1.
Proof.
  revert tot. induction l1 as [|p l1 IH]; intros tot H; simpl in *.
  - by injection H as <-.
  - destruct (deref h p) as [tok|]; [|done]. simpl in *. by apply IH.
Qed.

Lemma total_loop_ext h h' l tot :
  (∀ p, p ∈ l → h' !! p = h !! p) →
  total_loop h' l tot = total_loop h l tot.
Proof.
  revert tot. induction l as [|p l IH]; intros tot H; simpl; [done|].
  unfold deref. rewrite H by (by left).
  destruct (h !! p) as [tok|]; [|done]. simpl. apply IH.
  intros q Hq. apply H. by right.
Qed.

(** X8: An allocation for a prototype that was not allocated before adds the
    size of the prototype to [TotalAllocBytes], modulo 2^64. *)
Theorem TotalAllocBytes_Alloc h a prototype id r h' a' total :
  prototype ∉ data_ a →
  TotalAllocBytes h a = Ok total →
  Alloc h a prototype id = Ok (r, h', a') →
  ∃ proto size,
    h !! prototype = Some proto ∧ GetMemorySize proto = Ok size
    ∧ TotalAllocBytes h' a' = Ok (wrap_size (total + size)).
Proof.
  unfold TotalAllocBytes, Alloc. intros Hnew Htot H.
  apply rbind_Ok in H as (proto & Hproto%deref_Ok & H).
  apply rbind_Ok in H as (size & Hsize & [= <- <- <-]).
  exists proto, size. split; [done|]. split; [done|]. simpl.
  assert (Hlt : (prototype < length h)%nat) by (by eapply lookup_lt_Some).
  rewrite (total_loop_app _ _ _ _ total).
  - simpl. unfold deref. rewrite list_lookup_insert_eq by done. done.
  - rewrite <- Htot. apply total_loop_ext. intros p Hp.
    apply list_lookup_insert_ne. by intros ->.
Qed.

Lemma TotalAllocBytes_Alloc_witness :
  ∃ h' a' size,
    Alloc window_arena window_pool 1%nat 1 = Ok (1%nat, h', a')
    ∧ TotalAllocBytes window_arena window_pool = Ok 62
    ∧ TotalAllocBytes h' a' = Ok (wrap_size (62 + size)).
Proof.
  eexists _, _.
  destruct (TotalAllocBytes_Alloc window_arena window_pool 1%nat 1 _ _ _ 62
              ltac:(by intros [?|[]%elem_of_nil]%elem_of_cons)
              ltac:(vm_compute; reflexivity)
              ltac:(vm_compute; reflexivity))
    as (proto & size & Hp & Hs & Ht).
  exists size. split; [vm_compute; reflexivity|].
  split; [vm_compute; reflexivity|exact Ht].
Defined.

End MemorySize.

(** ** The reuse policy of the texture allocator *)

Section Request2DPolicy.
Import texture TokenAllocator2D.

(** The block [id] holds a token of element type [pdt]. *)
Definition same_type (h : Arena) (a : t) (pdt : DataType) (id : Z) : Prop :=
  ∃ p tok tty,
    token_ (block_at a id) = Some p ∧ h !! p = Some tok
    ∧ ttype tok = Some tty ∧ dtype tty = pdt.

(** A block whose token is of another element type. *)
Definition other_type (h : Arena) (a : t) (pdt : DataType) (id : Z) : Prop :=
  ∃ p tok tty,
    token_ (block_at a id) = Some p ∧ h !! p = Some tok
    ∧ ttype tok = Some tty ∧ dtype tty ≠ pdt.

Section Search.
Variables (h : Arena) (a : t) (pdt : DataType) (shp : Texture2DShape)
  (requested : Z).

Lemma search_other_type ids st :
  (∀ id, id ∈ ids → other_type h a pdt id) →
  search h a pdt shp requested ids st = Ok st.
Proof.
  induction ids as [|id ids IH]; intros Hids; simpl; [done|].
  destruct (Hids id ltac:(by left)) as (p & tok & tty & Hp & Htok & Hty & Hdt).
  unfold search_step. rewrite Hp. unfold deref. rewrite Htok. simpl.
  rewrite Hty. rewrite bool_decide_false by done. simpl.
  apply IH. intros i Hi. apply Hids. by right.
Qed.

(** While every candidate needs expansion, the search keeps the least added
    size met so far. *)
Definition least_so_far (seen : list Z) (st : Search) : Prop :=
  0 < min_added_size st
  ∧ ∀ id c, id ∈ seen → same_type h a pdt id →
            candidate (block_at a id) shp requested = Ok c →
            min_added_size st ≤ added_size c.

Hypothesis all_expand : ∀ id c,
  same_type h a pdt id →
  candidate (block_at a id) shp requested = Ok c → 0 < added_size c.

Lemma search_step_least seen st id st' :
  least_so_far seen st →
  search_step h a pdt shp requested st id = Ok st' →
  least_so_far (id :: seen) st'.
Proof.
  intros [Hpos Hmin] Hstep. unfold search_step in Hstep.
  destruct (token_ (block_at a id)) as [p|] eqn:Hp; [|done].
  apply rbind_Ok in Hstep as (tok & Htok%deref_Ok & Hstep).
  destruct (ttype tok) as [tty|] eqn:Htty; [|done].
  case_bool_decide as Hdt; simpl in Hstep.
  - apply rbind_Ok in Hstep as (c & Hc & Hstep).
    assert (Hsame : same_type h a pdt id) by (by exists p, tok, tty).
    pose proof (all_expand _ _ Hsame Hc) as Hc0.
    unfold better in Hstep.
    rewrite (bool_decide_true (0 < min_added_size st)) in Hstep by done.
    rewrite (bool_decide_false (min_added_size st = 0)) in Hstep by lia.
    simpl in Hstep. rewrite orb_false_r in Hstep.
    case_bool_decide as Hlt; injection Hstep as <-; simpl.
    + split; [done|]. intros id' c' [->|Hin]%elem_of_cons Hs' Hc'.
      * rewrite Hc in Hc'. by injection Hc' as <-.
      * pose proof (Hmin _ _ Hin Hs' Hc'). simpl. lia.
    + split; [done|]. intros id' c' [->|Hin]%elem_of_cons Hs' Hc'.
      * rewrite Hc in Hc'. injection Hc' as <-. lia.
      * by eapply Hmin.
  - injection Hstep as <-. split; [done|].
    intros id' c' [->|Hin]%elem_of_cons Hs' Hc'; [|by eapply Hmin].
    destruct Hs' as (p' & tok' & tty' & Hp' & Htok' & Htty' & Hdt').
    simplify_eq.
Qed.

Lemma search_least ids : ∀ seen st st',
  least_so_far seen st →
  search h a pdt shp requested ids st = Ok st' →
  least_so_far (rev ids ++ seen) st'.
Proof.
  induction ids as [|id ids IH]; intros seen st st' Hst Hs; simpl in Hs.
  - by injection Hs as <-.
  - apply rbind_Ok in Hs as (st1 & Hstep & Hs). simpl.
    rewrite <- app_assoc. simpl. eapply IH; [|exact Hs].
    by eapply search_step_least.
Qed.

End Search.

(** X9: When no free block holds a token of the prototype's element type, in
    particular when nothing is free, [Request] returns null and changes
    nothing, as long as the requested area is below the largest [int64_t]
    (the initial value of the least added size, with which it is compared). *)
Theorem Request2D_nothing_free h a prototype proto pty shp :
  h !! prototype = Some proto → ttype proto = Some pty →
  GetSize2D proto = Ok shp →
  INT64_MIN ≤ height shp * width shp < INT64_MAX →
  (∀ id, id ∈ free_list_ a → other_type h a (dtype pty) id) →
  Request h a prototype = Ok (None, h, a).
Proof.
  intros Hproto Hpty Hshp Hreq Hfree. unfold Request, deref.
  rewrite Hproto. simpl. rewrite Hshp. simpl.
  unfold as_int64. rewrite bool_decide_true by lia. simpl.
  rewrite Hpty. rewrite search_other_type by done. simpl.
  rewrite bool_decide_false; [done|]. lia.
Qed.

Lemma Request2D_nothing_free_witness :
  Request texture_arena (mk ∅ []) 1%nat = Ok (None, texture_arena, mk ∅ []).
Proof.
  apply (Request2D_nothing_free texture_arena (mk ∅ []) 1%nat
           (set_ref_counter 1 (texture_token [1; 32; 128; 4] float32 "texture"))
           (mkTensorType (map IntImm [1; 32; 128; 4]) float32)
           (mkTexture2DShape 128 32 4)).
  - reflexivity.
  - reflexivity.
  - vm_compute. reflexivity.
  - vm_compute. split; [discriminate|reflexivity].
  - intros id Hid. by apply elem_of_nil in Hid.
Defined.


(** Two free blocks of the requested element type, 1 x 1 and 3 x 3, and a
    request for 4 x 4. *)
Definition growing_arena : Arena :=
  [ set_storage_id 0 (texture_token [1; 1; 4] float32 "texture:weight");
    set_storage_id 1 (texture_token [3; 3; 4] float32 "texture:weight");
    texture_token [4; 4; 4] float32 "texture:weight" ].
Definition growing_pool : t :=
  mk {[ 0 := mkMemBlock (Some 0%nat) 1 1;
        1 := mkMemBlock (Some 1%nat) 3 3 ]} [0; 1].


End Request2DPolicy.

(** ** The prototypes the liveness pass creates *)

Section LivenessTokens.
Import StorageAllocaInit.

(** The tensors of a checked type: the type itself, or the fields of a
    tuple, none of which is a tuple. *)
Definition as_tensor (ty : Ty) : option TensorTypeNode :=
  match ty with TensorType tty => Some tty | _ => None end.
Definition tensors_of (ty : Ty) : option (list TensorTypeNode) :=
  match ty with
  | TensorType tty => Some [tty]
  | TupleType fields => mapM as_tensor fields
  | OtherType => None
  end.

Definition device_of (d : Fields) (op : node) : Z :=
  match node_device_map_ d !! op with
  | Some value => trunc_int value
  | None => 0
  end.

Definition scope_at (info : option (list string)) (i : nat) : option string :=
  match info with
  | Some l => l !! i
  | None => Some "global"
  end.

(** The tokens made for the tensors [tts], the first of which is the tensor
    number [i] of the node. *)
Fixpoint made (dev : Z) (info : option (list string)) (i : nat)
    (tts : list TensorTypeNode) : option (list StorageToken) :=
  match tts with
  | [] => Some []
  | tty :: tts' =>
      match scope_at info i, made dev info (S i) tts' with
      | Some scope, Some rest =>
          Some (mkStorageToken 0 0 (Some tty) dev (-1) scope :: rest)
      | _, _ => None
      end
  end.

Lemma made_length dev info i tts news :
  made dev info i tts = Some news → length news = length tts.
Proof.
  revert i news. induction tts as [|tty tts IH]; intros i news H; simpl in H.
  - by injection H as <-.
  - destruct (scope_at info i); [|done].
    destruct (made dev info (S i) tts) eqn:E; [|done].
    injection H as <-. simpl. f_equal. by eapply IH.
Qed.

Lemma make_token_made ty dev info i (v : St) p v' :
  make_token ty dev info i v = Ok (p, v') →
  ∃ tty scope,
    ty = TensorType tty ∧ scope_at info i = Some scope
    ∧ p = length (arena_ v)
    ∧ v' = set_arena
             (arena_ v ++ [mkStorageToken 0 0 (Some tty) dev (-1) scope]) v.
Proof.
  unfold make_token. intros H. destruct ty as [tty| |]; [|done..].
  destruct info as [info|]; simpl.
  - destruct (info !! i) as [scope|] eqn:E; [|done].
    apply make_Ok in H as [-> ->]. by exists tty, scope.
  - apply make_Ok in H as [-> ->]. by exists tty, "global".
Qed.

Lemma make_tokens_made fields dev info : ∀ i (v : St) ps v',
  make_tokens fields dev info i v = Ok (ps, v') →
  ∃ tts news,
    mapM as_tensor fields = Some tts ∧ made dev info i tts = Some news
    ∧ ps = seq (length (arena_ v)) (length tts)
    ∧ v' = set_arena (arena_ v ++ news) v.
Proof.
  induction fields as [|ty fields IH]; intros i v ps v' H; simpl in H.
  - injection H as <- <-. exists [], []. split_and!; [done|done|done|].
    destruct v. unfold set_arena. simpl. by rewrite app_nil_r.
  - apply bind_Ok in H as (p & v1 & Hp & H).
    apply bind_Ok in H as (ps' & v2 & Hps & H). injection H as <- <-.
    apply make_token_made in Hp as (tty & scope & -> & Hscope & -> & ->).
    apply IH in Hps as (tts & news & Htts & Hnews & -> & ->). simpl.
    exists (tty :: tts), (mkStorageToken 0 0 (Some tty) dev (-1) scope :: news).
    split_and!.
    + by rewrite Htts.
    + simpl. by rewrite Hscope, Hnews.
    + simpl. rewrite length_app. simpl. f_equal. f_equal. lia.
    + unfold set_arena. simpl. by rewrite <- app_assoc.
Qed.

(** The tokens [CreateToken] adds to the arena. *)
Lemma CreateToken_made op ty b (v : St) u v' :
  CreateToken op ty b v = Ok (u, v') →
  ∃ tts news,
    token_map_ v !! op = None
    ∧ tensors_of ty = Some tts
    ∧ made (device_of (derived v) op)
        (node_storage_map_ (derived v) !! op) 0 tts = Some news
    ∧ arena_ v' = arena_ v ++ news
    ∧ token_map_ v' = <[op := seq (length (arena_ v)) (length tts)]>
                        (token_map_ v)
    ∧ derived v' = derived v.
Proof.
  unfold CreateToken. intros H.
  apply bind_Ok in H as (v0 & ? & [= <- <-] & H).
  apply bind_Ok in H as (? & ? & [Hnone ->]%ICHECK_Ok & H).
  apply negb_true_iff, bool_decide_eq_false in Hnone.
  assert (Hop : token_map_ v !! op = None).
  { destruct (token_map_ v !! op) eqn:E; [|done]. destruct Hnone. by eexists. }
  apply bind_Ok in H as (tokens & v1 & Htokens & H).
  injection H as <- <-. fold (device_of (derived v) op) in Htokens.
  assert (∃ tts news,
            tensors_of ty = Some tts
            ∧ made (device_of (derived v) op)
                (node_storage_map_ (derived v) !! op) 0 tts = Some news
            ∧ tokens = seq (length (arena_ v)) (length tts)
            ∧ v1 = set_arena (arena_ v ++ news) v)
    as (tts & news & Htts & Hnews & -> & ->).
  { destruct ty as [tty|fields|].
    - apply bind_Ok in Htokens as (p & v2 & Hp & Htokens).
      injection Htokens as <- <-.
      apply make_token_made in Hp as (tty' & scope & [= <-] & Hs & -> & ->).
      exists [tty], [mkStorageToken 0 0 (Some tty) (device_of (derived v) op)
                       (-1) scope].
      split_and!; [done| |done|done]. simpl. by rewrite Hs.
    - apply bind_Ok in Htokens as (? & v2 & Hchk & Htokens).
      assert (v2 = v) as ->.
      { destruct (node_storage_map_ (derived v) !! op).
        - by apply ICHECK_Ok in Hchk as [_ ->].
        - by injection Hchk as <- <-. }
      apply make_tokens_made in Htokens as (tts & news & ? & ? & ? & ?).
      by exists tts, news.
    - apply bind_Ok in Htokens as (p & v2 & Hp & Htokens).
      by apply make_token_made in Hp as (tty' & scope & ? & _). }
  exists tts, news. split_and!; done.
Qed.

(** X11: [CreateToken] of the liveness pass gives a node that has no tokens yet
    one new token for each tensor of its checked type, in order: each is
    unallocated and unreferenced, has that tensor as its type, the device of
    the node and the scope the storage map lists for it at that position,
    "global" when the map has no entry for the node.  It fails when the type
    is neither a tensor nor a tuple of tensors. *)
Theorem CreateToken_prototypes op ty b (v : St) u v' :
  CreateToken op ty b v = Ok (u, v') →
  ∃ tts news,
    token_map_ v !! op = None
    ∧ tensors_of ty = Some tts
    ∧ made (device_of (derived v) op)
        (node_storage_map_ (derived v) !! op) 0 tts = Some news
    ∧ arena_ v' = arena_ v ++ news
    ∧ token_map_ v' = <[op := seq (length (arena_ v)) (length tts)]>
                        (token_map_ v)
    ∧ derived v' = derived v.
Proof. exact (CreateToken_made op ty b v u v'). Qed.

Lemma CreateToken_prototypes_witness :
  ∃ v' tts news,
    CreateToken 0%nat (tensor [10] float32) false (init ∅ ∅) = Ok (tt, v')
    ∧ tensors_of (tensor [10] float32) = Some tts
    ∧ arena_ v' = arena_ (init ∅ ∅) ++ news.
Proof.
  destruct (CreateToken 0%nat (tensor [10] float32) false (init ∅ ∅))
    as [[[] v']|e] eqn:E; [|vm_compute in E; discriminate E].
  destruct (CreateToken_prototypes 0%nat (tensor [10] float32) false
              (init ∅ ∅) tt v' E)
    as (tts & news & _ & Htts & _ & Harena & _).
  exists v', tts, news. split_and!; [reflexivity|exact Htts|exact Harena].
Defined.

(** What holds of every token of the liveness pass, whatever references it
    has received: it is not allocated, it has a tensor type, its device is
    that of a node of the device map, or 0, and its scope is listed by the
    storage map, or is "global". *)
Definition prototype_of (d : Fields) (t : StorageToken) : Prop :=
  0 ≤ ref_counter t ∧ max_bytes t = 0 ∧ storage_id t = -1
  ∧ is_Some (ttype t)
  ∧ (device_type t = 0
     ∨ ∃ n value, node_device_map_ d !! n = Some value
                  ∧ device_type t = trunc_int value)
  ∧ (storage_scope t = "global"
     ∨ ∃ n info, node_storage_map_ d !! n = Some info
                 ∧ storage_scope t ∈ info).

Lemma made_prototype_of d op tts : ∀ i news,
  made (device_of d op) (node_storage_map_ d !! op) i tts = Some news →
  Forall (prototype_of d) news.
Proof.
  induction tts as [|tty tts IH]; intros i news H; simpl in H.
  - injection H as <-. constructor.
  - destruct (scope_at (node_storage_map_ d !! op) i) as [scope|] eqn:Hs;
      [|done].
    destruct (made (device_of d op) (node_storage_map_ d !! op) (S i) tts)
      as [rest|] eqn:Hrest; [|done].
    injection H as <-. constructor; [|by eapply IH].
    split_and!; simpl; [done|done|done|by eexists| |].
    + unfold device_of. destruct (node_device_map_ d !! op) as [value|] eqn:E;
        [right; by exists op, value|by left].
    + unfold scope_at in Hs.
      destruct (node_storage_map_ d !! op) as [info|] eqn:E.
      * right. exists op, info. split; [done|].
        apply list_elem_of_lookup. by exists i.
      * left. by injection Hs as <-.
Qed.

(** The relation between the states before and after a part of the liveness
    pass: the two maps are not touched, and the tokens stay prototypes. *)
Definition keeps_prototypes (v v' : St) : Prop :=
  derived v' = derived v
  ∧ (Forall (prototype_of (derived v)) (arena_ v) →
     Forall (prototype_of (derived v')) (arena_ v')).

Lemma keeps_prototypes_refl v : keeps_prototypes v v.
Proof. by split. Qed.

Lemma keeps_prototypes_trans v1 v2 v3 :
  keeps_prototypes v1 v2 → keeps_prototypes v2 v3 → keeps_prototypes v1 v3.
Proof. intros [H1 H2] [H3 H4]. split; [congruence|auto]. Qed.

Lemma keeps_prototypes_add_ref tok (v : St) u v' :
  add_ref 1 tok v = Ok (u, v') → keeps_prototypes v v'.
Proof.
  intros (t & Ht & _ & ->)%add_ref_Ok. split; [done|]. simpl. intros Hall.
  apply Forall_insert; [done|].
  pose proof (Forall_lookup_1 _ _ _ _ Hall Ht) as (H0 & ? & ? & ? & ? & ?).
  split_and!; simpl; [lia|done..].
Qed.

Lemma keeps_prototypes_CreateToken op ty b (v : St) u v' :
  CreateToken op ty b v = Ok (u, v') → keeps_prototypes v v'.
Proof.
  intros (tts & news & _ & _ & Hnews & Ha & _ & Hd)%CreateToken_made.
  split; [done|]. rewrite Ha, Hd. intros Hall. apply Forall_app. split; [done|].
  by eapply made_prototype_of.
Qed.

Lemma keeps_prototypes_VisitCall op ty gets (v : St) u v' :
  Forall (λ g, ∀ v1 r v2, g v1 = Ok (r, v2) → keeps_prototypes v1 v2) gets →
  VisitCall op ty gets v = Ok (u, v') → keeps_prototypes v v'.
Proof.
  intros Hgets. unfold VisitCall. intros H.
  apply bind_Ok in H as (? & v1 & Hcreate & H).
  eapply keeps_prototypes_trans; [by eapply keeps_prototypes_CreateToken|].
  clear Hcreate. revert v1 H.
  induction gets as [|g gets IH]; intros v1 H; simpl in H.
  - injection H as <- <-. apply keeps_prototypes_refl.
  - apply Forall_cons in Hgets as [Hg Hgets].
    apply bind_Ok in H as (? & v2 & Hbody & H).
    apply bind_Ok in Hbody as (toks & v3 & Hget & Hbody).
    eapply keeps_prototypes_trans; [by eapply Hg|].
    eapply keeps_prototypes_trans; [|by eapply IH].
    eapply (for_each_rel keeps_prototypes keeps_prototypes_refl
              keeps_prototypes_trans); [|exact Hbody].
    intros tok w1 u1 w2 _ Hadd. by eapply keeps_prototypes_add_ref.
Qed.

(** Every token of the liveness pass is a prototype. *)
Lemma liveness_prototypes func dev_map storage_map proto :
  GetInitTokenMap func dev_map storage_map = Ok proto →
  Forall (prototype_of (mkFields dev_map storage_map)) (arena_ proto).
Proof.
  unfold GetInitTokenMap. intros H.
  apply rbind_Ok in H as ([u v] & Hrun & [= <-]).
  eapply (Run_rel CreateToken VisitCall keeps_prototypes
            keeps_prototypes_refl keeps_prototypes_trans) in Hrun
    as [Hd Hall].
  - simpl in *. rewrite Hd in Hall. apply Hall. constructor.
  - intros op toks w u1 w' [= <- <-]. by split.
  - intros n w. by split.
  - apply keeps_prototypes_CreateToken.
  - apply keeps_prototypes_VisitCall.
  - apply keeps_prototypes_add_ref.
Qed.

(** X12: The liveness pass leaves every token a prototype: not allocated (storage
    id -1, no bytes), with a tensor type and a reference count that is not
    negative, with the device of a node of the device map, or 0, and with a
    scope the storage map lists, or "global". *)
Theorem GetInitTokenMap_prototypes func dev_map storage_map proto :
  GetInitTokenMap func dev_map storage_map = Ok proto →
  Forall (prototype_of (mkFields dev_map storage_map)) (arena_ proto).
Proof. exact (liveness_prototypes func dev_map storage_map proto). Qed.

Lemma GetInitTokenMap_prototypes_witness :
  Forall (prototype_of (mkFields ∅ texture_scopes)) (arena_ texture_proto).
Proof.
  apply (GetInitTokenMap_prototypes texture_graph ∅ texture_scopes).
  vm_compute. reflexivity.
Defined.

End LivenessTokens.

(** ** What [Plan] returns *)

Section PlanResults.
Import StorageAllocator.

Lemma entry_loop_count h toks c r :
  entry_loop h toks c = Ok r → num_nodes c ≤ INT_MAX →
  num_nodes r.2 = num_nodes c + Z.of_nat (length toks)
  ∧ num_nodes r.2 ≤ INT_MAX.
Proof.
  revert c r. induction toks as [|p toks IH]; intros c r H Hc; simpl in H.
  - injection H as <-. simpl. lia.
  - apply rbind_Ok in H as (t & _ & H).
    apply rbind_Ok in H as (na & _ & H).
    apply rbind_Ok in H as (nn & [-> Hnn]%as_int_Ok & H).
    apply rbind_Ok in H as (r' & Hr' & [= <-]).
    apply IH in Hr' as [Hn Hmax]; simpl in *; [|lia].
    split; [|done]. rewrite Hn. lia.
Qed.

Lemma smap_loop_count h entries smap c r :
  smap_loop h entries smap c = Ok r → num_nodes c ≤ INT_MAX →
  num_nodes c + Z.of_nat (length (listed entries)) ≤ INT_MAX.
Proof.
  revert smap c r. induction entries as [|[k toks] entries IH];
    intros smap c r H Hc; simpl in H.
  - unfold listed. simpl. lia.
  - apply rbind_Ok in H as (r' & Hr' & H).
    apply entry_loop_count in Hr' as [Hn Hmax]; [|done].
    apply IH in H; [|done].
    rewrite listed_cons, length_app. simpl in *. lia.
Qed.

(** [Plan] returns a map only after both passes, and the map is that of
    the triples of the final [token_map_]. *)
Lemma Plan_Ok func dev_map storage_map smap :
  Plan func dev_map storage_map = Ok smap →
  ∃ proto v,
    StorageAllocaInit.GetInitTokenMap func dev_map storage_map = Ok proto
    ∧ Assign func proto = Ok v
    ∧ smap = triple_of (arena_ v) <$> token_map_ v.
Proof.
  unfold Plan. intros H.
  apply rbind_Ok in H as (proto & Hproto & H).
  apply rbind_Ok in H as (v & Hv & H).
  exists proto, v. split_and!; [done..|].
  assert (Hmax : Z.of_nat (length (listed (map_to_list (token_map_ v))))
                 ≤ INT_MAX).
  { unfold serialize in H. apply rbind_Ok in H as (r & Hr & _).
    apply smap_loop_count in Hr; simpl in *; [lia|done]. }
  rewrite serialize_all_or_none in H; [|by apply lists_valid_all_valid, (Assign_lists_valid func proto)|done].
  case_bool_decide; by simplify_eq.
Qed.

(** The tokens of the assignment pass are those of the liveness pass, with
    the same type, device and scope. *)
Lemma Assign_same_kind func proto v p t' :
  Assign func proto = Ok v → arena_ v !! p = Some t' →
  ∃ t, arena_ proto !! p = Some t ∧ same_kind t t'.
Proof.
  intros HA Hp. apply Assign_assigns in HA as [[Hlen Hfr] _]. simpl in *.
  destruct (arena_ proto !! p) as [t|] eqn:Ht.
  - apply Hfr in Ht as (t0 & Ht0 & Hk). exists t. by simplify_eq.
  - apply lookup_ge_None in Ht. apply lookup_lt_Some in Hp. lia.
Qed.

(** Where the devices and scopes of a token come from. *)
Definition device_from (dev_map : gmap node Z) (d : Z) : Prop :=
  d = 0 ∨ ∃ n value, dev_map !! n = Some value ∧ d = trunc_int value.
Definition scope_from (storage_map : gmap node (list string)) (s : string)
  : Prop :=
  s = "global" ∨ ∃ n info, storage_map !! n = Some info ∧ s ∈ info.

Lemma Assign_token_origin func dev_map storage_map proto v p t :
  StorageAllocaInit.GetInitTokenMap func dev_map storage_map = Ok proto →
  Assign func proto = Ok v → arena_ v !! p = Some t →
  device_from dev_map (device_type t)
  ∧ scope_from storage_map (storage_scope t).
Proof.
  intros HL HA Hp.
  destruct (Assign_same_kind _ _ _ _ _ HA Hp) as (t0 & Ht0 & _ & Hdev & Hsc).
  apply liveness_prototypes in HL.
  pose proof (Forall_lookup_1 _ _ _ _ HL Ht0)
    as (_ & _ & _ & _ & Hd & Hs). simpl in Hd, Hs.
  rewrite Hdev, Hsc. by split.
Qed.

Lemma count_annotated_zero h toks :
  (∀ p t, h !! p = Some t → device_type t = 0) →
  count_annotated h toks = 0.
Proof.
  intros Hzero. induction toks as [|p toks IH]; [done|].
  rewrite count_annotated_cons, IH. unfold annotated.
  destruct (h !! p) as [t|] eqn:Hp; [|done].
  rewrite bool_decide_false; [done|]. intros Hne. by apply Hne, (Hzero p).
Qed.

(** X13: [Plan] gives every node three arrays of the same length, and invents
    neither devices nor scopes: a device type of the result is 0 or the
    (truncated) value the device map gives some node, a storage scope is
    "global" or one the storage map lists for some node. *)
Theorem Plan_devices_and_scopes func dev_map storage_map smap n ids devs
    scopes :
  Plan func dev_map storage_map = Ok smap →
  smap !! n = Some (ids, devs, scopes) →
  length devs = length ids ∧ length scopes = length ids
  ∧ Forall (device_from dev_map) devs
  ∧ Forall (scope_from storage_map) scopes.
Proof.
  intros H Hn. apply Plan_Ok in H as (proto & v & HL & HA & ->).
  rewrite lookup_fmap in Hn.
  destruct (token_map_ v !! n) as [toks|] eqn:Htoks; [|done].
  injection Hn as <- <- <-.
  pose proof (Assign_lists_valid _ _ _ HA n toks Htoks) as Hv.
  rewrite !length_map. split_and!; [done..| |].
  - apply Forall_map. eapply Forall_impl; [exact Hv|].
    intros p [t Hp]. simpl. rewrite Hp. simpl.
    by eapply Assign_token_origin.
  - apply Forall_map. eapply Forall_impl; [exact Hv|].
    intros p [t Hp]. simpl. rewrite Hp. simpl.
    by eapply Assign_token_origin.
Qed.

Lemma Plan_devices_and_scopes_witness :
  length [0] = length [1] ∧ length ["texture"] = length [1]
  ∧ Forall (device_from ∅) [0]
  ∧ Forall (scope_from texture_scopes) ["texture"].
Proof.
  apply (Plan_devices_and_scopes texture_graph ∅ texture_scopes
           (triple_of (arena_ texture_assigned)
              <$> token_map_ texture_assigned) 1%nat [1] [0] ["texture"]).
  - vm_compute. reflexivity.
  - vm_compute. reflexivity.
Defined.

(** X14: Without device annotations [Plan] cannot end in the error on mixed
    annotations: when the two passes succeed and the number of serialised
    tokens fits an [int], it returns the map of the triples, all of whose
    device types are 0. *)
Theorem Plan_without_devices func storage_map proto v :
  StorageAllocaInit.GetInitTokenMap func ∅ storage_map = Ok proto →
  Assign func proto = Ok v →
  Z.of_nat (length (listed (map_to_list (token_map_ v)))) ≤ INT_MAX →
  Plan func ∅ storage_map = Ok (triple_of (arena_ v) <$> token_map_ v)
  ∧ ∀ n toks, token_map_ v !! n = Some toks →
      (triple_of (arena_ v) toks).1.2 = replicate (length toks) 0.
Proof.
  intros HL HA Hmax.
  assert (Hzero : ∀ p t, arena_ v !! p = Some t → device_type t = 0).
  { intros p t Hp.
    destruct (Assign_token_origin _ _ _ _ _ _ _ HL HA Hp)
      as [[H0|(n & value & Hn & _)] _]; [done|].
    by rewrite lookup_empty in Hn. }
  split.
  - unfold Plan. rewrite HL. simpl. rewrite HA. simpl.
    rewrite serialize_all_or_none;
      [|by apply lists_valid_all_valid, (Assign_lists_valid func proto)|done].
    rewrite bool_decide_false; [done|].
    assert (count_annotated (arena_ v)
              (listed (map_to_list (token_map_ v))) = 0); [|lia].
    by apply count_annotated_zero.
  - intros n toks Hn.
    pose proof (Assign_lists_valid _ _ _ HA n toks Hn) as Hv.
    simpl. clear Hn. induction Hv as [|p toks [t Hp] Hv IH]; [done|].
    simpl. rewrite Hp, IH. simpl. f_equal. by eapply Hzero.
Qed.

Lemma Plan_without_devices_witness :
  Plan texture_graph ∅ texture_scopes
  = Ok (triple_of (arena_ texture_assigned) <$> token_map_ texture_assigned).
Proof.
  apply (Plan_without_devices texture_graph texture_scopes texture_proto).
  - apply texture_graph_planned.
  - apply texture_graph_planned.
  - vm_compute. discriminate.
Defined.

End PlanResults.

(** ** Storage ids *)

Section StorageIds.
Import StorageAllocator.

Local Abbreviation next_id v :=
  (TokenAllocator.storage_ids_ (allocator_ (derived v))).

(** The token [p] has been allocated. *)
Definition has_id (h : Arena) (p : tokptr) : Prop :=
  ∃ t, h !! p = Some t ∧ 0 ≤ storage_id t.

(** What the assignment pass keeps true of the storage ids: ids are handed
    out in order, no two tokens hold the same id, and the tokens on the 1d
    free list and in [token_map_] are allocated. *)
Definition ids_inv (v : St) : Prop :=
  0 ≤ next_id v
  ∧ (∀ p t, arena_ v !! p = Some t → storage_id t < next_id v)
  ∧ (∀ p q t u, arena_ v !! p = Some t → arena_ v !! q = Some u →
       0 ≤ storage_id t → storage_id u = storage_id t → p = q)
  ∧ (∀ e, e ∈ free1 (allocator_ (derived v)) → has_id (arena_ v) e.2)
  ∧ (∀ n toks, token_map_ v !! n = Some toks →
       Forall (has_id (arena_ v)) toks).

Definition ids_kept (v v' : St) : Prop :=
  ∀ p, has_id (arena_ v) p → has_id (arena_ v') p.

Lemma ids_kept_refl v : ids_kept v v.
Proof. by intros p Hp. Qed.

Lemma ids_kept_trans v1 v2 v3 :
  ids_kept v1 v2 → ids_kept v2 v3 → ids_kept v1 v3.
Proof. intros H1 H2 p Hp. by apply H2, H1. Qed.

Lemma has_id_same (h h' : Arena) p :
  storage_id <$> h' !! p = storage_id <$> h !! p →
  has_id h p → has_id h' p.
Proof.
  intros Heq (t & Ht & Hid). rewrite Ht in Heq. simpl in Heq.
  destruct (h' !! p) as [t'|] eqn:Ht'; [|done]. injection Heq as Heq.
  exists t'. split; [done|lia].
Qed.

Lemma id_insert_same (h : Arena) r (t t' : StorageToken) p :
  h !! r = Some t → storage_id t' = storage_id t →
  storage_id <$> <[r := t']> h !! p = storage_id <$> h !! p.
Proof.
  intros Hr Hid. destruct (decide (r = p)) as [->|Hne].
  - rewrite list_lookup_insert_eq by (by eapply lookup_lt_Some).
    rewrite Hr. simpl. by rewrite Hid.
  - by rewrite list_lookup_insert_ne.
Qed.

(** A step that changes no storage id and adds only allocated tokens to
    the free list. *)
Lemma ids_same v v' :
  ids_inv v → token_map_ v' = token_map_ v →
  (∀ p, storage_id <$> arena_ v' !! p = storage_id <$> arena_ v !! p) →
  next_id v' = next_id v →
  (∀ e, e ∈ free1 (allocator_ (derived v')) →
        e ∈ free1 (allocator_ (derived v)) ∨ has_id (arena_ v) e.2) →
  ids_inv v' ∧ ids_kept v v'.
Proof.
  intros (Hnext & Hbelow & Huniq & Hfree & Hlisted) Htm Hids Hn Hf.
  assert (Hkept : ids_kept v v') by (intros p; apply has_id_same, Hids).
  assert (Hback : ∀ p t', arena_ v' !! p = Some t' →
            ∃ t, arena_ v !! p = Some t ∧ storage_id t = storage_id t').
  { intros p t' Hp. specialize (Hids p). rewrite Hp in Hids. simpl in Hids.
    destruct (arena_ v !! p) as [t|] eqn:Ht; [|done].
    injection Hids as Hids. by exists t. }
  split; [|done]. split_and!.
  - by rewrite Hn.
  - intros p t' (t & Ht & Hid)%Hback. rewrite Hn, <- Hid. by eapply Hbelow.
  - intros p q t' u' (t & Ht & Hid)%Hback (u & Hu & Hid')%Hback H0 Heq.
    eapply (Huniq p q t u); [done|done|lia|lia].
  - intros e [He|He]%Hf; [by apply Hkept, Hfree|by apply Hkept].
  - intros n toks Hn'. rewrite Htm in Hn'.
    eapply Forall_impl; [by eapply Hlisted|]. apply Hkept.
Qed.

(** A step that gives the token [P] the next id. *)
Lemma ids_alloc v v' P t t' :
  ids_inv v → token_map_ v' = token_map_ v →
  arena_ v !! P = Some t → arena_ v' = <[P := t']> (arena_ v) →
  storage_id t' = next_id v → next_id v' = next_id v + 1 →
  free1 (allocator_ (derived v')) = free1 (allocator_ (derived v)) →
  ids_inv v' ∧ ids_kept v v' ∧ has_id (arena_ v') P.
Proof.
  intros (Hnext & Hbelow & Huniq & Hfree & Hlisted) Htm HP Hh Hid Hn Hf.
  assert (Hlt : (P < length (arena_ v))%nat) by (by eapply lookup_lt_Some).
  assert (HP' : arena_ v' !! P = Some t').
  { rewrite Hh. by apply list_lookup_insert_eq. }
  assert (Hother : ∀ p, p ≠ P → arena_ v' !! p = arena_ v !! p).
  { intros p Hne. rewrite Hh. by apply list_lookup_insert_ne. }
  assert (Hkept : ids_kept v v').
  { intros p (u & Hu & Hu0). destruct (decide (p = P)) as [->|Hne].
    - exists t'. split; [done|lia].
    - exists u. by rewrite Hother. }
  split; [|split; [done|exists t'; split; [done|lia]]]. split_and!.
  - lia.
  - intros p u Hp. destruct (decide (p = P)) as [->|Hne].
    + simplify_eq. lia.
    + rewrite Hother in Hp by done. apply Hbelow in Hp. lia.
  - intros p q u w Hp Hq H0 Heq.
    destruct (decide (p = P)) as [->|Hp'];
      destruct (decide (q = P)) as [->|Hq']; [done| | |].
    + rewrite Hother in Hq by done. apply Hbelow in Hq. simplify_eq. lia.
    + rewrite Hother in Hp by done. apply Hbelow in Hp. simplify_eq. lia.
    + rewrite Hother in Hp, Hq by done. by eapply Huniq.
  - intros e He. rewrite Hf in He. by apply Hkept, Hfree.
  - intros n toks Hn'. rewrite Htm in Hn'.
    eapply Forall_impl; [by eapply Hlisted|]. apply Hkept.
Qed.

Lemma Alloc_next h a P r h' a' :
  TokenAllocator.Alloc h a P = Ok (r, h', a') →
  TokenAllocator.storage_ids_ a' = TokenAllocator.storage_ids_ a + 1.
Proof.
  unfold TokenAllocator.Alloc. intros H.
  apply rbind_Ok in H as (t & _ & H).
  apply rbind_Ok in H as (next & [-> _]%as_int64_Ok & H).
  destruct (TokenAllocator.Is2DStorage t).
  - apply rbind_Ok in H as (r0 & _ & H). by simplify_eq.
  - apply rbind_Ok in H as (r0 & _ & H). by simplify_eq.
Qed.

(** What [Alloc] records of the size of the token [t] it turns into [t']:
    a block of the flattened shape under the new id for a texture, the
    bytes of the tensor in [max_bytes] otherwise. *)
Definition placed (a a' : TokenAllocator.t) (P : tokptr)
    (t t' : StorageToken) : Prop :=
  if Is2DStorage (storage_scope t) then
    ∃ shp, TokenAllocator2D.GetSize2D t = Ok shp
           ∧ TokenAllocator2D.blocks_ (TokenAllocator.token_2d_ a')
             = <[TokenAllocator.storage_ids_ a :=
                   TokenAllocator2D.mkMemBlock (Some P) (texture.width shp)
                     (texture.height shp)]>
                 (TokenAllocator2D.blocks_ (TokenAllocator.token_2d_ a))
  else
    TokenAllocator1D.GetMemorySize t = Ok (max_bytes t')
    ∧ TokenAllocator.token_2d_ a' = TokenAllocator.token_2d_ a.

Lemma Alloc_outcome h a P r h' a' :
  TokenAllocator.Alloc h a P = Ok (r, h', a') →
  ∃ t t',
    h !! P = Some t ∧ r = P ∧ h' = <[P := t']> h
    ∧ storage_id t' = TokenAllocator.storage_ids_ a
    ∧ ttype t' = ttype t ∧ storage_scope t' = storage_scope t
    ∧ TokenAllocator.storage_ids_ a' = TokenAllocator.storage_ids_ a + 1
    ∧ free1 a' = free1 a
    ∧ placed a a' P t t'.
Proof.
  unfold TokenAllocator.Alloc, placed, free1. intros H.
  apply rbind_Ok in H as (t & Ht%deref_Ok & H).
  apply rbind_Ok in H as (next & [-> _]%as_int64_Ok & H).
  unfold TokenAllocator.Is2DStorage in H.
  destruct (Is2DStorage (storage_scope t)) eqn:H2d.
  - apply rbind_Ok in H as ([[r0 h0] a0] & Ha & H). simpl in H.
    unfold TokenAllocator2D.Alloc in Ha.
    apply rbind_Ok in Ha as (t0 & Ht0%deref_Ok & Ha).
    apply rbind_Ok in Ha as (shp & Hshp & Ha). simplify_eq.
    eexists t, _. rewrite H2d. split_and!; try done. simpl. by exists shp.
  - apply rbind_Ok in H as ([[r0 h0] a0] & Ha & H). simpl in H.
    unfold TokenAllocator1D.Alloc in Ha.
    apply rbind_Ok in Ha as (t0 & Ht0%deref_Ok & Ha).
    apply rbind_Ok in Ha as (size & Hsize & Ha). simplify_eq.
    eexists t, _. rewrite H2d. split_and!; try done.
Qed.

(** The two outcomes of creating a token: a token of the free list is
    taken, keeps its id and does not shrink; or the prototype gets the next
    id and its size is recorded. *)
Definition taken (v : St) (r : tokptr) (v' : St) : Prop :=
  ∃ e tok tok',
    e ∈ free1 (allocator_ (derived v)) ∧ e.2 = r
    ∧ arena_ v !! r = Some tok ∧ arena_ v' = <[r := tok']> (arena_ v)
    ∧ storage_id tok' = storage_id tok ∧ ttype tok' = ttype tok
    ∧ storage_scope tok' = storage_scope tok
    ∧ max_bytes tok ≤ max_bytes tok'
    ∧ next_id v' = next_id v
    ∧ TokenAllocator.token_2d_ (allocator_ (derived v'))
      = TokenAllocator.token_2d_ (allocator_ (derived v))
    ∧ ∀ e', e' ∈ free1 (allocator_ (derived v')) →
            e' ∈ free1 (allocator_ (derived v)).

Definition fresh (P : tokptr) (v : St) (v' : St) : Prop :=
  ∃ t t',
    arena_ v !! P = Some t ∧ arena_ v' = <[P := t']> (arena_ v)
    ∧ storage_id t' = next_id v ∧ ttype t' = ttype t
    ∧ storage_scope t' = storage_scope t
    ∧ next_id v' = next_id v + 1
    ∧ free1 (allocator_ (derived v')) = free1 (allocator_ (derived v))
    ∧ placed (allocator_ (derived v)) (allocator_ (derived v')) P t t'.

Lemma create_one_outcome b P v r v' :
  create_one b P v = Ok (r, v') →
  token_map_ v' = token_map_ v ∧ (taken v r v' ∨ (r = P ∧ fresh P v v')).
Proof.
  unfold create_one. intros H.
  apply bind_Ok in H as (v0 & ? & [= <- <-] & H).
  apply bind_Ok in H as (t & ? & [Hd ->]%lift_deref_Ok & H).
  destruct (b && bool_decide (storage_scope t = "global")) eqn:Hcase.
  - apply andb_true_iff in Hcase as [-> Hg%bool_decide_eq_true].
    unfold allocator_Request in H.
    apply rbind_Ok in H as ([[r0 h0] a0] & Hreq & H). injection H as <- <-.
    simpl. split; [done|].
    eapply Request_Ok_1d in Hreq as [Hhit|Hmiss];
      [| |exact Hd|by apply global_not_2d].
    + left.
      destruct Hhit as (size & it & cached & tok & proto & Hsize & Hit
                        & Htok & Hrc & Hdev & Hproto & -> & Hf1 & H2 & Hn & _).
      eexists (cached, r0), tok, _. split_and!; try done.
      * by eapply list_elem_of_lookup_2.
      * simpl. lia.
      * unfold free1. simpl. rewrite Hf1. intros e'.
        apply list_elem_of_delete_inv.
    + right. split.
      { destruct Hmiss as (a1 & Halloc & _).
        by apply Alloc_outcome in Halloc as (? & ? & _ & -> & _). }
      destruct Hmiss as (a1 & Halloc & H1d & H2d & Hn1 & _).
      apply Alloc_outcome in Halloc
        as (t1 & t' & Ht1 & -> & -> & Hid & Hty & Hsc & Hn & Hf1 & Hpl).
      simplify_eq. exists t, t'. split_and!; try done.
      * simpl in *. congruence.
      * simpl in *. congruence.
      * unfold free1 in *. simpl. by rewrite Hf1, H1d.
      * unfold placed in *. simpl. rewrite Hn1, H2d in Hpl.
        destruct (Is2DStorage (storage_scope t)); [done|].
        destruct Hpl as [Hsz H2]. split; [done|]. by rewrite H2.
  - clear Hcase.
    apply bind_Ok in H as (r0 & v1 & Halloc & H).
    unfold allocator_Alloc in Halloc.
    apply rbind_Ok in Halloc as ([[r1 h1] a1] & Halloc & Hv1).
    injection Hv1 as <- <-.
    apply Alloc_outcome in Halloc
      as (t1 & t' & Ht1 & -> & -> & Hid & Hty & Hsc & Hn & Hf1 & Hpl).
    simplify_eq.
    apply bind_Ok in H as (v2 & ? & [= <- <-] & H). simpl in H.
    assert (Hlt : (P < length (arena_ v))%nat) by (by eapply lookup_lt_Some).
    apply bind_Ok in H as (t2 & ? & [Ht2 ->]%lift_deref_Ok & H).
    apply bind_Ok in H as (t3 & ? & [Ht3 ->]%lift_deref_Ok & H).
    simpl in Ht2, Ht3.
    rewrite list_lookup_insert_eq in Ht2, Ht3 by done.
    injection Ht2 as <-. injection Ht3 as <-.
    apply bind_Ok in H as (? & v3 & [= <- <-] & H). simpl in H.
    apply bind_Ok in H as (? & v4 & Hadd & H).
    apply add_ref_Ok in Hadd as (t4 & Ht4 & _ & ->). simpl in Ht4.
    apply bind_Ok in H as (? & v5 & [= <- <-] & H). injection H as <- <-.
    rewrite list_insert_insert_eq in Ht4.
    rewrite list_lookup_insert_eq in Ht4 by done.
    injection Ht4 as <-. simpl. split; [done|]. right. split; [done|].
    exists t, (set_ref_counter (ref_counter t' + 1)
                 (set_device_type (device_type t') t')).
    split_and!; try done.
    by rewrite !list_insert_insert_eq.
Qed.

Lemma ids_create_one b P v r v' :
  ids_inv v → create_one b P v = Ok (r, v') →
  (ids_inv v' ∧ ids_kept v v') ∧ has_id (arena_ v') r
  ∧ token_map_ v' = token_map_ v.
Proof.
  intros Hv H. apply create_one_outcome in H as [Htm [Hr|[-> Ha]]].
  - destruct Hr as (e & tok & tok' & He & <- & Htok & Hh & Hid & _ & _ & _
                    & Hn & _ & Hf).
    assert (Hs : ids_inv v' ∧ ids_kept v v').
    { apply ids_same; try done.
      - intros p. rewrite Hh. by eapply id_insert_same.
      - intros e' He'. left. by apply Hf. }
    destruct Hs as [Hv' Hk]. split_and!; try done.
    apply Hk. destruct Hv as (_ & _ & _ & Hfree & _). by apply Hfree.
  - destruct Ha as (t & t' & Ht & Hh & Hid & _ & _ & Hn & Hf & _).
    destruct (ids_alloc v v' P t t') as (Hv' & Hk & HP); try done.
Qed.

Lemma ids_create_all b protos v toks v' :
  ids_inv v → create_all b protos v = Ok (toks, v') →
  (ids_inv v' ∧ ids_kept v v') ∧ Forall (has_id (arena_ v')) toks
  ∧ token_map_ v' = token_map_ v.
Proof.
  revert v toks. induction protos as [|P protos IH]; intros v toks Hv H;
    simpl in H.
  - injection H as <- <-. split_and!; try done. apply ids_kept_refl.
  - apply bind_Ok in H as (t & v1 & Hone & H).
    apply bind_Ok in H as (ts & v2 & Hall & H). injection H as <- <-.
    apply ids_create_one in Hone as ([Hv1 Hk1] & Ht & Htm1); [|done].
    apply IH in Hall as ([Hv2 Hk2] & Hts & Htm2); [|done].
    split_and!; try done; try congruence.
    + by eapply ids_kept_trans.
    + constructor; [by apply Hk2|done].
Qed.

Lemma ids_set_tokens op toks (v : St) u v' :
  ids_inv v → Forall (has_id (arena_ v)) toks →
  set_tokens op toks v = Ok (u, v') → ids_inv v' ∧ ids_kept v v'.
Proof.
  intros (Hnext & Hbelow & Huniq & Hfree & Hlisted) Htoks [= <- <-].
  split; [|by intros p Hp]. split_and!; try done.
  intros n l Hn. simpl in Hn. destruct (decide (op = n)) as [->|Hne].
  - rewrite lookup_insert_eq in Hn. by simplify_eq.
  - rewrite lookup_insert_ne in Hn by done. by eapply Hlisted.
Qed.

Lemma ids_CreateToken op ty b v u v' :
  ids_inv v → CreateToken op ty b v = Ok (u, v') →
  ids_inv v' ∧ ids_kept v v'.
Proof.
  intros Hv H. unfold CreateToken in H.
  apply bind_Ok in H as (v0 & ? & [= <- <-] & H).
  apply bind_Ok in H as (? & ? & [_ ->]%ICHECK_Ok & H).
  destruct (prototype_ (derived v) !! op) as [protos|]; [|done].
  apply bind_Ok in H as (tokens & v1 & Hall & H).
  apply ids_create_all in Hall as ([Hv1 Hk1] & Htoks & _); [|done].
  eapply ids_set_tokens in H as [Hv' Hk']; [|done|done].
  split; [done|]. by eapply ids_kept_trans.
Qed.

Lemma insert_elem_of (e x : Z * tokptr) l :
  e ∈ TokenAllocator1D.insert x l → e = x ∨ e ∈ l.
Proof.
  unfold TokenAllocator1D.insert.
  intros [Ht|[->|Hd]%elem_of_cons]%elem_of_app; [right|by left|right].
  - rewrite <- (take_drop (TokenAllocator1D.upper_bound l x.1) l).
    apply elem_of_app. by left.
  - rewrite <- (take_drop (TokenAllocator1D.upper_bound l x.1) l).
    apply elem_of_app. by right.
Qed.

Lemma ids_CheckForRelease T v u v' :
  ids_inv v → allocator_CheckForRelease T v = Ok (u, v') →
  ids_inv v' ∧ ids_kept v v'.
Proof.
  intros Hv H. unfold allocator_CheckForRelease in H.
  apply rbind_Ok in H as (a' & Ha & H). injection H as <- <-.
  apply CheckForRelease_Ok in Ha as (t & Ht & Hid & _ & _ & Hn & Hfree).
  apply ids_same; try done. simpl. intros e He. unfold free1 in *.
  destruct (Is2DStorage (storage_scope t)).
  - destruct Hfree as [H1 _]. rewrite H1 in He. by left.
  - destruct Hfree as [_ H1]. rewrite H1 in He.
    case_bool_decide; [|by left].
    apply insert_elem_of in He as [->|He]; [right|by left].
    by exists t.
Qed.

Lemma ids_add_ref d tok (v : St) u v' :
  ids_inv v → add_ref d tok v = Ok (u, v') → ids_inv v' ∧ ids_kept v v'.
Proof.
  intros Hv H. apply add_ref_Ok in H as (t & Ht & _ & ->).
  apply ids_same; try done; [|by left].
  intros p. simpl. by eapply id_insert_same.
Qed.

Definition allocated_in (v : St) (toks : list tokptr) : Prop :=
  Forall (has_id (arena_ v)) toks.
Definition ids_step (v v' : St) : Prop := ids_inv v' ∧ ids_kept v v'.

Lemma allocated_in_kept v v' l :
  ids_kept v v' → allocated_in v l → allocated_in v' l.
Proof. intros Hk Hl. eapply Forall_impl; [exact Hl|]. apply Hk. Qed.

Lemma ids_step_trans v1 v2 v3 :
  ids_step v1 v2 → ids_step v2 v3 → ids_step v1 v3.
Proof. intros [_ H1] [H2 H3]. split; [done|]. by eapply ids_kept_trans. Qed.

Lemma ids_VisitCall op ty gets v u v' :
  ids_inv v →
  Forall (λ g, ∀ v1 r v2, ids_inv v1 → g v1 = Ok (r, v2) →
               ids_step v1 v2 ∧ allocated_in v2 r) gets →
  VisitCall op ty gets v = Ok (u, v') → ids_step v v'.
Proof.
  intros Hv Hgets H. unfold VisitCall in H.
  apply bind_Ok in H as (args & v1 & Hargs & H).
  apply bind_Ok in H as (? & v2 & Hcreate & H).
  apply bind_Ok in H as (toks & v3 & [-> _]%find_tokens_Ok & H).
  apply bind_Ok in H as (? & v4 & Hchecks & H).
  eapply (collect_inv ids_inv ids_kept allocated_in
            ids_kept_refl ids_kept_trans allocated_in_kept) in Hargs
    as [Hs1 _]; [|by constructor|by intros; apply Forall_app_2|done|done].
  eapply ids_step_trans; [exact Hs1|].
  pose proof (ids_CreateToken _ _ _ _ _ _ (proj1 Hs1) Hcreate) as Hs2.
  eapply ids_step_trans; [exact Hs2|].
  assert (Hs3 : ids_step v2 v4).
  { eapply (for_each_inv ids_inv ids_kept ids_kept_refl ids_kept_trans);
      [apply Hs2| |exact Hchecks].
    intros T w1 u1 w2 _ Hw1 Hc. by eapply ids_CheckForRelease. }
  eapply ids_step_trans; [exact Hs3|].
  eapply (for_each_inv ids_inv ids_kept ids_kept_refl ids_kept_trans);
    [apply Hs3| |exact H].
  intros T w1 u1 w2 _ Hw1 Hc.
  apply bind_Ok in Hc as (? & w3 & Hadd & Hc).
  apply ids_add_ref in Hadd as Hs4; [|done].
  eapply ids_step_trans; [exact Hs4|].
  eapply ids_CheckForRelease; [apply Hs4|exact Hc].
Qed.

Lemma ids_Run func v u v' :
  ids_inv v → Run CreateToken VisitCall func v = Ok (u, v') →
  ids_step v v'.
Proof.
  apply (Run_inv CreateToken VisitCall ids_inv ids_kept allocated_in
           ids_kept_refl ids_kept_trans allocated_in_kept).
  - by constructor.
  - intros; by apply Forall_app_2.
  - intros w l i t Hl Hi. constructor; [|constructor].
    exact (Forall_lookup_1 _ _ _ _ Hl Hi).
  - intros w n toks (_ & _ & _ & _ & Hw) Hn. by eapply Hw.
  - intros op toks w u1 w' Hw Htoks Hset. by eapply ids_set_tokens.
  - intros n w Hw. split; [|by intros p Hp]. exact Hw.
  - apply ids_CreateToken.
  - apply ids_VisitCall.
  - intros tok w u1 w' Hw Hadd. by eapply ids_add_ref.
Qed.

Lemma Assign_ids_inv func dev_map storage_map proto v :
  StorageAllocaInit.GetInitTokenMap func dev_map storage_map = Ok proto →
  Assign func proto = Ok v → ids_inv v.
Proof.
  intros HL HA. apply liveness_prototypes in HL.
  unfold Assign in HA.
  apply rbind_Ok in HA as ([u v0] & Hrun & H). injection H as <-.
  eapply ids_Run in Hrun as [Hv _]; [done|].
  assert (Hnone : ∀ p t, arena_ proto !! p = Some t → storage_id t = -1).
  { intros p t Hp.
    by pose proof (Forall_lookup_1 _ _ _ _ HL Hp) as (_ & _ & Hid & _). }
  split_and!; simpl.
  - done.
  - intros p t Hp. rewrite (Hnone p t Hp). lia.
  - intros p q t w Hp _ H0. rewrite (Hnone p t Hp) in H0. lia.
  - intros e He. by apply elem_of_nil in He.
  - intros n toks Hn. by rewrite lookup_empty in Hn.
Qed.

(** X15: After the assignment pass every token that [token_map_] lists is
    allocated, with an id from 0 up to, and not including, the number of
    ids handed out; and no two tokens of the arena hold the same id. *)
Theorem Assign_storage_ids func dev_map storage_map proto v :
  StorageAllocaInit.GetInitTokenMap func dev_map storage_map = Ok proto →
  Assign func proto = Ok v →
  (∀ n toks p, token_map_ v !! n = Some toks → p ∈ toks →
     ∃ t, arena_ v !! p = Some t ∧ 0 ≤ storage_id t < next_id v)
  ∧ (∀ p q t u, arena_ v !! p = Some t → arena_ v !! q = Some u →
       0 ≤ storage_id t → storage_id u = storage_id t → p = q).
Proof.
  intros HL HA.
  destruct (Assign_ids_inv _ _ _ _ _ HL HA)
    as (_ & Hbelow & Huniq & _ & Hlisted).
  split; [|exact Huniq].
  intros n toks p Hn Hp.
  pose proof (proj1 (Forall_forall _ _) (Hlisted n toks Hn) p Hp)
    as (t & Ht & H0).
  exists t. split; [done|]. split; [done|]. by eapply Hbelow.
Qed.

Lemma Assign_storage_ids_witness :
  ∃ t, arena_ chain_assigned !! 3%nat = Some t
       ∧ 0 ≤ storage_id t
           < TokenAllocator.storage_ids_
               (allocator_ (derived chain_assigned)).
Proof.
  destruct (Assign_storage_ids chain ∅ ∅ chain_proto chain_assigned)
    as [Hl _].
  - apply chain_planned.
  - apply chain_planned.
  - apply (Hl 3%nat [3%nat] 3%nat).
    + vm_compute. reflexivity.
    + by left.
Defined.

Lemma lookup_map {A B} (f : A → B) (l : list A) (i : nat) :
  map f l !! i = f <$> l !! i.
Proof. exact (list_lookup_fmap f l i). Qed.

(** X16: In the result of [Plan] a storage id is never negative, and it stands
    for one token: two entries with the same storage id, of the same node
    or of two nodes, have the same device type and the same storage
    scope. *)
Theorem Plan_storage_ids func dev_map storage_map smap n1 n2
    ids1 devs1 scopes1 ids2 devs2 scopes2 (i j : nat) id :
  Plan func dev_map storage_map = Ok smap →
  smap !! n1 = Some (ids1, devs1, scopes1) →
  smap !! n2 = Some (ids2, devs2, scopes2) →
  ids1 !! i = Some id → ids2 !! j = Some id →
  0 ≤ id ∧ devs1 !! i = devs2 !! j ∧ scopes1 !! i = scopes2 !! j.
Proof.
  intros H H1 H2 Hi Hj. apply Plan_Ok in H as (proto & v & HL & HA & ->).
  destruct (Assign_ids_inv _ _ _ _ _ HL HA)
    as (_ & _ & Huniq & _ & Hlisted).
  rewrite lookup_fmap in H1, H2.
  destruct (token_map_ v !! n1) as [toks1|] eqn:Ht1; [|done].
  destruct (token_map_ v !! n2) as [toks2|] eqn:Ht2; [|done].
  injection H1 as <- <- <-. injection H2 as <- <- <-.
  rewrite lookup_map in Hi, Hj. rewrite !lookup_map.
  destruct (toks1 !! i) as [p|] eqn:Hp; [|done].
  destruct (toks2 !! j) as [q|] eqn:Hq; [|done].
  pose proof (Forall_lookup_1 _ _ _ _ (Hlisted _ _ Ht1) Hp)
    as (t & Ht & H0).
  pose proof (Forall_lookup_1 _ _ _ _ (Hlisted _ _ Ht2) Hq)
    as (u & Hu & _).
  simpl in *. rewrite Ht in Hi. rewrite Hu in Hj. simpl in *.
  injection Hi as <-. injection Hj as Hj.
  assert (p = q) as -> by (by eapply (Huniq p q t u)).
  by simplify_eq.
Qed.

Lemma Plan_storage_ids_witness :
  0 ≤ 1 ∧ [0] !! 0%nat = [0] !! 0%nat
  ∧ ["global"] !! 0%nat = ["global"] !! 0%nat.
Proof.
  apply (Plan_storage_ids chain ∅ ∅
           (triple_of (arena_ chain_assigned) <$> token_map_ chain_assigned)
           1%nat 3%nat [1] [0] ["global"] [1] [0] ["global"] 0%nat 0%nat).
  - vm_compute. reflexivity.
  - vm_compute. reflexivity.
  - vm_compute. reflexivity.
  - reflexivity.
  - reflexivity.
Defined.

End StorageIds.

(** ** The size recorded for a token *)

Section TokenSizes.
Import StorageAllocator.

Local Abbreviation blocks_of v :=
  (TokenAllocator2D.blocks_ (TokenAllocator.token_2d_ (allocator_ (derived v)))).

(** The allocated token [t], at [p], has its size on record: a texture has
    the block of its id, which names it and has its flattened width and
    height; another token has at least the bytes of its tensor. *)
Definition sized (blocks : gmap Z TokenAllocator2D.MemBlock) (p : tokptr)
    (t : StorageToken) : Prop :=
  0 ≤ storage_id t →
  if Is2DStorage (storage_scope t) then
    ∃ shp, TokenAllocator2D.GetSize2D t = Ok shp
           ∧ blocks !! storage_id t
             = Some (TokenAllocator2D.mkMemBlock (Some p)
                       (texture.width shp) (texture.height shp))
  else
    ∃ s, TokenAllocator1D.GetMemorySize t = Ok s ∧ s ≤ max_bytes t.

Definition sizes_inv (v : St) : Prop :=
  ∀ p t, arena_ v !! p = Some t → sized (blocks_of v) p t.

(** The token [t'] is [t] with other counters, and no smaller. *)
Definition grown (t t' : StorageToken) : Prop :=
  storage_id t' = storage_id t ∧ ttype t' = ttype t
  ∧ storage_scope t' = storage_scope t ∧ max_bytes t ≤ max_bytes t'.

Lemma grown_refl t : grown t t.
Proof. unfold grown. split_and!; [done..|lia]. Qed.

Lemma GetMemorySize_ext t t' :
  ttype t' = ttype t →
  TokenAllocator1D.GetMemorySize t' = TokenAllocator1D.GetMemorySize t.
Proof. unfold TokenAllocator1D.GetMemorySize. by intros ->. Qed.

Lemma GetSize2D_ext t t' :
  ttype t' = ttype t → storage_scope t' = storage_scope t →
  TokenAllocator2D.GetSize2D t' = TokenAllocator2D.GetSize2D t.
Proof. unfold TokenAllocator2D.GetSize2D. by intros -> ->. Qed.

Lemma sized_grown blocks p t t' :
  grown t t' → sized blocks p t → sized blocks p t'.
Proof.
  intros (Hid & Hty & Hsc & Hmb) Hs H0. unfold sized in Hs.
  rewrite Hid, Hsc in *. specialize (Hs H0).
  destruct (Is2DStorage (storage_scope t)).
  - destruct Hs as (shp & Hshp & Hb). exists shp.
    by rewrite (GetSize2D_ext t t').
  - destruct Hs as (s & Hsz & Hle). exists s.
    rewrite (GetMemorySize_ext t t') by done. split; [done|lia].
Qed.

Lemma sizes_same v v' :
  sizes_inv v →
  (∀ p t', arena_ v' !! p = Some t' →
           ∃ t, arena_ v !! p = Some t ∧ grown t t') →
  blocks_of v' = blocks_of v →
  sizes_inv v'.
Proof.
  intros Hv Hh Hb p t' (t & Ht & Hg)%Hh. rewrite Hb.
  eapply sized_grown; [exact Hg|]. by apply Hv.
Qed.

Lemma insert_grown (h : Arena) r t t' p u' :
  h !! r = Some t → grown t t' → <[r := t']> h !! p = Some u' →
  ∃ u, h !! p = Some u ∧ grown u u'.
Proof.
  intros Hr Hg Hp. destruct (decide (r = p)) as [->|Hne].
  - rewrite list_lookup_insert_eq in Hp by (by eapply lookup_lt_Some).
    injection Hp as <-. by exists t.
  - rewrite list_lookup_insert_ne in Hp by done. exists u'.
    split; [done|apply grown_refl].
Qed.

Lemma sizes_fresh P v v' :
  ids_inv v → sizes_inv v → fresh P v v' → sizes_inv v'.
Proof.
  intros (Hnext & Hbelow & _) Hv
    (t & t' & Ht & Hh & Hid & Hty & Hsc & Hn & _ & Hpl) p u Hp.
  assert (Hlt : (P < length (arena_ v))%nat) by (by eapply lookup_lt_Some).
  rewrite Hh in Hp. unfold placed in Hpl.
  destruct (decide (p = P)) as [->|Hne].
  - rewrite list_lookup_insert_eq in Hp by done. injection Hp as <-.
    intros _. rewrite Hsc, Hid.
    destruct (Is2DStorage (storage_scope t)).
    + destruct Hpl as (shp & Hshp & ->). exists shp.
      rewrite (GetSize2D_ext t t') by done. split; [done|].
      by rewrite lookup_insert_eq.
    + destruct Hpl as [Hsz _]. exists (max_bytes t').
      rewrite (GetMemorySize_ext t t') by done. split; [done|lia].
  - rewrite list_lookup_insert_ne in Hp by done.
    pose proof (Hv p u Hp) as Hs. pose proof (Hbelow p u Hp) as Hb.
    intros H0. specialize (Hs H0).
    destruct (Is2DStorage (storage_scope u)); [|done].
    destruct Hs as (shp & Hshp & Hblock). exists shp. split; [done|].
    destruct (Is2DStorage (storage_scope t)).
    + destruct Hpl as (shp0 & _ & ->). rewrite lookup_insert_ne; [done|lia].
    + destruct Hpl as [_ ->]. done.
Qed.

Lemma sizes_create_one b P v r v' :
  ids_inv v → sizes_inv v → create_one b P v = Ok (r, v') → sizes_inv v'.
Proof.
  intros Hi Hv H. apply create_one_outcome in H as [_ [Hr|[_ Ha]]].
  - destruct Hr as (e & tok & tok' & _ & _ & Htok & Hh & Hid & Hty & Hsc
                    & Hmb & _ & H2 & _).
    eapply sizes_same; [exact Hv| |by rewrite H2].
    intros p u' Hp. rewrite Hh in Hp.
    by eapply insert_grown.
  - by eapply sizes_fresh.
Qed.

Lemma sizes_create_all b protos v toks v' :
  ids_inv v → sizes_inv v → create_all b protos v = Ok (toks, v') →
  sizes_inv v'.
Proof.
  revert v toks. induction protos as [|P protos IH]; intros v toks Hi Hv H;
    simpl in H.
  - by injection H as <- <-.
  - apply bind_Ok in H as (t & v1 & Hone & H).
    apply bind_Ok in H as (ts & v2 & Hall & H). injection H as <- <-.
    pose proof (sizes_create_one _ _ _ _ _ Hi Hv Hone) as Hv1.
    apply ids_create_one in Hone as ([Hi1 _] & _); [|done].
    by eapply IH.
Qed.

Lemma sizes_CreateToken op ty b v u v' :
  ids_inv v → sizes_inv v → CreateToken op ty b v = Ok (u, v') →
  sizes_inv v'.
Proof.
  intros Hi Hv H. unfold CreateToken in H.
  apply bind_Ok in H as (v0 & ? & [= <- <-] & H).
  apply bind_Ok in H as (? & ? & [_ ->]%ICHECK_Ok & H).
  destruct (prototype_ (derived v) !! op) as [protos|]; [|done].
  apply bind_Ok in H as (tokens & v1 & Hall & H).
  apply sizes_create_all in Hall; [|done..].
  by injection H as <- <-.
Qed.

Lemma CheckForRelease_blocks h a T a' :
  TokenAllocator.CheckForRelease h a T = Ok a' →
  TokenAllocator2D.blocks_ (TokenAllocator.token_2d_ a')
  = TokenAllocator2D.blocks_ (TokenAllocator.token_2d_ a).
Proof.
  unfold TokenAllocator.CheckForRelease. intros H.
  apply rbind_Ok in H as (t & _ & H).
  destruct (TokenAllocator.Is2DStorage t).
  - apply rbind_Ok in H as (a2 & Ha & H). injection H as <-. simpl.
    unfold TokenAllocator2D.CheckForRelease in Ha.
    apply rbind_Ok in Ha as (t0 & _ & Ha).
    repeat (case_bool_decide; simpl in Ha; try done); by simplify_eq.
  - apply rbind_Ok in H as (a1 & _ & H). by injection H as <-.
Qed.

Lemma sizes_CheckForRelease T v u v' :
  sizes_inv v → allocator_CheckForRelease T v = Ok (u, v') → sizes_inv v'.
Proof.
  intros Hv H. unfold allocator_CheckForRelease in H.
  apply rbind_Ok in H as (a' & Ha & H). injection H as <- <-.
  apply CheckForRelease_blocks in Ha.
  eapply sizes_same; [exact Hv| |done].
  intros p t Hp. exists t. split; [done|apply grown_refl].
Qed.

Lemma sizes_add_ref d tok (v : St) u v' :
  sizes_inv v → add_ref d tok v = Ok (u, v') → sizes_inv v'.
Proof.
  intros Hv H. apply add_ref_Ok in H as (t & Ht & _ & ->).
  eapply sizes_same; [exact Hv| |done].
  intros p u' Hp. simpl in Hp. eapply insert_grown; [exact Ht| |exact Hp].
  unfold grown. simpl. split_and!; [done..|lia].
Qed.

Definition alloc_inv (v : St) : Prop := ids_inv v ∧ sizes_inv v.
Definition alloc_step (v v' : St) : Prop := alloc_inv v' ∧ ids_kept v v'.

Lemma alloc_step_trans v1 v2 v3 :
  alloc_step v1 v2 → alloc_step v2 v3 → alloc_step v1 v3.
Proof. intros [_ H1] [H2 H3]. split; [done|]. by eapply ids_kept_trans. Qed.

Lemma alloc_CreateToken op ty b v u v' :
  alloc_inv v → CreateToken op ty b v = Ok (u, v') → alloc_step v v'.
Proof.
  intros [Hi Hv] H.
  destruct (ids_CreateToken _ _ _ _ _ _ Hi H) as [Hi' Hk].
  split; [|done]. split; [done|]. exact (sizes_CreateToken _ _ _ _ _ _ Hi Hv H).
Qed.

Lemma alloc_CheckForRelease T v u v' :
  alloc_inv v → allocator_CheckForRelease T v = Ok (u, v') →
  alloc_step v v'.
Proof.
  intros [Hi Hv] H.
  destruct (ids_CheckForRelease _ _ _ _ Hi H) as [Hi' Hk].
  split; [|done]. split; [done|]. exact (sizes_CheckForRelease _ _ _ _ Hv H).
Qed.

Lemma alloc_add_ref d tok (v : St) u v' :
  alloc_inv v → add_ref d tok v = Ok (u, v') → alloc_step v v'.
Proof.
  intros [Hi Hv] H.
  destruct (ids_add_ref _ _ _ _ _ Hi H) as [Hi' Hk].
  split; [|done]. split; [done|]. exact (sizes_add_ref _ _ _ _ _ Hv H).
Qed.

Lemma alloc_VisitCall op ty gets v u v' :
  alloc_inv v →
  Forall (λ g, ∀ v1 r v2, alloc_inv v1 → g v1 = Ok (r, v2) →
               alloc_step v1 v2 ∧ allocated_in v2 r) gets →
  VisitCall op ty gets v = Ok (u, v') → alloc_step v v'.
Proof.
  intros Hv Hgets H. unfold VisitCall in H.
  apply bind_Ok in H as (args & v1 & Hargs & H).
  apply bind_Ok in H as (? & v2 & Hcreate & H).
  apply bind_Ok in H as (toks & v3 & [-> _]%find_tokens_Ok & H).
  apply bind_Ok in H as (? & v4 & Hchecks & H).
  eapply (collect_inv alloc_inv ids_kept allocated_in
            ids_kept_refl ids_kept_trans allocated_in_kept) in Hargs
    as [Hs1 _]; [|by constructor|by intros; apply Forall_app_2|done|done].
  eapply alloc_step_trans; [exact Hs1|].
  pose proof (alloc_CreateToken _ _ _ _ _ _ (proj1 Hs1) Hcreate) as Hs2.
  eapply alloc_step_trans; [exact Hs2|].
  assert (Hs3 : alloc_step v2 v4).
  { eapply (for_each_inv alloc_inv ids_kept ids_kept_refl ids_kept_trans);
      [apply Hs2| |exact Hchecks].
    intros T w1 u1 w2 _ Hw1 Hc. by eapply alloc_CheckForRelease. }
  eapply alloc_step_trans; [exact Hs3|].
  eapply (for_each_inv alloc_inv ids_kept ids_kept_refl ids_kept_trans);
    [apply Hs3| |exact H].
  intros T w1 u1 w2 _ Hw1 Hc.
  apply bind_Ok in Hc as (? & w3 & Hadd & Hc).
  apply alloc_add_ref in Hadd as Hs4; [|done].
  eapply alloc_step_trans; [exact Hs4|].
  eapply alloc_CheckForRelease; [apply Hs4|exact Hc].
Qed.

Lemma alloc_Run func v u v' :
  alloc_inv v → Run CreateToken VisitCall func v = Ok (u, v') →
  alloc_step v v'.
Proof.
  apply (Run_inv CreateToken VisitCall alloc_inv ids_kept allocated_in
           ids_kept_refl ids_kept_trans allocated_in_kept).
  - by constructor.
  - intros; by apply Forall_app_2.
  - intros w l i t Hl Hi. constructor; [|constructor].
    exact (Forall_lookup_1 _ _ _ _ Hl Hi).
  - intros w n toks [(_ & _ & _ & _ & Hw) _] Hn. by eapply Hw.
  - intros op toks w u1 w' [Hi Hw] Htoks Hset.
    destruct (ids_set_tokens _ _ _ _ _ Hi Htoks Hset) as [Hi' Hk].
    split; [|done]. split; [done|]. by injection Hset as <- <-.
  - intros n w Hw. split; [|by intros p Hp]. exact Hw.
  - apply alloc_CreateToken.
  - apply alloc_VisitCall.
  - intros tok w u1 w' Hw Hadd. by eapply alloc_add_ref.
Qed.

(** X17: After the assignment pass the size of every allocated token is on
    record.  A texture token has, under its storage id, the block that
    names it, with the width and height its shape flattens to.  Any other
    token has in [max_bytes] at least the bytes of its own tensor. *)
Theorem Assign_token_sizes func dev_map storage_map proto v p t :
  StorageAllocaInit.GetInitTokenMap func dev_map storage_map = Ok proto →
  Assign func proto = Ok v →
  arena_ v !! p = Some t → 0 ≤ storage_id t →
  if Is2DStorage (storage_scope t) then
    ∃ shp, TokenAllocator2D.GetSize2D t = Ok shp
           ∧ blocks_of v !! storage_id t
             = Some (TokenAllocator2D.mkMemBlock (Some p)
                       (texture.width shp) (texture.height shp))
  else
    ∃ s, TokenAllocator1D.GetMemorySize t = Ok s ∧ s ≤ max_bytes t.
Proof.
  intros HL HA Hp H0. apply liveness_prototypes in HL.
  unfold Assign in HA.
  apply rbind_Ok in HA as ([u v0] & Hrun & H). injection H as <-.
  assert (Hnone : ∀ p t, arena_ proto !! p = Some t → storage_id t = -1).
  { intros q w Hq.
    by pose proof (Forall_lookup_1 _ _ _ _ HL Hq) as (_ & _ & Hid & _). }
  eapply alloc_Run in Hrun as [[_ Hv] _].
  - by apply (Hv p t Hp).
  - split.
    + split_and!; simpl.
      * done.
      * intros q w Hq. rewrite (Hnone q w Hq). lia.
      * intros q q' w w' Hq _ Hw. rewrite (Hnone q w Hq) in Hw. lia.
      * intros e He. by apply elem_of_nil in He.
      * intros n toks Hn. by rewrite lookup_empty in Hn.
    + intros q w Hq Hw. simpl in Hq. rewrite (Hnone q w Hq) in Hw. lia.
Qed.

Lemma Assign_token_sizes_witness :
  ∃ t shp,
    arena_ texture_assigned !! 1%nat = Some t
    ∧ TokenAllocator2D.GetSize2D t = Ok shp
    ∧ blocks_of texture_assigned !! 3
      = Some (TokenAllocator2D.mkMemBlock (Some 1%nat) (texture.width shp)
                (texture.height shp)).
Proof.
  destruct (arena_ texture_assigned !! 1%nat) as [t|] eqn:Ht;
    [|vm_compute in Ht; discriminate Ht].
  pose proof (Assign_token_sizes texture_graph ∅ texture_scopes
                texture_proto texture_assigned 1%nat t
                (proj1 texture_graph_planned) (proj2 texture_graph_planned)
                Ht) as H.
  vm_compute in Ht. injection Ht as <-.
  specialize (H ltac:(simpl; lia)).
  destruct H as (shp & Hshp & Hb).
  eexists _, shp. split_and!; [vm_compute; reflexivity|exact Hshp|exact Hb].
Defined.

End TokenSizes.

(** ** The nodes [Plan] answers for *)

Section PlanDomain.
Import StorageAllocator.

Definition keys_kept (v v' : St) : Prop :=
  ∀ n, is_Some (token_map_ v !! n) → is_Some (token_map_ v' !! n).

Lemma keys_kept_refl v : keys_kept v v.
Proof. by intros n Hn. Qed.

Lemma keys_kept_trans v1 v2 v3 :
  keys_kept v1 v2 → keys_kept v2 v3 → keys_kept v1 v3.
Proof. intros H1 H2 n Hn. by apply H2, H1. Qed.

Lemma keys_kept_same v v' : token_map_ v' = token_map_ v → keys_kept v v'.
Proof. intros Htm n Hn. by rewrite Htm. Qed.

Lemma keys_set_tokens op toks (v : St) u v' :
  set_tokens op toks v = Ok (u, v') →
  keys_kept v v' ∧ token_map_ v' !! op = Some toks.
Proof.
  intros [= <- <-]. simpl. split; [|by rewrite lookup_insert_eq].
  intros n Hn. simpl. destruct (decide (op = n)) as [->|Hne].
  - by rewrite lookup_insert_eq.
  - by rewrite lookup_insert_ne.
Qed.

Lemma keys_CreateToken op ty b v u v' :
  CreateToken op ty b v = Ok (u, v') →
  keys_kept v v' ∧ is_Some (token_map_ v' !! op).
Proof.
  intros H. unfold CreateToken in H.
  apply bind_Ok in H as (v0 & ? & [= <- <-] & H).
  apply bind_Ok in H as (? & ? & [_ ->]%ICHECK_Ok & H).
  destruct (prototype_ (derived v) !! op) as [protos|]; [|done].
  apply bind_Ok in H as (tokens & v1 & Hall & H).
  apply create_all_valid in Hall as [Htm _].
  apply keys_set_tokens in H as [Hk Hop]. split; [|by eexists].
  eapply keys_kept_trans; [|exact Hk]. by apply keys_kept_same.
Qed.

Lemma keys_VisitCall op ty gets v u v' :
  Forall (λ g, ∀ v1 r v2, g v1 = Ok (r, v2) → keys_kept v1 v2) gets →
  VisitCall op ty gets v = Ok (u, v') → keys_kept v v'.
Proof.
  intros Hgets H. unfold VisitCall in H.
  apply bind_Ok in H as (args & v1 & Hargs & H).
  apply bind_Ok in H as (? & v2 & Hcreate & H).
  apply bind_Ok in H as (toks & v3 & [-> _]%find_tokens_Ok & H).
  apply bind_Ok in H as (? & v4 & Hchecks & H).
  eapply keys_kept_trans.
  { eapply (collect_rel keys_kept keys_kept_refl keys_kept_trans);
      [exact Hgets|exact Hargs]. }
  eapply keys_kept_trans; [by eapply keys_CreateToken|].
  eapply keys_kept_trans.
  { eapply (for_each_rel keys_kept keys_kept_refl keys_kept_trans);
      [|exact Hchecks].
    intros T w1 u1 w2 _ Hc. apply keys_kept_same.
    by eapply CheckForRelease_token_map. }
  eapply (for_each_rel keys_kept keys_kept_refl keys_kept_trans); [|exact H].
  intros T w1 u1 w2 _ Hc.
  apply bind_Ok in Hc as (? & w3 & Hadd & Hc). apply keys_kept_same.
  rewrite (CheckForRelease_token_map _ _ _ _ Hc).
  by eapply add_ref_token_map.
Qed.

Lemma keys_params params v u v' :
  for_each params (λ param, CreateToken param.1 param.2 false) v
  = Ok (u, v') →
  keys_kept v v' ∧ ∀ p, p ∈ params → is_Some (token_map_ v' !! p.1).
Proof.
  revert v. induction params as [|p ps IH]; intros v H; simpl in H.
  - injection H as <- <-. split; [apply keys_kept_refl|].
    intros p Hp. by apply elem_of_nil in Hp.
  - apply bind_Ok in H as (? & v1 & Hp & H).
    apply keys_CreateToken in Hp as [Hk1 Hp].
    apply IH in H as [Hk2 Hps]. split; [by eapply keys_kept_trans|].
    intros q [->|Hq]%elem_of_cons; [by apply Hk2|by apply Hps].
Qed.

(** The final [token_map_] lists tokens for every parameter and for the
    body of the function. *)
Lemma Assign_covers func proto v :
  Assign func proto = Ok v →
  (∀ p, p ∈ params func → is_Some (token_map_ v !! p.1))
  ∧ is_Some (token_map_ v !! node_of (body func)).
Proof.
  unfold Assign, Run. intros H.
  apply rbind_Ok in H as ([u v0] & H & [= <-]).
  apply bind_Ok in H as (? & v1 & Hparams & H).
  apply bind_Ok in H as (toks & v2 & Hget & H).
  apply keys_params in Hparams as [_ Hps].
  assert (Hk2 : keys_kept v1 v2).
  { eapply (GetToken_rel CreateToken VisitCall keys_kept keys_kept_refl
              keys_kept_trans); [| | | |exact Hget].
    - intros op l w u1 w' Hset. by apply keys_set_tokens in Hset as [? _].
    - intros n w. by apply keys_kept_same.
    - intros op ty b w u1 w' Hc. by apply keys_CreateToken in Hc as [? _].
    - apply keys_VisitCall. }
  assert (Hbody : is_Some (token_map_ v2 !! node_of (body func))).
  { unfold GetToken in Hget. apply bind_Ok in Hget as (? & w & _ & Hf).
    apply find_tokens_Ok in Hf as [-> Hf]. by eexists. }
  assert (Hk3 : keys_kept v2 v0).
  { eapply (for_each_rel keys_kept keys_kept_refl keys_kept_trans);
      [|exact H].
    intros T w1 u1 w2 _ Hadd. apply keys_kept_same.
    by eapply add_ref_token_map. }
  split.
  - intros p Hp. by apply Hk3, Hk2, Hps.
  - by apply Hk3.
Qed.

(** X18: The map [Plan] returns has an entry for every parameter of the
    function and for its body, the node whose tokens are the outputs. *)
Theorem Plan_covers func dev_map storage_map smap :
  Plan func dev_map storage_map = Ok smap →
  (∀ p, p ∈ params func → is_Some (smap !! p.1))
  ∧ is_Some (smap !! node_of (body func)).
Proof.
  intros H. apply Plan_Ok in H as (proto & v & _ & HA & ->).
  apply Assign_covers in HA as [Hps Hbody].
  split.
  - intros p Hp. rewrite lookup_fmap. by apply fmap_is_Some, Hps.
  - rewrite lookup_fmap. by apply fmap_is_Some.
Qed.

Lemma Plan_covers_witness :
  is_Some ((triple_of (arena_ chain_assigned) <$> token_map_ chain_assigned)
             !! 3%nat).
Proof.
  apply (Plan_covers chain ∅ ∅
           (triple_of (arena_ chain_assigned) <$> token_map_ chain_assigned)).
  vm_compute. reflexivity.
Defined.

End PlanDomain.

(** ** When the 1d allocator finds a token *)

Section Request1DFinds.
Import TokenAllocator1D.

(** Every entry of the free list is a token without references. *)
Definition released (h : Arena) (l : list (Z * tokptr)) : Prop :=
  ∀ i e, l !! i = Some e → ∃ t, h !! e.2 = Some t ∧ ref_counter t = 0.

Lemma scan_up_returns h dev end_ free it0 :
  released h free → (it0 ≤ end_)%nat → (end_ ≤ length free)%nat →
  ∃ r, scan_up h dev end_ (drop it0 free) it0 = Ok r.
Proof.
  intros Hrel Hle Hend.
  remember (end_ - it0)%nat as n eqn:Hn. revert it0 Hle Hn.
  induction n as [|n IH]; intros it0 Hle Hn.
  - assert (it0 = end_) as -> by lia. exists None.
    destruct (drop end_ free); simpl; by rewrite bool_decide_true.
  - destruct (free !! it0) as [e|] eqn:He.
    + rewrite (drop_S free e it0 He). simpl.
      rewrite bool_decide_false by lia.
      destruct (Hrel it0 e He) as (t & Ht & _).
      apply deref_Ok in Ht. rewrite Ht. simpl.
      case_bool_decide; [|by eexists].
      apply IH; lia.
    + apply lookup_ge_None in He. lia.
Qed.

Lemma scan_down_returns h dev free begin it0 :
  released h free → (begin ≤ it0)%nat → (it0 ≤ length free)%nat →
  ∃ r, scan_down h dev free begin it0 = Ok r.
Proof.
  intros Hrel. induction it0 as [|it0 IH]; intros Hle Hlen; simpl.
  - assert (begin = 0)%nat as -> by lia. exists None.
    by rewrite bool_decide_true.
  - case_bool_decide; [by eexists|].
    destruct (free !! it0) as [e|] eqn:He.
    + destruct (Hrel it0 e He) as (t & Ht & _).
      apply deref_Ok in Ht. rewrite Ht. simpl.
      case_bool_decide; [|by eexists]. apply IH; lia.
    + apply lookup_ge_None in He. lia.
Qed.

Lemma take_entry_returns h a size prototype proto it k p :
  released h (free_ a) → h !! prototype = Some proto →
  free_ a !! it = Some (k, p) →
  ∃ h' a', take_entry h a size prototype it p = Ok (Some p, h', a').
Proof.
  intros Hrel Hproto Hit. destruct (Hrel it _ Hit) as (t & Ht & Hrc).
  simpl in Ht. unfold take_entry.
  pose proof Ht as Hd. apply deref_Ok in Hd. rewrite Hd. simpl.
  rewrite bool_decide_true by done. simpl.
  assert (Hp : (p < length h)%nat) by (by eapply lookup_lt_Some).
  assert (Hq : (prototype < length h)%nat) by (by eapply lookup_lt_Some).
  destruct (<[p := set_max_bytes (Z.max size (max_bytes t)) t]> h
              !! prototype) as [proto'|] eqn:Hproto'.
  - apply deref_Ok in Hproto'. rewrite Hproto'. simpl.
    unfold deref. rewrite list_lookup_insert_eq by done. simpl.
    by eexists _, _.
  - apply lookup_ge_None in Hproto'. rewrite length_insert in Hproto'. lia.
Qed.

(** A candidate in the window makes the search succeed. *)
Lemma Request_finds h a prototype proto size j e t :
  sorted (free_ a) → released h (free_ a) →
  h !! prototype = Some proto → GetMemorySize proto = Ok size →
  size * 16 < 2 ^ 64 →
  free_ a !! j = Some e → size / 16 ≤ e.1 ≤ size * 16 →
  h !! e.2 = Some t → device_type t = device_type proto →
  ∃ p h' a' k it,
    Request h a prototype = Ok (Some p, h', a')
    ∧ free_ a !! it = Some (k, p).
Proof.
  intros Hsorted Hrel Hproto Hsize Hfit He [Hlo Hhi] Ht Hdev.
  pose proof (GetMemorySize_range _ _ Hsize) as Hrange.
  assert (Hw : wrap_size (size * 16) = size * 16).
  { unfold wrap_size. apply Z.mod_small. lia. }
  unfold Request. apply deref_Ok in Hproto as Hd. rewrite Hd. simpl.
  rewrite Hsize. simpl. unfold match_range_. rewrite Hw.
  set (mid := lower_bound (free_ a) size).
  set (end_ := upper_bound (free_ a) (size * 16)).
  set (begin := lower_bound (free_ a) (size / 16)).
  assert (Hme : (mid ≤ end_)%nat) by (apply lower_upper_bound; lia).
  assert (Hbm : (begin ≤ mid)%nat).
  { apply lower_bound_mono. apply Z.div_le_upper_bound; lia. }
  destruct (scan_up_returns h (device_type proto) end_ (free_ a) mid)
    as [up Hup]; [done|done|apply upper_bound_le|].
  rewrite Hup. simpl. destruct up as [[it p]|].
  { apply scan_up_Some in Hup as (_ & _ & k & t0 & Hk & _).
    destruct (take_entry_returns h a size prototype proto it k p)
      as (h' & a' & Htake); [done..|].
    exists p, h', a', k, it. by rewrite Htake. }
  destruct (scan_down_returns h (device_type proto) (free_ a) begin mid)
    as [down Hdown]; [done|done|apply lower_bound_le|].
  rewrite Hdown. simpl. destruct down as [[it p]|].
  { apply scan_down_Some in Hdown as (_ & _ & k & t0 & Hk & _).
    destruct (take_entry_returns h a size prototype proto it k p)
      as (h' & a' & Htake); [done..|].
    exists p, h', a', k, it. by rewrite Htake. }
  exfalso.
  pose proof (scan_up_skipped _ _ _ _ _ _ Hup) as Hskip. simpl in Hskip.
  pose proof (scan_down_skipped _ _ _ _ _ _ Hdown) as Hskipd.
  simpl in Hskipd.
  assert (Hb : (begin ≤ j)%nat).
  { destruct (decide (begin ≤ j)%nat) as [|Hn]; [done|].
    pose proof (lower_bound_before _ (size / 16) _ _ He ltac:(lia)). lia. }
  assert (Hend : (j < end_)%nat).
  { destruct (decide (j < end_)%nat) as [|Hn]; [done|].
    pose proof (upper_bound_after _ (size * 16) _ _ Hsorted He
                  ltac:(lia)). lia. }
  destruct (decide (mid ≤ j)%nat) as [Hm|Hm].
  - destruct (Hskip j e Hm Hend He) as (t0 & Ht0 & Hne). by simplify_eq.
  - destruct (Hskipd j e Hb ltac:(lia) He) as (t0 & Ht0 & Hne).
    by simplify_eq.
Qed.

(** X19: [Request] neither aborts nor returns null when the free list holds a
    token of the prototype's device whose size lies in the window, from a
    sixteenth of the requested size to sixteen times it: it then returns a
    free token.  This needs that every free token is one without
    references, and that sixteen times the size fits a [size_t]. *)
Theorem Request1D_finds h a prototype proto size j e t :
  sorted (free_ a) → released h (free_ a) →
  h !! prototype = Some proto → GetMemorySize proto = Ok size →
  size * 16 < 2 ^ 64 →
  free_ a !! j = Some e → size / 16 ≤ e.1 ≤ size * 16 →
  h !! e.2 = Some t → device_type t = device_type proto →
  ∃ p h' a' k it,
    Request h a prototype = Ok (Some p, h', a')
    ∧ free_ a !! it = Some (k, p).
Proof. exact (Request_finds h a prototype proto size j e t). Qed.

Lemma Request1D_finds_witness :
  ∃ p h' a' k it,
    Request window_arena window_pool 1%nat = Ok (Some p, h', a')
    ∧ free_ window_pool !! it = Some (k, p).
Proof.
  destruct (window_arena !! 1%nat) as [proto|] eqn:Hp;
    [|vm_compute in Hp; discriminate Hp].
  destruct (window_arena !! 0%nat) as [t|] eqn:Ht;
    [|vm_compute in Ht; discriminate Ht].
  apply (Request1D_finds window_arena window_pool 1%nat proto 1000 0%nat
           (62, 0%nat) t).
  - apply window_pool_sorted.
  - intros i e He. destruct i as [|i]; [|done].
    injection He as <-. exists t. split; [exact Ht|].
    vm_compute in Ht. by injection Ht as <-.
  - exact Hp.
  - vm_compute in Hp. injection Hp as <-. vm_compute. reflexivity.
  - lia.
  - reflexivity.
  - vm_compute. split; discriminate.
  - exact Ht.
  - vm_compute in Hp, Ht. injection Hp as <-. by injection Ht as <-.
Defined.

(** X20: Release, then request: once [CheckForRelease] has put a token without
    references on the free list, a request of the token's device whose size
    is within a factor 16 of the token's [max_bytes] is served from the free
    list, without a new allocation; and by that very token when nothing else
    was free. *)
Theorem released_token_is_found h a tok a' t prototype proto size :
  sorted (free_ a) → released h (free_ a) →
  h !! tok = Some t → ref_counter t = 0 →
  CheckForRelease h a tok = Ok a' →
  h !! prototype = Some proto → GetMemorySize proto = Ok size →
  size * 16 < 2 ^ 64 →
  device_type t = device_type proto →
  size / 16 ≤ max_bytes t ≤ size * 16 →
  ∃ p h' a'' k it,
    Request h a' prototype = Ok (Some p, h', a'')
    ∧ free_ a' !! it = Some (k, p)
    ∧ (free_ a = [] → p = tok).
Proof.
  intros Hsorted Hrel Ht Hrc Hcheck Hproto Hsize Hfit Hdev Hwin.
  assert (Hfree : free_ a' = insert (max_bytes t, tok) (free_ a)).
  { unfold CheckForRelease in Hcheck.
    apply rbind_Ok in Hcheck as (t0 & Ht0%deref_Ok & Hcheck). simplify_eq.
    repeat (case_bool_decide; simpl in Hcheck; try done); by simplify_eq. }
  assert (Hin : (max_bytes t, tok) ∈ free_ a').
  { rewrite Hfree. unfold insert. apply elem_of_app. right. by left. }
  apply list_elem_of_lookup_1 in Hin as [j Hj].
  assert (Hrel' : released h (free_ a')).
  { intros i e He. apply list_elem_of_lookup_2 in He. rewrite Hfree in He.
    apply insert_elem_of in He as [->|He]; [by exists t|].
    apply list_elem_of_lookup_1 in He as [i' He]. by eapply Hrel. }
  destruct (Request_finds h a' prototype proto size j (max_bytes t, tok) t)
    as (p & h' & a'' & k & it & Hreq & Hit); try done.
  { rewrite Hfree. by apply sorted_insert. }
  exists p, h', a'', k, it. split_and!; [done..|].
  intros Hnil. rewrite Hfree, Hnil in Hit. unfold insert in Hit.
  simpl in Hit. destruct it as [|it]; simpl in Hit; by simplify_eq.
Qed.

Lemma released_token_is_found_witness :
  ∃ p h' a'' k it,
    Request window_arena window_pool 1%nat = Ok (Some p, h', a'')
    ∧ free_ window_pool !! it = Some (k, p)
    ∧ (@nil (Z * tokptr) = [] → p = 0%nat).
Proof.
  destruct (window_arena !! 1%nat) as [proto|] eqn:Hp;
    [|vm_compute in Hp; discriminate Hp].
  destruct (window_arena !! 0%nat) as [t|] eqn:Ht;
    [|vm_compute in Ht; discriminate Ht].
  apply (released_token_is_found window_arena (mk [] [0%nat]) 0%nat
           window_pool t 1%nat proto 1000).
  - intros i j e1 e2 _ He1. done.
  - intros i e He. done.
  - exact Ht.
  - vm_compute in Ht. by injection Ht as <-.
  - vm_compute in Ht. injection Ht as <-. vm_compute. reflexivity.
  - exact Hp.
  - vm_compute in Hp. injection Hp as <-. vm_compute. reflexivity.
  - lia.
  - vm_compute in Hp, Ht. injection Hp as <-. by injection Ht as <-.
  - vm_compute in Ht. injection Ht as <-. vm_compute. split; discriminate.
Defined.

End Request1DFinds.

(** ** The outputs are counted *)

Section LivenessOutputs.
Import StorageAllocaInit.

Lemma counted_valid {D} (toks : list tokptr) : ∀ (s : Visitor D) u s',
  for_each toks (add_ref 1) s = Ok (u, s') →
  ∀ P, P ∈ toks → (P < length (arena_ s))%nat.
Proof.
  induction toks as [|T toks IH]; intros s u s' H P HP; simpl in H.
  - by apply elem_of_nil in HP.
  - apply bind_Ok in H as (? & s1 & Hadd & H).
    apply add_ref_Ok in Hadd as (t & Ht & _ & ->).
    apply elem_of_cons in HP as [->|HP].
    + by eapply lookup_lt_Some.
    + pose proof (IH _ _ _ H P HP) as Hlt. simpl in Hlt.
      by rewrite length_insert in Hlt.
Qed.

(** X21: The liveness pass keeps the outputs alive: the body of the function has
    tokens, and each of them ends with at least as many references as it
    has occurrences among them, hence with one at least. *)
Theorem GetInitTokenMap_counts_outputs func dev_map storage_map proto :
  GetInitTokenMap func dev_map storage_map = Ok proto →
  ∃ outs,
    token_map_ proto !! node_of (body func) = Some outs
    ∧ ∀ P, P ∈ outs →
        ∃ t, arena_ proto !! P = Some t ∧ 1 ≤ occ P outs ≤ ref_counter t.
Proof.
  unfold GetInitTokenMap, Run. intros H.
  apply rbind_Ok in H as ([u v] & H & [= <-]).
  apply bind_Ok in H as (? & v1 & Hparams & H).
  apply bind_Ok in H as (outs & v2 & Hget & H).
  assert (Hproto : Forall (prototype_of (derived v2)) (arena_ v2)).
  { assert (Hk : keeps_prototypes (init dev_map storage_map) v2).
    { eapply keeps_prototypes_trans.
      - eapply (for_each_rel keeps_prototypes keeps_prototypes_refl
                  keeps_prototypes_trans); [|exact Hparams].
        intros prm w1 u1 w2 _ Hprm.
        eapply keeps_prototypes_CreateToken; exact Hprm.
      - eapply (GetToken_rel CreateToken VisitCall keeps_prototypes
                  keeps_prototypes_refl keeps_prototypes_trans);
          [| | | |exact Hget].
        + intros op toks w u1 w' [= <- <-]. by split.
        + intros n w. by split.
        + apply keeps_prototypes_CreateToken.
        + apply keeps_prototypes_VisitCall. }
    apply Hk. constructor. }
  assert (Hbody : token_map_ v2 !! node_of (body func) = Some outs).
  { unfold GetToken in Hget. apply bind_Ok in Hget as (? & w & _ & Hf).
    by apply find_tokens_Ok in Hf as [-> Hf]. }
  pose proof (counted_valid _ _ _ _ H) as Hvalid.
  destruct (counted_outputs _ _ _ _ H) as (Hlen & Hrc & Htm & _).
  exists outs. split; [by rewrite Htm|].
  intros P HP. specialize (Hvalid P HP).
  destruct (arena_ v !! P) as [t|] eqn:Ht.
  - exists t. split; [done|]. split; [by apply occ_elem_of|].
    specialize (Hrc P). rewrite (rc_lookup _ _ _ Ht) in Hrc.
    destruct (arena_ v2 !! P) as [t2|] eqn:Ht2.
    + rewrite (rc_lookup _ _ _ Ht2) in Hrc.
      pose proof (Forall_lookup_1 _ _ _ _ Hproto Ht2) as (H0 & _). lia.
    + apply lookup_ge_None in Ht2. lia.
  - apply lookup_ge_None in Ht. lia.
Qed.

Lemma GetInitTokenMap_counts_outputs_witness :
  ∃ outs,
    token_map_ chain_proto !! 3%nat = Some outs
    ∧ ∀ P, P ∈ outs →
        ∃ t, arena_ chain_proto !! P = Some t
             ∧ 1 ≤ occ P outs ≤ ref_counter t.
Proof.
  apply (GetInitTokenMap_counts_outputs chain ∅ ∅ chain_proto).
  apply chain_planned.
Defined.

End LivenessOutputs.
